(** * Assets3D: the mesh-processing core

    A shallow embedding of [MeshProcessor] (src/src/processor.py), of
    [ModelExporter] (src/src/exporter.py) and of
    [VoxelForge.generate_model] (src/main.py).

    The Python code is written against numpy's float64 scalars, numpy's
    global random generator, [colorsys] and the [trimesh] mesh type.  The
    embedding keeps that structure:

    - the arithmetic is an interface, [Scalar]; the code is written once
      against it and is read at two instances: [Float64] (IEEE binary64,
      Rocq's primitive floats, which is what numpy runs, NaN included) and
      [RealA] (exact real arithmetic, in which the geometric statements of
      the specification are equalities);
    - what comes from a library and is not code of this repository
      ([np.arccos], [colorsys.hsv_to_rgb], [np.random.*], the constructor
      and the repair operations of [trimesh], the case mapping and the
      white space of Unicode) is a [Variable] of the section that uses
      it; where the library documents a short rule ([np.linspace],
      [np.unique], [np.argmin], [mesh.bounds], reading
      [mesh.visual.vertex_colors]) the rule is written out;
    - a Python exception is a [Raise] of the [result] type, and
      [try: ... except Exception:] is [try_except]. *)

From Stdlib Require Import ZArith Reals Lra Lia Floats List Bool Sorted.
From Stdlib Require Uint63 Ascii DecimalString.
From stdpp Require Import base list strings.

(** ** Exceptions *)

Module Py.

Inductive exn : Type :=
| IndexError
| AttributeError
| ValueError
| LibraryError.

Inductive result (T : Type) : Type :=
| Ok (value : T)
| Raise (e : exn).

Arguments Ok {T} value.
Arguments Raise {T} e.

Definition bind {T U : Type} (c : result T) (k : T -> result U) : result U :=
  match c with
  | Ok v => k v
  | Raise e => Raise e
  end.

(** [try: body except Exception as e: handler e] *)
Definition try_except {T : Type} (body : result T) (handler : exn -> result T)
  : result T :=
  match body with
  | Ok v => Ok v
  | Raise e => handler e
  end.

(** A list comprehension (or a loop that appends) whose body may raise. *)
Fixpoint for_each {T U : Type} (f : T -> result U) (l : list T)
  : result (list U) :=
  match l with
  | [] => Ok []
  | x :: l' =>
      bind (f x) (fun y => bind (for_each f l') (fun ys => Ok (y :: ys)))
  end.

(** [l[i]] on a sequence: an index past the end raises [IndexError]. *)
Definition getitem {T : Type} (l : list T) (i : nat) : result T :=
  match l !! i with
  | Some x => Ok x
  | None => Raise IndexError
  end.

Definition raises {T : Type} (c : result T) : Prop :=
  exists e, c = Raise e.

End Py.

Import Py.

Declare Scope py_scope.
Delimit Scope py_scope with py.
Notation "'let*' x := c 'in' k" := (Py.bind c (fun x => k))
  (at level 10, x name, c at level 200, k at level 200) : py_scope.
Open Scope py_scope.

(** ** numpy scalars *)

(** The operations of a numpy float64 scalar that the code uses.  None of
    them raises: numpy signals a division by zero or an invalid operation
    with a warning and a special value. *)
Record Scalar : Type := {
  num : Type;
  of_Z : Z -> num;                  (* an int where a float is expected *)
  fadd : num -> num -> num;
  fsub : num -> num -> num;
  fmul : num -> num -> num;
  fdiv : num -> num -> num;
  fopp : num -> num;                (* -x *)
  fsqrt : num -> num;               (* np.sqrt *)
  feqb : num -> num -> bool;        (* x == y *)
  fltb : num -> num -> bool;        (* x < y; x > y is [fltb y x] *)
  fmaximum : num -> num -> num;     (* np.maximum, the step of .max() *)
  fminimum : num -> num -> num;     (* np.minimum, the step of .min() *)
  to_int : num -> Z;                (* int(x), x.astype(int) *)
  pi : num;                         (* np.pi *)
}.

Declare Scope num_scope.
Delimit Scope num_scope with num.
Notation "x + y" := (fadd _ x y) : num_scope.
Notation "x - y" := (fsub _ x y) : num_scope.
Notation "x * y" := (fmul _ x y) : num_scope.
Notation "x / y" := (fdiv _ x y) : num_scope.

(** A decimal literal [m / 10^e], such as [0.8 = dec 8 1]. *)
Definition dec (A : Scalar) (m : Z) (e : nat) : num A :=
  fdiv A (of_Z A m) (of_Z A (10 ^ Z.of_nat e)).

(** *** Exact real arithmetic *)

Definition Rtrunc (x : R) : Z :=
  if Rle_dec 0 x then Int_part x else (- Int_part (- x))%Z.

Definition RealA : Scalar := {|
  num := R;
  of_Z := IZR;
  fadd := Rplus;
  fsub := Rminus;
  fmul := Rmult;
  fdiv := Rdiv;
  fopp := Ropp;
  fsqrt := R_sqrt.sqrt;
  feqb := fun x y => if Req_dec_T x y then true else false;
  fltb := fun x y => if Rlt_dec x y then true else false;
  fmaximum := Rmax;
  fminimum := Rmin;
  to_int := Rtrunc;
  pi := PI;
|}.

(** *** IEEE binary64 *)

Definition float_of_Z (z : Z) : float :=
  match z with
  | Z0 => PrimFloat.of_uint63 (Uint63.of_Z 0)
  | Zpos _ => PrimFloat.of_uint63 (Uint63.of_Z z)
  | Zneg p => PrimFloat.opp (PrimFloat.of_uint63 (Uint63.of_Z (Zpos p)))
  end.

(** Truncation toward zero; the cast of NaN or an infinity is the
    "integer indefinite" value that numpy's [astype(int)] yields. *)
Definition float_trunc (x : float) : Z :=
  match Prim2SF x with
  | S754_zero _ => 0
  | S754_finite s m e =>
      let a := if (0 <=? e)%Z then (Zpos m * 2 ^ e)%Z
               else (Zpos m / 2 ^ (- e))%Z in
      if s then (- a)%Z else a
  | _ => (- 2 ^ 63)%Z
  end.

(** [np.maximum] and [np.minimum] propagate NaN. *)
Definition float_maximum (x y : float) : float :=
  if PrimFloat.is_nan x then x
  else if PrimFloat.is_nan y then y
  else if PrimFloat.ltb x y then y else x.

Definition float_minimum (x y : float) : float :=
  if PrimFloat.is_nan x then x
  else if PrimFloat.is_nan y then y
  else if PrimFloat.ltb y x then y else x.

Definition Float64 : Scalar := {|
  num := float;
  of_Z := float_of_Z;
  fadd := PrimFloat.add;
  fsub := PrimFloat.sub;
  fmul := PrimFloat.mul;
  fdiv := PrimFloat.div;
  fopp := PrimFloat.opp;
  fsqrt := PrimFloat.sqrt;
  feqb := PrimFloat.eqb;
  fltb := PrimFloat.ltb;
  fmaximum := float_maximum;
  fminimum := float_minimum;
  to_int := float_trunc;
  pi := 0x1.921fb54442d18p+1%float;
|}.

(** ** Vectors of three scalars *)

Section Vectors.

Context {A : Scalar}.

Definition vec : Type := (num A * num A * num A)%type.

Definition vadd (u v : vec) : vec :=
  let '(ux, uy, uz) := u in
  let '(vx, vy, vz) := v in
  (ux + vx, uy + vy, uz + vz)%num.

Definition vsub (u v : vec) : vec :=
  let '(ux, uy, uz) := u in
  let '(vx, vy, vz) := v in
  (ux - vx, uy - vy, uz - vz)%num.

(** [k * v] and [v / k] with a scalar [k] *)
Definition vscale (k : num A) (v : vec) : vec :=
  let '(vx, vy, vz) := v in (k * vx, k * vy, k * vz)%num.

Definition vdiv (v : vec) (k : num A) : vec :=
  let '(vx, vy, vz) := v in (vx / k, vy / k, vz / k)%num.

Definition vneg (v : vec) : vec :=
  let '(vx, vy, vz) := v in
  (fopp A vx, fopp A vy, fopp A vz).

(** [np.dot] *)
Definition dot (u v : vec) : num A :=
  let '(ux, uy, uz) := u in
  let '(vx, vy, vz) := v in
  (ux * vx + uy * vy + uz * vz)%num.

(** [np.linalg.norm] *)
Definition norm (v : vec) : num A := fsqrt A (dot v v).

(** [np.cross] *)
Definition cross (u v : vec) : vec :=
  let '(ux, uy, uz) := u in
  let '(vx, vy, vz) := v in
  (uy * vz - uz * vy, uz * vx - ux * vz, ux * vy - uy * vx)%num.

(** [a.mean(axis=0)] of an array of rows: the rows are added in order
    and the sum is divided by their number. *)
Definition mean_axis0 (rows : list vec) : vec :=
  match rows with
  | [] => vdiv (of_Z A 0, of_Z A 0, of_Z A 0) (of_Z A 0)
  | r :: rows' =>
      vdiv (fold_left vadd rows' r) (of_Z A (Z.of_nat (length rows)))
  end.

(** [np.clip(x, lo, hi)] *)
Definition clip (x lo hi : num A) : num A :=
  fminimum A (fmaximum A x lo) hi.

End Vectors.

Arguments vec A : clear implicits.

(** ** Meshes *)

(** A face is a triple of vertex indices; a color is four bytes, RGBA. *)
Definition face : Type := (nat * nat * nat)%type.
Definition rgb : Type := (Z * Z * Z)%type.
Definition rgba : Type := (Z * Z * Z * Z)%type.

(** [trimesh.Trimesh]: the data of a mesh that the code reads and writes.
    [vertex_colors] is the color array that the mesh stores, the
    [vertex_colors=] that it was built with or that was assigned to
    [mesh.visual.vertex_colors]; it is [None] for a mesh that was given
    no colors. *)
Record Mesh (A : Scalar) : Type := Trimesh {
  vertices : list (vec A);
  faces : list face;
  vertex_colors : option (list rgba);
}.

Arguments Trimesh {A} vertices faces vertex_colors.
Arguments vertices {A} m.
Arguments faces {A} m.
Arguments vertex_colors {A} m.

(** [trimesh.visual.color.DEFAULT_COLOR], a grey. *)
Definition DEFAULT_COLOR : rgba := (102, 102, 102, 255)%Z.

(** Reading [mesh.visual.vertex_colors], a property of [trimesh]'s
    [ColorVisuals]: the stored colors, and for a mesh that stores none an
    array of one default color for each vertex.  The value is an array in
    both cases, never [None]. *)
Definition visual_vertex_colors {A : Scalar} (mesh : Mesh A)
  : option (list rgba) :=
  match vertex_colors mesh with
  | Some colors => Some colors
  | None => Some (repeat DEFAULT_COLOR (length (vertices mesh)))
  end.

Definition face_has (f : face) (i : nat) : bool :=
  let '(a, b, c) := f in (a =? i) || (b =? i) || (c =? i).

(** [faces.flatten()] *)
Definition flatten (fs : list face) : list nat :=
  flat_map (fun f : face => let '(a, b, c) := f in [a; b; c]) fs.

(** [np.unique]: the distinct values, in increasing order. *)
Fixpoint insert_unique (x : nat) (l : list nat) : list nat :=
  match l with
  | [] => [x]
  | y :: l' =>
      if x <? y then x :: l
      else if x =? y then l
      else y :: insert_unique x l'
  end.

Definition np_unique (l : list nat) : list nat :=
  fold_right insert_unique [] l.

(** ** SharpnessEnhancer: [MeshProcessor.enhance_sharpness] *)

Section Sharpness.

Context {A : Scalar}.

(** [np.arccos], a function of the C library. *)
Variable arccos : num A -> num A.

(** [faces[np.any(faces == i, axis=1)]] *)
Definition neighbor_faces (fs : list face) (i : nat) : list face :=
  List.filter (fun f => face_has f i) fs.

(** [neighbors = np.unique(neighbor_faces.flatten())] followed by
    [neighbors = neighbors[neighbors != i]] *)
Definition neighbors (fs : list face) (i : nat) : list nat :=
  List.filter (fun n => negb (n =? i)) (np_unique (flatten (neighbor_faces fs i))).

(** The angle between two edge vectors, lines 100-104. *)
Definition angle (e1 e2 : vec A) : num A :=
  arccos (clip (dot e1 e2 / (norm e1 * norm e2))%num
               (of_Z A (-1)) (of_Z A 1)).

(** [for j in range(len(vertex_edges)-1)]: the first consecutive pair
    whose angle is greater than [np.pi/3] sets [is_sharp] and breaks. *)
Fixpoint sharp_scan (vertex_edges : list (vec A)) : bool :=
  match vertex_edges with
  | e1 :: (e2 :: _) as rest =>
      if fltb A (pi A / of_Z A 3)%num (angle e1 e2) then true
      else sharp_scan rest
  | _ => false
  end.

(** The body of [for i, vertex in enumerate(vertices)], lines 82-113:
    it reads [vertices] and writes [new_vertices[i]]. *)
Definition vertex_step (vertices : list (vec A)) (fs : list face)
    (new_vertices : list (vec A)) (i : nat) (vertex : vec A)
  : result (list (vec A)) :=
  if length (neighbor_faces fs i) =? 0 then Ok new_vertices   (* continue *)
  else
    let nbrs := neighbors fs i in
    if 0 <? length nbrs then
      let* vertex_edges :=
        for_each (fun neighbor =>
                    let* p := getitem vertices neighbor in
                    Ok (vsub p vertex)) nbrs in
      let is_sharp :=
        if 2 <=? length vertex_edges then sharp_scan vertex_edges
        else false in
      if negb is_sharp then
        let* neighbor_positions := for_each (getitem vertices) nbrs in
        let smoothed_position := mean_axis0 neighbor_positions in
        Ok (<[i := vadd (vscale (dec A 8 1) vertex)
                        (vscale (dec A 2 1) smoothed_position)]> new_vertices)
      else Ok new_vertices
    else Ok new_vertices.

(** The loop over [enumerate(vertices)], from index [i] on. *)
Fixpoint vertex_loop (vertices : list (vec A)) (fs : list face)
    (i : nat) (rest : list (vec A)) (new_vertices : list (vec A))
  : result (list (vec A)) :=
  match rest with
  | [] => Ok new_vertices
  | vertex :: rest' =>
      let* new_vertices' := vertex_step vertices fs new_vertices i vertex in
      vertex_loop vertices fs (S i) rest' new_vertices'
  end.

(** One iteration of [for iteration in range(3)]:
    [new_vertices = vertices.copy()], the loop, and the result that
    [vertices = new_vertices] makes the next iteration's input. *)
Definition smoothing_pass (vertices : list (vec A)) (fs : list face)
  : result (list (vec A)) :=
  vertex_loop vertices fs 0 vertices vertices.

Fixpoint smoothing_passes (n : nat) (vertices : list (vec A))
    (fs : list face) : result (list (vec A)) :=
  match n with
  | O => Ok vertices
  | S n' =>
      let* new_vertices := smoothing_pass vertices fs in
      smoothing_passes n' new_vertices fs
  end.

(** [trimesh.Trimesh(vertices=..., faces=..., vertex_colors=...)], the
    constructor of the library.  It does not store its arguments as they
    are: by default it processes them (it merges vertices at the same
    position, drops positions that are not finite and renumbers the
    faces), and it may raise. *)
Variable trimesh_Trimesh :
  list (vec A) -> list face -> option (list rgba) -> result (Mesh A).

(** Lines 73-128.  The handler of line 126 gives back the input mesh. *)
Definition enhance_sharpness (mesh : Mesh A) : result (Mesh A) :=
  try_except
    (let* vs := smoothing_passes 3 (vertices mesh) (faces mesh) in
     trimesh_Trimesh vs (faces mesh) (visual_vertex_colors mesh))
    (fun _ => Ok mesh).

End Sharpness.

(** ** Bounding boxes: [trimesh.Trimesh.bounds] *)

Section Bounds.

Context {A : Scalar}.

(** Indexing with a boolean mask: the elements whose index the mask
    keeps, the first element having index [i]. *)
Fixpoint select_from {T : Type} (keep : nat -> bool) (i : nat) (l : list T)
  : list T :=
  match l with
  | [] => []
  | x :: l' =>
      if keep i then x :: select_from keep (S i) l'
      else select_from keep (S i) l'
  end.

(** [mesh.referenced_vertices]: the mask of the vertices some face uses. *)
Definition referenced (fs : list face) (i : nat) : bool :=
  existsb (fun f => face_has f i) fs.

Definition face_in_range (n : nat) (f : face) : bool :=
  let '(a, b, c) := f in (a <? n) && (b <? n) && (c <? n).

Definition vmin (u v : vec A) : vec A :=
  let '(ux, uy, uz) := u in
  let '(vx, vy, vz) := v in
  (fminimum A ux vx, fminimum A uy vy, fminimum A uz vz).

Definition vmax (u v : vec A) : vec A :=
  let '(ux, uy, uz) := u in
  let '(vx, vy, vz) := v in
  (fmaximum A ux vx, fmaximum A uy vy, fmaximum A uz vz).

(** The axis-aligned box [(min, max)] of the referenced vertices, and
    [None] when no vertex is referenced.  A face that names a vertex the
    mesh does not have raises. *)
Definition bounds (mesh : Mesh A) : result (option (vec A * vec A)) :=
  if forallb (face_in_range (length (vertices mesh))) (faces mesh) then
    match select_from (referenced (faces mesh)) 0 (vertices mesh) with
    | [] => Ok None
    | p :: ps => Ok (Some (fold_left vmin ps p, fold_left vmax ps p))
    end
  else Raise IndexError.

(** [v.max()] of a vector *)
Definition vmax_component (v : vec A) : num A :=
  let '(x, y, z) := v in fmaximum A (fmaximum A x y) z.

End Bounds.

(** ** MeshNormalizer: [MeshProcessor.normalize_mesh] *)

Section Normalizer.

Context {A : Scalar}.

(** [scale = (bounds[1] - bounds[0]).max()] and the guard of line 193 *)
Definition normalize_scale (lo hi : vec A) : num A :=
  let scale := vmax_component (vsub hi lo) in
  if feqb A scale (of_Z A 0) then of_Z A 1 else scale.

Definition normalize_mesh (mesh : Mesh A) : result (Mesh A) :=
  try_except
    (let* b := bounds mesh in
     match b with
     | None => Raise AttributeError          (* bounds.mean on None *)
     | Some (lo, hi) =>
         let center := mean_axis0 [lo; hi] in
         let scale := normalize_scale lo hi in
         Ok (Trimesh
               (map (fun v => vdiv (vsub v center) (scale * dec A 5 1)%num)
                    (vertices mesh))
               (faces mesh) (vertex_colors mesh))
     end)
    (fun _ => Ok mesh).

End Normalizer.

(** ** ColorEnhancer: [MeshProcessor.enhance_colors] *)

(** The cast of an integer to [np.uint8] *)
Definition uint8 (z : Z) : Z := z mod 256.

Section Colors.

Context {A : Scalar}.

(** numpy's global random generator: its state, and
    [np.random.choice(a, size)], which draws [size] indices below [a]. *)
Variable RNG : Type.
Variable np_random_choice : nat -> nat -> RNG -> result (list nat) * RNG.

(** [np.column_stack([vertex_colors, np.full(n, 255)]).astype(np.uint8)] *)
Definition with_alpha (c : rgb) : rgba :=
  let '(r, g, b) := c in (uint8 r, uint8 g, uint8 b, uint8 255).

(** Lines 208-227.  [mesh.copy()] with [visual.vertex_colors] assigned
    is the mesh with its stored colors replaced. *)
Definition enhance_colors (color_palette : list rgb) (mesh : Mesh A) (g : RNG)
  : result (Mesh A) * RNG :=
  match visual_vertex_colors mesh with
  | None =>
      let '(drawn, g') :=
        np_random_choice (length color_palette) (length (vertices mesh)) g in
      (try_except
         (let* colors := drawn in
          let* vertex_colors :=
            for_each (getitem color_palette) colors in
          Ok (Trimesh (vertices mesh) (faces mesh)
                      (Some (map with_alpha vertex_colors))))
         (fun _ => Ok mesh),
       g')
  | Some original =>
      (try_except
         (Ok (Trimesh (vertices mesh) (faces mesh) (Some original)))
         (fun _ => Ok mesh),
       g)
  end.

End Colors.

(** ** MeshCleaner: [MeshProcessor.clean_mesh] *)

(** [max(items, key=key)]: the first item whose key is greatest. *)
Fixpoint py_max_from {T : Type} (key : T -> nat) (best : T) (items : list T) : T :=
  match items with
  | [] => best
  | x :: items' =>
      if key best <? key x then py_max_from key x items'
      else py_max_from key best items'
  end.

Section Cleaner.

Context {A : Scalar}.

(** The repair operations of [trimesh]; each may raise. *)
Variable remove_degenerate_faces : Mesh A -> result (Mesh A).
Variable remove_unreferenced_vertices : Mesh A -> result (Mesh A).
Variable split : Mesh A -> result (list (Mesh A)).
Variable fix_normals : Mesh A -> result (Mesh A).
Variable merge_vertices : Mesh A -> result (Mesh A).

(** Lines 167-171: with more than one component, the mesh becomes the
    first component with the most vertices. *)
Definition keep_largest (mesh : Mesh A) (components : list (Mesh A)) : Mesh A :=
  if 1 <? length components then
    match components with
    | c :: rest => py_max_from (fun x => length (vertices x)) c rest
    | [] => mesh
    end
  else mesh.

(** The body of the [try], lines 158-180. *)
Definition clean_steps (mesh : Mesh A) : result (option (Mesh A)) :=
  let* mesh := remove_degenerate_faces mesh in
  let* mesh := remove_unreferenced_vertices mesh in
  let* components := split mesh in
  let mesh := keep_largest mesh components in
  let* mesh := fix_normals mesh in
  let* mesh := merge_vertices mesh in
  Ok (Some mesh).

(** [None] is the "no mesh" of the [except] branch. *)
Definition clean_mesh (mesh : Mesh A) : result (option (Mesh A)) :=
  try_except (clean_steps mesh) (fun _ => Ok None).

End Cleaner.

(** ** The pipeline: [MeshProcessor.process_mesh] *)

Section Pipeline.

Context {A : Scalar}.

Variable arccos : num A -> num A.
Variable trimesh_Trimesh :
  list (vec A) -> list face -> option (list rgba) -> result (Mesh A).
Variable RNG : Type.
Variable np_random_choice : nat -> nat -> RNG -> result (list nat) * RNG.
Variable remove_degenerate_faces : Mesh A -> result (Mesh A).
Variable remove_unreferenced_vertices : Mesh A -> result (Mesh A).
Variable split : Mesh A -> result (list (Mesh A)).
Variable fix_normals : Mesh A -> result (Mesh A).
Variable merge_vertices : Mesh A -> result (Mesh A).

Definition clean : Mesh A -> result (option (Mesh A)) :=
  clean_mesh remove_degenerate_faces remove_unreferenced_vertices split
             fix_normals merge_vertices.

(** The MeshCleaner stage fails when one of its steps raises. *)
Definition cleaning_fails (mesh : Mesh A) : Prop :=
  raises (clean_steps remove_degenerate_faces remove_unreferenced_vertices
                      split fix_normals merge_vertices mesh).

(** The three later stages, in the order of lines 140-146. *)
Definition later_stages (color_palette : list rgb) (cleaned_mesh : Mesh A)
    (g : RNG) : result (Mesh A) * RNG :=
  match normalize_mesh cleaned_mesh with
  | Raise e => (Raise e, g)
  | Ok normalized_mesh =>
      match enhance_sharpness arccos trimesh_Trimesh normalized_mesh with
      | Raise e => (Raise e, g)
      | Ok sharpened_mesh =>
          enhance_colors RNG np_random_choice color_palette sharpened_mesh g
      end
  end.

Definition process_mesh (color_palette : list rgb) (mesh : Mesh A) (g : RNG)
  : result (option (Mesh A)) * RNG :=
  match clean mesh with
  | Raise _ => (Ok None, g)                       (* line 151 *)
  | Ok None => (Ok None, g)                       (* line 137 *)
  | Ok (Some cleaned_mesh) =>
      let '(final, g') := later_stages color_palette cleaned_mesh g in
      (try_except (let* final_mesh := final in Ok (Some final_mesh))
                  (fun _ => Ok None),
       g')
  end.

End Pipeline.

(** ** PaletteGenerator: [MeshProcessor.generate_full_spectrum_palette] *)

(** The three nested [for] loops of lines 25-34 and 43-54: each appends
    one color and every level breaks as soon as [len(palette) >= size]. *)
Section NestedLoops.

Context {X Y W C : Type}.
Variable color : X -> Y -> W -> C.
Variable size : nat.

Fixpoint inner_loop (x : X) (y : Y) (ws : list W) (palette : list C)
  : list C :=
  match ws with
  | [] => palette
  | w :: ws' =>
      let palette := palette ++ [color x y w] in
      if size <=? length palette then palette
      else inner_loop x y ws' palette
  end.

Fixpoint middle_loop (x : X) (ys : list Y) (ws : list W) (palette : list C)
  : list C :=
  match ys with
  | [] => palette
  | y :: ys' =>
      let palette := inner_loop x y ws palette in
      if size <=? length palette then palette
      else middle_loop x ys' ws palette
  end.

Fixpoint outer_loop (xs : list X) (ys : list Y) (ws : list W)
    (palette : list C) : list C :=
  match xs with
  | [] => palette
  | x :: xs' =>
      let palette := middle_loop x ys ws palette in
      if size <=? length palette then palette
      else outer_loop xs' ys ws palette
  end.

End NestedLoops.

(** [int(np.round(size ** (1/3)))], line 21.  The cube root of an integer
    is never half an integer, and for [size <= 216] it stays 0.002 away
    from one (the nearest is the cube root of 91, about 4.4979), far more
    than the error of float64's [**]; so the value is the integer nearest
    to the real cube root: the first [k] with [8 * size < (2k+1)^3]. *)
Definition nearest_cube_root (size : nat) : nat :=
  match List.find (fun k => 8 * size <? (2 * k + 1) ^ 3) (seq 0 (S size)) with
  | Some k => k
  | None => 0
  end.

Section Palette.

Context {A : Scalar}.

(** [np.linspace(start, stop, num, endpoint)], as numpy computes it: the
    indices are scaled by [step = (stop - start) / div], shifted by
    [start], and with [endpoint] the last value is set to [stop]. *)
Definition np_linspace (start stop : num A) (n : nat) (endpoint : bool)
  : list (num A) :=
  let div := if endpoint then (n - 1)%nat else n in
  let delta := (stop - start)%num in
  let y := map (fun i => of_Z A (Z.of_nat i)) (seq 0 n) in
  let y :=
    if 0 <? div then
      let step := (delta / of_Z A (Z.of_nat div))%num in
      if feqb A step (of_Z A 0)
      then map (fun t => (t / of_Z A (Z.of_nat div) * delta)%num) y
      else map (fun t => (t * step)%num) y
    else map (fun t => (t * delta)%num) y in
  let y := map (fun t => (t + start)%num) y in
  if endpoint && (1 <? n) then <[(n - 1)%nat := stop]> y else y.

(** [colorsys.hsv_to_rgb] and the draws of numpy's random generator. *)
Variable colorsys_hsv_to_rgb : num A -> num A -> num A -> vec A.
Variable RNG : Type.
Variable np_random_random : RNG -> num A * RNG.
Variable np_random_uniform : num A -> num A -> RNG -> num A * RNG.

(** [(self.hsv_to_rgb(h, s, v) * 255).astype(int)] *)
Definition hsv_color (h s v : num A) : rgb :=
  let '(r, g, b) := colorsys_hsv_to_rgb h s v in
  (to_int A (r * of_Z A 255)%num,
   to_int A (g * of_Z A 255)%num,
   to_int A (b * of_Z A 255)%num).

(** [np.linspace(0, 255, steps, dtype=int)] *)
Definition channel_values (steps : nat) : list Z :=
  map (to_int A) (np_linspace (of_Z A 0) (of_Z A 255) steps true).

(** Lines 21-22 *)
Definition cube_values (size : nat) : list Z :=
  channel_values (nearest_cube_root size).

(** Lines 24-34 *)
Definition rgb_cube (size : nat) : list rgb :=
  let values := cube_values size in
  outer_loop (fun r g b => (r, g, b)) size values values values [].

(** Lines 39-41 *)
Definition hue_steps (size : nat) : Z :=
  to_int A (fsqrt A (of_Z A (Z.of_nat size * 2))).

Definition sat_steps (size : nat) : Z :=
  Z.max 2 (Z.of_nat size / hue_steps size / 2).

Definition val_steps (size : nat) : Z :=
  Z.max 2 (Z.of_nat size / hue_steps size / sat_steps size).

Definition hues (size : nat) : list (num A) :=
  np_linspace (of_Z A 0) (of_Z A 360) (Z.to_nat (hue_steps size)) false.

Definition saturations (size : nat) : list (num A) :=
  np_linspace (dec A 6 1) (of_Z A 1) (Z.to_nat (sat_steps size)) true.

Definition brightnesses (size : nat) : list (num A) :=
  np_linspace (dec A 7 1) (of_Z A 1) (Z.to_nat (val_steps size)) true.

(** Lines 43-54 *)
Definition hsv_grid (size : nat) : list rgb :=
  outer_loop (fun h s v => hsv_color (h / of_Z A 360)%num s v) size
             (hues size) (saturations size) (brightnesses size) [].

(** Lines 57-62: [while len(palette) < size].  Every iteration appends
    one color, so [size] iterations are enough; [fuel] bounds them. *)
Fixpoint fill_remaining (fuel size : nat) (palette : list rgb) (g : RNG)
  : list rgb * RNG :=
  match fuel with
  | O => (palette, g)
  | S fuel' =>
      if length palette <? size then
        let '(h, g1) := np_random_random g in
        let '(s, g2) := np_random_uniform (dec A 8 1) (of_Z A 1) g1 in
        let '(v, g3) := np_random_uniform (dec A 8 1) (of_Z A 1) g2 in
        fill_remaining fuel' size (palette ++ [hsv_color h s v]) g3
      else (palette, g)
  end.

(** [np.array(..., dtype=np.uint8)] on one color *)
Definition as_uint8 (c : rgb) : rgb :=
  let '(r, g, b) := c in (uint8 r, uint8 g, uint8 b).

(** The colors the two enumerations give, before the fill. *)
Definition enumerated (size : nat) : list rgb :=
  if size <=? 216 then rgb_cube size else hsv_grid size.

Definition generate_full_spectrum_palette (size : nat) (g : RNG)
  : list rgb * RNG :=
  let '(palette, g') := fill_remaining size size (enumerated size) g in
  (map as_uint8 (firstn size palette), g').

End Palette.

(** ** ThumbnailCameraPlanner: [ModelExporter.get_camera_transform] *)

Section Camera.

Context {A : Scalar}.

Definition row4 : Type := (num A * num A * num A * num A)%type.
Definition mat4 : Type := (row4 * row4 * row4 * row4)%type.

(** [np.eye(4)] *)
Definition eye4 : mat4 :=
  let o := of_Z A 0 in
  let i := of_Z A 1 in
  ((i, o, o, o), (o, i, o, o), (o, o, i, o), (o, o, o, i)).

Definition row_set (r : row4) (j : nat) (x : num A) : row4 :=
  let '(a, b, c, d) := r in
  match j with
  | 0%nat => (x, b, c, d)
  | 1%nat => (a, x, c, d)
  | 2%nat => (a, b, x, d)
  | _ => (a, b, c, x)
  end.

Definition row_get (r : row4) (j : nat) : num A :=
  let '(a, b, c, d) := r in
  match j with
  | 0%nat => a
  | 1%nat => b
  | 2%nat => c
  | _ => d
  end.

(** [transform[:3, j] = v] *)
Definition set_column (m : mat4) (j : nat) (v : vec A) : mat4 :=
  let '(r0, r1, r2, r3) := m in
  let '(x, y, z) := v in
  (row_set r0 j x, row_set r1 j y, row_set r2 j z, r3).

(** [transform[:3, j]] and [transform[3, :]] *)
Definition column (m : mat4) (j : nat) : vec A :=
  let '(r0, r1, r2, _) := m in (row_get r0 j, row_get r1 j, row_get r2 j).

Definition last_row (m : mat4) : row4 :=
  let '(_, _, _, r3) := m in r3.

(** Lines 175-183 *)
Definition camera_size (lo hi : vec A) : num A :=
  let size := vmax_component (vsub hi lo) in
  if feqb A size (of_Z A 0) then of_Z A 1 else size.

Definition camera_position (lo hi : vec A) : vec A :=
  let center := mean_axis0 [lo; hi] in
  let distance := (camera_size lo hi * dec A 25 1)%num in
  vadd center
       ((distance * dec A 8 1)%num,
        (distance * dec A 8 1)%num,
        (distance * dec A 6 1)%num).

(** Lines 185-192 *)
Definition camera_forward (lo hi : vec A) : vec A :=
  let center := mean_axis0 [lo; hi] in
  let forward := vsub center (camera_position lo hi) in
  vdiv forward (norm forward).

Definition camera_right (lo hi : vec A) : vec A :=
  let world_up := (of_Z A 0, of_Z A 0, of_Z A 1) in
  let right := cross (camera_forward lo hi) world_up in
  vdiv right (norm right).

Definition camera_up (lo hi : vec A) : vec A :=
  cross (camera_right lo hi) (camera_forward lo hi).

(** Lines 194-198 *)
Definition camera_matrix (lo hi : vec A) : mat4 :=
  let transform := eye4 in
  let transform := set_column transform 0 (camera_right lo hi) in
  let transform := set_column transform 1 (camera_up lo hi) in
  let transform := set_column transform 2 (vneg (camera_forward lo hi)) in
  set_column transform 3 (camera_position lo hi).

Definition get_camera_transform (mesh : Mesh A) : result mat4 :=
  try_except
    (let* b := bounds mesh in
     match b with
     | None => Raise AttributeError          (* bounds.mean on None *)
     | Some (lo, hi) => Ok (camera_matrix lo hi)
     end)
    (fun _ => Ok eye4).

End Camera.

Arguments row4 A : clear implicits.
Arguments mat4 A : clear implicits.

(** * Definitions used to state the properties *)

(** ** Palettes *)

(** The Cartesian product of three lists in nested order, the first list
    outermost. *)
Definition grid {X Y W C : Type} (color : X -> Y -> W -> C)
    (xs : list X) (ys : list Y) (ws : list W) : list C :=
  flat_map (fun x => flat_map (fun y => map (color x y) ws) ys) xs.

Definition byte (z : Z) : Prop := (0 <= z <= 255)%Z.

Definition byte_triple (c : rgb) : Prop :=
  let '(r, g, b) := c in byte r /\ byte g /\ byte b.

(** [round(sqrt(n))]: the integer nearest to the square root of [n]. *)
Definition nearest_sqrt (n : Z) : Z := ((Z.sqrt (4 * n) + 1) / 2)%Z.

Section RandomColors.

Context {A : Scalar}.
Variable colorsys_hsv_to_rgb : num A -> num A -> num A -> vec A.
Variable RNG : Type.
Variable np_random_random : RNG -> num A * RNG.
Variable np_random_uniform : num A -> num A -> RNG -> num A * RNG.

(** One randomly sampled color: hue from [random()], saturation and
    value from [uniform(0.8, 1.0)], converted to RGB. *)
Definition random_color (g : RNG) : rgb * RNG :=
  let '(h, g1) := np_random_random g in
  let '(s, g2) := np_random_uniform (dec A 8 1) (of_Z A 1) g1 in
  let '(v, g3) := np_random_uniform (dec A 8 1) (of_Z A 1) g2 in
  (hsv_color colorsys_hsv_to_rgb h s v, g3).

(** [n] such colors drawn one after the other. *)
Fixpoint random_colors (n : nat) (g : RNG) : list rgb * RNG :=
  match n with
  | O => ([], g)
  | S n' =>
      let '(c, g1) := random_color g in
      let '(cs, g2) := random_colors n' g1 in
      (c :: cs, g2)
  end.

End RandomColors.

(** [steps] values evenly spaced from 0 to 255, rounded down. *)
Definition evenly_spaced (steps : nat) : list Z :=
  map (fun i => (255 * Z.of_nat i / (Z.of_nat steps - 1))%Z) (seq 0 steps).

(** The corners of the RGB cube, blue changing fastest. *)
Definition rgb_corners : list rgb :=
  [(0, 0, 0); (0, 0, 255); (0, 255, 0); (0, 255, 255);
   (255, 0, 0); (255, 0, 255); (255, 255, 0); (255, 255, 255)]%Z.

(** What is checked by computation in binary64: for each number of steps
    up to 6, the channel values; for each size up to 216, the number of
    steps. *)
Definition steps_checked (steps : nat) : Prop :=
  let values := channel_values (A := Float64) steps in
  values = evenly_spaced steps /\
  Forall byte values /\
  NoDup (grid (fun r g b : Z => (r, g, b)) values values values).

Definition root_checked (size : nat) : Prop :=
  let k := Z.of_nat (nearest_cube_root size) in
  nearest_cube_root size <= 6 /\
  ((2 * k - 1) ^ 3 < 8 * Z.of_nat size < (2 * k + 1) ^ 3)%Z.

#[local] Instance byte_dec (z : Z) : Decision (byte z).
Proof. unfold byte. apply _. Defined.

#[local] Instance steps_checked_dec (steps : nat) : Decision (steps_checked steps).
Proof. unfold steps_checked. apply _. Defined.

#[local] Instance root_checked_dec (size : nat) : Decision (root_checked size).
Proof. unfold root_checked. apply _. Defined.

(** ** Library stand-ins for closed examples *)

(** A stand-in for [colorsys.hsv_to_rgb] (its value on greys), and a
    random generator without state that always draws the least value. *)
Definition grey_hsv (A : Scalar) (h s v : num A) : vec A := (v, v, v).

Definition constant_random (A : Scalar) (g : unit) : num A * unit :=
  (of_Z A 0, g).

Definition constant_uniform (A : Scalar) (lo hi : num A) (g : unit)
  : num A * unit := (lo, g).

(** ** The HSV grid *)

(** [n] consecutive integers from [start] on. *)
Fixpoint zrange (n : nat) (start : Z) : list Z :=
  match n with
  | O => []
  | S n' => start :: zrange n' (Z.succ start)
  end.

(** Checked by computation in binary64: the truncated square root of
    [2 * z] is the integer square root. *)
Definition hue_root_checked (z : Z) : Prop :=
  to_int Float64 (fsqrt Float64 (of_Z Float64 (z * 2))) = Z.sqrt (2 * z).

#[local] Instance hue_root_checked_dec (z : Z) : Decision (hue_root_checked z).
Proof. unfold hue_root_checked. apply _. Defined.

(** ** Color assignment *)

(** A generator without state whose every draw is index 0. *)
Definition first_choice (a n : nat) (g : unit) : result (list nat) * unit :=
  (if (a =? 0) && (0 <? n) then Raise ValueError else Ok (repeat 0 n), g).

Definition two_colors : list rgb := [(0, 0, 0); (255, 255, 255)]%Z.

Definition bare_triangle (A : Scalar) : Mesh A :=
  Trimesh (A := A)
    [(of_Z A 0, of_Z A 0, of_Z A 0);
     (of_Z A 1, of_Z A 0, of_Z A 0);
     (of_Z A 0, of_Z A 1, of_Z A 0)]
    [(0, 1, 2)] None.

(** A stand-in for the constructor of [trimesh] in closed examples: it
    stores what it is given and processes nothing. *)
Definition stored_Trimesh {A : Scalar} (vertices : list (vec A))
    (faces : list face) (vertex_colors : option (list rgba))
  : result (Mesh A) :=
  Ok (Trimesh vertices faces vertex_colors).

(** ** Smoothing *)

Section SmoothingSpec.

Context {A : Scalar}.
Variable arccos : num A -> num A.

(** The positions of the one-ring neighbors of vertex [i], in increasing
    order of their indices. *)
Definition ring_positions (vs : list (vec A)) (fs : list face) (i : nat)
  : list (vec A) :=
  omap (fun n => vs !! n) (neighbors fs i).

(** Some two consecutive neighbor directions from [v] make an angle
    greater than [pi / 3]. *)
Definition sharp_at (v : vec A) (positions : list (vec A)) : Prop :=
  exists j p q,
    positions !! j = Some p /\ positions !! (S j) = Some q /\
    fltb A (pi A / of_Z A 3)%num (angle arccos (vsub p v) (vsub q v)) = true.

(** [0.8 * v + 0.2 * centroid] *)
Definition blend (v : vec A) (positions : list (vec A)) : vec A :=
  vadd (vscale (dec A 8 1) v) (vscale (dec A 2 1) (mean_axis0 positions)).

(** The position one iteration gives a vertex at [v] with the given
    neighbor positions. *)
Definition new_position (v : vec A) (positions : list (vec A)) : vec A :=
  match positions with
  | [] => v
  | _ :: _ =>
      if sharp_scan arccos (map (fun p => vsub p v) positions) then v
      else blend v positions
  end.

(** All vertices updated at once, each from the positions in [vs]. *)
Definition simultaneous (vs : list (vec A)) (fs : list face) : list (vec A) :=
  imap (fun i v => new_position v (ring_positions vs fs i)) vs.

(** [new] is [old] after one iteration of the rule: a vertex without
    neighbors stays, a sharp vertex stays, every other vertex is blended
    with the centroid of its neighbors; all positions are read in [old]. *)
Definition updated (fs : list face) (old new : list (vec A)) : Prop :=
  length new = length old /\
  forall i v,
    old !! i = Some v ->
    let positions := ring_positions old fs i in
    Forall2 (fun n p => old !! n = Some p) (neighbors fs i) positions /\
    (positions = [] -> new !! i = Some v) /\
    (sharp_at v positions -> new !! i = Some v) /\
    (positions <> [] -> ~ sharp_at v positions ->
     new !! i = Some (blend v positions)).

End SmoothingSpec.

(** Two vertices joined by a face that names the second one twice: the
    first vertex has exactly one neighbor. *)
Definition segment_vertices : list (vec RealA) :=
  [(0, 0, 0); (1, 0, 0)]%R.

Definition segment_faces : list face := [(0, 1, 1)].

(** ** Numerical anomalies *)

(** A triangle whose first two vertices coincide: the edge between them
    has length zero. *)
Definition coincident_triangle : Mesh Float64 :=
  Trimesh (A := Float64)
    [(0, 0, 0); (0, 0, 0); (1, 0, 0)]%float [(0, 1, 2)] None.

(** The two values of the C library's [acos] that the smoothing of
    [coincident_triangle] asks for: [acos(NaN) = NaN] and [acos(1) = 0]. *)
Definition acos_special (x : float) : float :=
  if PrimFloat.is_nan x then nan
  else if PrimFloat.eqb x 1 then 0%float
  else nan.

Definition positions_or_nil (r : result (list (vec Float64)))
  : list (vec Float64) :=
  match r with
  | Ok vs => vs
  | Raise _ => []
  end.

(** The positions after one, two and three iterations. *)
Definition coincident_pass1 : list (vec Float64) :=
  Eval vm_compute in
    positions_or_nil
      (smoothing_passes (A := Float64) acos_special 1
         (vertices coincident_triangle) (faces coincident_triangle)).

Definition coincident_pass2 : list (vec Float64) :=
  Eval vm_compute in
    positions_or_nil
      (smoothing_passes (A := Float64) acos_special 2
         (vertices coincident_triangle) (faces coincident_triangle)).

Definition coincident_pass3 : list (vec Float64) :=
  Eval vm_compute in
    positions_or_nil
      (smoothing_passes (A := Float64) acos_special 3
         (vertices coincident_triangle) (faces coincident_triangle)).

(** A float that is a zero of either sign or NaN. *)
Definition zero_or_nan (x : float) : Prop :=
  x = 0%float \/ x = neg_zero \/ x = nan.

(** A triangle whose face names a vertex the mesh does not have. *)
Definition dangling_triangle (A : Scalar) : Mesh A :=
  Trimesh (A := A)
    [(of_Z A 0, of_Z A 0, of_Z A 0); (of_Z A 1, of_Z A 0, of_Z A 0)]
    [(0, 1, 5)] None.

(** ** Bounding boxes in exact arithmetic *)

(** [u <= v] in every coordinate. *)
Definition vle (u v : vec RealA) : Prop :=
  let '(ux, uy, uz) := u in
  let '(vx, vy, vz) := v in
  (ux <= vx /\ uy <= vy /\ uz <= vz)%R.

(** The map that [normalize_mesh] applies to every vertex. *)
Definition recenter (center : vec RealA) (k : R) (v : vec RealA) : vec RealA :=
  vdiv (vsub v center) k.

(** A triangle with extent 4, 2 and 0 along the axes. *)
Definition flat_triangle : Mesh RealA :=
  Trimesh (A := RealA)
    [(1, 1, 1); (5, 1, 1); (1, 3, 1)]%R [(0, 1, 2)] None.

Definition flat_lo : vec RealA := (1, 1, 1)%R.
Definition flat_hi : vec RealA := (5, 3, 1)%R.

(** The unit cube's bounds on three vertices. *)
Definition cube_corner_triangle : Mesh RealA :=
  Trimesh (A := RealA)
    [(-1, -1, -1); (1, 1, 1); (1, -1, 1)]%R [(0, 1, 2)] None.

(** ** Camera *)

Definition cube_lo : vec RealA := (-1, -1, -1)%R.
Definition cube_hi : vec RealA := (1, 1, 1)%R.

(** Three coincident vertices at [2^60] on every axis: a box of extent
    zero, far from the origin. *)
Definition far_point : vec Float64 := (0x1p+60, 0x1p+60, 0x1p+60)%float.

Definition far_mesh : Mesh Float64 :=
  Trimesh (A := Float64) [far_point; far_point; far_point] [(0, 1, 2)] None.

(** * The rest of the processor

    The functions of [MeshProcessor] that [process_mesh] does not call,
    and what is needed to state more about those it calls. *)

(** [v] lies in the axis-aligned box from [lo] to [hi]. *)
Definition inside (lo hi v : vec RealA) : Prop := vle lo v /\ vle v hi.

(** [u < v] in every coordinate. *)
Definition vlt (u v : vec RealA) : Prop :=
  let '(ux, uy, uz) := u in
  let '(vx, vy, vz) := v in
  (ux < vx /\ uy < vy /\ uz < vz)%R.

(** Stand-ins for the repair operations of [trimesh] on a mesh that needs
    no repair: each returns its argument, and [split] finds one
    component. *)
Definition no_repair {A : Scalar} (mesh : Mesh A) : result (Mesh A) := Ok mesh.

Definition one_component {A : Scalar} (mesh : Mesh A)
  : result (list (Mesh A)) := Ok [mesh].

(** ** [MeshProcessor.quantize_to_palette] *)

Section Quantizer.

Context {A : Scalar}.

(** [x >= y] on float64 scalars: false when either is NaN. *)
Definition fgeb (x y : num A) : bool := fltb A y x || feqb A y x.

(** [np.isnan] *)
Definition np_isnan (x : num A) : bool := negb (feqb A x x).

(** [np.argmin] on a one-dimensional array, as numpy's loop computes it:
    it keeps the least value [mp] seen and its index, takes a new value
    when [not (x >= mp)], and stops at the first NaN; the empty array
    raises [ValueError]. *)
Fixpoint argmin_scan (mp : num A) (min_ind i : nat) (ip : list (num A)) : nat :=
  match ip with
  | [] => min_ind
  | x :: ip' =>
      if negb (fgeb x mp) then
        if np_isnan x then i else argmin_scan x i (S i) ip'
      else argmin_scan mp min_ind (S i) ip'
  end.

Definition np_argmin (a : list (num A)) : result nat :=
  match a with
  | [] => Raise ValueError
  | x :: a' => if np_isnan x then Ok 0 else Ok (argmin_scan x 0 1 a')
  end.

(** A row of the palette, of dtype uint8, in arithmetic with a float row. *)
Definition to_float (c : rgb) : vec A :=
  let '(r, g, b) := c in (of_Z A r, of_Z A g, of_Z A b).

(** [np.linalg.norm(self.color_palette - color, axis=1)], for [color] a
    row of floats. *)
Definition palette_distances (color_palette : list rgb) (color : vec A)
  : list (num A) :=
  map (fun p => norm (vsub (to_float p) color)) color_palette.

(** Lines 245-256.  The result is an array of palette rows, or, when the
    loop raises, the array [colors] that was passed in. *)
Definition quantize_to_palette (color_palette : list rgb)
    (colors : list (vec A)) : list rgb + list (vec A) :=
  match
    for_each (fun color =>
                let distances := palette_distances color_palette color in
                let* closest_idx := np_argmin distances in
                getitem color_palette closest_idx) colors
  with
  | Ok quantized_colors => inl quantized_colors
  | Raise _ => inr colors
  end.

End Quantizer.

(** The distance of a palette row to a color, in exact arithmetic. *)
Definition color_distance (p : rgb) (c : vec RealA) : R :=
  norm (A := RealA) (vsub (to_float (A := RealA) p) c).

(** [q] is the first row of the palette at the least distance from [c]. *)
Definition first_nearest (color_palette : list rgb) (c : vec RealA) (q : rgb)
  : Prop :=
  exists j,
    color_palette !! j = Some q /\
    (forall p, In p color_palette ->
               (color_distance q c <= color_distance p c)%R) /\
    (forall k p, k < j -> color_palette !! k = Some p ->
                 (color_distance q c < color_distance p c)%R).

(** ** [MeshProcessor.generate_positional_colors] *)

(** [a % b] on Python integers: [ZeroDivisionError] (here [None]) when
    [b] is zero; otherwise the result has the sign of [b]. *)
Definition py_mod (a b : Z) : option Z :=
  if (b =? 0)%Z then None else Some (a mod b)%Z.

(** [l[i]] with a Python integer: a negative index counts from the end,
    and an index out of range raises [IndexError] (here [None]). *)
Definition getitem_int {T : Type} (l : list T) (i : Z) : option T :=
  let n := Z.of_nat (length l) in
  if (0 <=? i)%Z then l !! Z.to_nat i
  else if (- n <=? i)%Z then l !! Z.to_nat (n + i)
  else None.

Section PositionalColors.

Context {A : Scalar}.

(** [hash(tuple(vertex.round(decimals=2)))] at the iteration of index
    [i]: Python's hash of the rounded position.  (It is a function of the
    position alone unless a coordinate is NaN.) *)
Variable hash_rounded : nat -> vec A -> Z.

(** Lines 233-235, the body of the loop. *)
Definition positional_color (color_palette : list rgb) (i : nat)
    (vertex : vec A) : option rgb :=
  match py_mod (hash_rounded i vertex) (Z.of_nat (length color_palette)) with
  | Some hash_val => getitem_int color_palette hash_val
  | None => None
  end.

Fixpoint positional_loop (color_palette : list rgb) (i : nat)
    (vertices : list (vec A)) : option (list rgb) :=
  match vertices with
  | [] => Some []
  | vertex :: rest =>
      match positional_color color_palette i vertex with
      | Some c =>
          match positional_loop color_palette (S i) rest with
          | Some colors => Some (c :: colors)
          | None => None
          end
      | None => None
      end
  end.

(** Lines 231-241.  The result is an array of palette rows, or, when the
    loop raises, [np.full((len(vertices), 3), 0.5)]. *)
Definition generate_positional_colors (color_palette : list rgb)
    (vertices : list (vec A)) : list rgb + list (vec A) :=
  match positional_loop color_palette 0 vertices with
  | Some colors => inl colors
  | None =>
      inr (repeat (dec A 5 1, dec A 5 1, dec A 5 1) (length vertices))
  end.

End PositionalColors.

(** ** [MeshProcessor.apply_lighting_enhancement] *)

(** The product of an array of shape (n, 3) and one of shape (m, 1), with
    numpy's broadcasting: row by row when [n = m], one row against all
    when [n] or [m] is 1, and [ValueError] otherwise. *)
Definition broadcast_rows {T U V : Type} (f : T -> U -> V)
    (xs : list T) (ys : list U) : result (list V) :=
  if length xs =? length ys then Ok (zip_with f xs ys)
  else
    match xs, ys with
    | [x], _ => Ok (map (f x) ys)
    | _, [y] => Ok (map (fun x => f x y) xs)
    | _, _ => Raise ValueError
    end.

Section Lighting.

Context {A : Scalar}.

(** [mesh.vertex_normals] and the setter of [mesh.visual.vertex_colors],
    both of [trimesh]. *)
Variable vertex_normals : Mesh A -> result (list (vec A)).
Variable set_vertex_colors : Mesh A -> list rgb -> result (Mesh A).

(** Lines 265-268: the dot product with the light direction (0, 0, 1),
    clipped to [0.3, 1.0]. *)
Definition lighting_of (normal : vec A) : num A :=
  clip (dot normal (of_Z A 0, of_Z A 0, of_Z A 1)) (dec A 3 1) (of_Z A 1).

(** Lines 270-274 on one channel [c] of a vertex with lighting [l]:
    [c / 255.0], times [l], clipped to [0, 1], times 255, cast to uint8. *)
Definition lit_channel (c : Z) (l : num A) : Z :=
  uint8 (to_int A (clip (of_Z A c / of_Z A 255 * l)%num (of_Z A 0) (of_Z A 1)
                   * of_Z A 255)%num).

Definition lit_row (color : rgba) (l : num A) : rgb :=
  let '(r, g, b, _) := color in
  (lit_channel r l, lit_channel g l, lit_channel b l).

(** The array that line 274 assigns. *)
Definition lit_vertex_colors (normals : list (vec A)) (colors : list rgba)
  : result (list rgb) :=
  broadcast_rows lit_row colors (map lighting_of normals).

(** Lines 260-281 *)
Definition apply_lighting_enhancement (mesh : Mesh A) : result (Mesh A) :=
  try_except
    (match visual_vertex_colors mesh with
     | None => Ok mesh
     | Some colors =>
         let* normals := vertex_normals mesh in
         let* lit := lit_vertex_colors normals colors in
         set_vertex_colors mesh lit
     end)
    (fun _ => Ok mesh).

End Lighting.

(** Each channel of [lit] is at most the channel of [color] and at least
    three tenths of it, rounded down. *)
Definition dimmed (color : rgba) (lit : rgb) : Prop :=
  let '(r, g, b, _) := color in
  let '(r', g', b') := lit in
  (3 * r / 10 <= r' <= r /\ 3 * g / 10 <= g' <= g /\
   3 * b / 10 <= b' <= b)%Z.

Definition byte_color (color : rgba) : Prop :=
  let '(r, g, b, a) := color in byte r /\ byte g /\ byte b /\ byte a.

(** Checked by computation in binary64: at full light the channel value
    [c] comes back. *)
Definition full_light_checked (c : Z) : Prop :=
  lit_channel (A := Float64) c (of_Z Float64 1) = c.

#[local] Instance full_light_checked_dec (c : Z) :
  Decision (full_light_checked c).
Proof. unfold full_light_checked. apply _. Defined.

(** A triangle with white and grey vertex colors. *)
Definition shaded_triangle : Mesh RealA :=
  Trimesh (A := RealA)
    [(0, 0, 0); (1, 0, 0); (0, 1, 0)]%R [(0, 1, 2)]
    (Some [(255, 255, 255, 255); (128, 128, 128, 255); (10, 20, 30, 7)]%Z).

(** * The exporter: [ModelExporter] (src/src/exporter.py)

    A Python [str] is the list of its code points, each a number. *)

Definition str : Type := list N.

(** A string literal. *)
Definition lit (s : string) : str :=
  map Stdlib.Strings.Ascii.N_of_ascii (String.list_ascii_of_string s).

(** [sep.join(words)] *)
Fixpoint str_join (sep : str) (words : list str) : str :=
  match words with
  | [] => []
  | [w] => w
  | w :: ws => w ++ sep ++ str_join sep ws
  end.

(** The class [[a-z0-9]] of the regular expression of line 78: the code
    points 97 to 122 and 48 to 57. *)
Definition is_safe_char (c : N) : bool :=
  (((97 <=? c) && (c <=? 122)) || ((48 <=? c) && (c <=? 57)))%N.

(** [re.sub(r'[^a-z0-9]', '', word)] *)
Definition re_sub_unsafe (word : str) : str := List.filter is_safe_char word.

(** The loop of lines 77-80: the cleaned words that are not empty. *)
Fixpoint collect_safe_words (words : list str) (safe_words : list str)
  : list str :=
  match words with
  | [] => safe_words
  | word :: words' =>
      let clean_word := re_sub_unsafe word in
      match clean_word with
      | [] => collect_safe_words words' safe_words
      | _ => collect_safe_words words' (safe_words ++ [clean_word])
      end
  end.

Section SafeFilename.

(** [str.lower], the lower-case mapping of Unicode: it is not a map of
    single code points (it may change the length of the string).  And the
    code points that [str.split()] splits at: the white space of
    Unicode. *)
Variable str_lower : str -> str.
Variable is_whitespace : N -> bool.

(** [s.split()]: the maximal runs of characters other than whitespace;
    [word] is the run being read. *)
Fixpoint split_from (word : str) (s : str) : list str :=
  match s with
  | [] => match word with [] => [] | _ => [word] end
  | c :: s' =>
      if is_whitespace c then
        match word with
        | [] => split_from [] s'
        | _ => word :: split_from [] s'
        end
      else split_from (word ++ [c]) s'
  end.

Definition str_split (s : str) : list str := split_from [] s.

(** [ModelExporter.make_safe_filename], lines 70-83 *)
Definition make_safe_filename (prompt : str) : str :=
  let words := firstn 3 (str_split (str_lower prompt)) in
  let safe_words := collect_safe_words words [] in
  let result :=
    match safe_words with
    | [] => lit "model"
    | _ => str_join (lit "_") safe_words
    end in
  firstn 20 result.

End SafeFilename.

(** A character of a file name that [make_safe_filename] can give: of
    a-z or 0-9, or the underscore. *)
Definition is_name_char (c : N) : bool :=
  is_safe_char c || (c =? 95)%N.

(** Stand-ins for the Unicode tables in closed examples, right on ASCII
    text: the letters A-Z move up by 32, and the white space is that of
    ASCII. *)
Definition ascii_lower (s : str) : str :=
  map (fun c : N => if ((65 <=? c) && (c <=? 90))%N then (c + 32)%N else c) s.

Definition ascii_whitespace (c : N) : bool :=
  (((9 <=? c) && (c <=? 13)) || ((28 <=? c) && (c <=? 32)))%N.

(** ** Formatted values and dictionaries *)

(** [a == b] on strings *)
Fixpoint str_eqb (a b : str) : bool :=
  match a, b with
  | [], [] => true
  | x :: a', y :: b' => (x =? y)%N && str_eqb a' b'
  | _, _ => false
  end.

(** [s.endswith(suffix)] *)
Definition str_endswith (s suffix : str) : bool :=
  (length suffix <=? length s)
  && str_eqb (skipn (length s - length suffix) s) suffix.

(** [str(z)] of an integer: its decimal digits, after "-" when negative. *)
Definition str_of_int (z : Z) : str :=
  lit (DecimalString.NilZero.string_of_int (Z.to_int z)).

(** The values of the [exports] dict: strings and integers. *)
Inductive value : Type :=
| VStr (s : str)
| VInt (z : Z).

(** A value inside an f-string *)
Definition format_value (v : value) : str :=
  match v with
  | VStr s => s
  | VInt z => str_of_int z
  end.

(** A [dict] with string keys: its items in insertion order. *)
Definition dict : Type := list (str * value).

(** [d.get(key)] and [key in d] *)
Fixpoint dict_get (d : dict) (key : str) : option value :=
  match d with
  | [] => None
  | (k, v) :: d' => if str_eqb k key then Some v else dict_get d' key
  end.

Definition dict_has (d : dict) (key : str) : bool :=
  match dict_get d key with
  | Some _ => true
  | None => false
  end.

(** [d[key] = v]: an existing key keeps its place, a new one goes last. *)
Fixpoint dict_set (d : dict) (key : str) (v : value) : dict :=
  match d with
  | [] => [(key, v)]
  | (k, v0) :: d' =>
      if str_eqb k key then (k, v) :: d' else (k, v0) :: dict_set d' key v
  end.

Definition newline : str := [10%N].

(** ** [ModelExporter]: the files and the [exports] dict *)

Section Exporter.

Context {A : Scalar}.

(** [str.lower] and the white space of [str.split()], as for
    [make_safe_filename]. *)
Variable str_lower : str -> str.
Variable is_whitespace : N -> bool.

(** [Path(dir) / name], as the string of the path, and [str.upper]. *)
Variable path_join : str -> str -> str.
Variable str_upper : str -> str.

(** [mesh.export(file_type=...)] of [trimesh], and the rendering of the
    thumbnail: [mesh.scene()] with the camera transform set, then
    [scene.save_image(resolution=[512, 512], visible=True)]. *)
Variable mesh_export : Mesh A -> str -> result str.
Variable save_image : Mesh A -> mat4 A -> result str.

(** Whether [open(path, 'w')] succeeds. *)
Variable writable : str -> bool.

(** The writes that the exporter has made, in order: path and content.
    (A file is what was last written at its path.) *)
Definition FS : Type := list (str * str).

(** Lines 15-16 *)
Definition output_dir : str := lit "outputs".
Definition thumbnail_dir : str := path_join output_dir (lit "thumbnails").

(** [with open(path, mode) as f: f.write(data)] *)
Definition write_file (path data : str) (fs : FS) : bool * FS :=
  if writable path then (true, fs ++ [(path, data)]) else (false, fs).

(** [export_glb], [export_obj], [export_ply] and [export_stl], lines
    85-147, which differ in the file type only: the path, or [None] when
    the export or the writing raises. *)
Definition export_format (file_type : str) (mesh : Mesh A)
    (filename_base : str) (fs : FS) : option str * FS :=
  let path := path_join output_dir (filename_base ++ lit "." ++ file_type) in
  match mesh_export mesh file_type with
  | Ok data =>
      let '(written, fs') := write_file path data fs in
      (if written then Some path else None, fs')
  | Raise _ => (None, fs)
  end.

Definition export_glb := export_format (lit "glb").
Definition export_obj := export_format (lit "obj").
Definition export_ply := export_format (lit "ply").
Definition export_stl := export_format (lit "stl").

(** Lines 149-170 *)
Definition generate_thumbnail (mesh : Mesh A) (filename_base : str) (fs : FS)
  : option str * FS :=
  let thumbnail_path :=
    path_join thumbnail_dir (filename_base ++ lit "_thumb.png") in
  match (let* transform := get_camera_transform mesh in
         save_image mesh transform) with
  | Ok png_data =>
      let '(written, fs') := write_file thumbnail_path png_data fs in
      (if written then Some thumbnail_path else None, fs')
  | Raise _ => (None, fs)
  end.

(** [export_data.get(key, default)] inside an f-string *)
Definition get_text (export_data : dict) (key : str) (default : str) : str :=
  match dict_get export_data key with
  | Some v => format_value v
  | None => default
  end.

(** Lines 221-223: one line for each key that ends with a format
    suffix. *)
Definition is_format_key (key : str) : bool :=
  str_endswith key (lit ".glb") || str_endswith key (lit ".obj")
  || str_endswith key (lit ".ply") || str_endswith key (lit ".stl").

Definition format_lines (export_data : dict) : str :=
  flat_map (fun item : str * value =>
              let '(key, v) := item in
              if is_format_key key then
                lit "  " ++ str_upper key ++ lit ": " ++ format_value v
                ++ newline
              else [])
           export_data.

(** Lines 225-226 *)
Definition thumbnail_line (export_data : dict) : str :=
  match dict_get export_data (lit "thumbnail") with
  | Some v => lit "  Thumbnail: " ++ format_value v ++ newline
  | None => []
  end.

(** Lines 213-219 *)
Definition info_header (export_data : dict) (filename_base : str) : str :=
  lit "VoxelForge Model Information" ++ newline
  ++ repeat 61%N 40 ++ newline ++ newline
  ++ lit "Prompt: " ++ get_text export_data (lit "prompt") (lit "N/A")
  ++ newline
  ++ lit "Resolution: " ++ get_text export_data (lit "resolution") (lit "N/A")
  ++ newline
  ++ lit "Generated: " ++ get_text export_data (lit "timestamp") (lit "N/A")
  ++ newline
  ++ lit "Base filename: " ++ filename_base ++ newline ++ newline
  ++ lit "Available formats:" ++ newline.

(** [export_info], lines 206-233: the text that is written, and the
    function. *)
Definition info_text (export_data : dict) : str :=
  let filename_base :=
    get_text export_data (lit "filename_base") (lit "model") in
  info_header export_data filename_base
  ++ format_lines export_data ++ thumbnail_line export_data.

Definition export_info (export_data : dict) (fs : FS) : option str * FS :=
  let filename_base :=
    get_text export_data (lit "filename_base") (lit "model") in
  let info_path := path_join output_dir (filename_base ++ lit "_info.txt") in
  let '(written, fs') := write_file info_path (info_text export_data) fs in
  (if written then Some info_path else None, fs').

(** [if path: exports[key] = str(path)] *)
Definition add_export (exports : dict) (key : str) (path : option str)
  : dict :=
  match path with
  | Some p => dict_set exports key (VStr p)
  | None => exports
  end.

(** [export_model], lines 22-68.  [timestamp] is [int(time.time())]. *)
Definition export_model (mesh : Mesh A) (prompt : str) (resolution : Z)
    (timestamp : Z) (fs : FS) : dict * FS :=
  let safe_prompt := make_safe_filename str_lower is_whitespace prompt in
  let filename_base :=
    safe_prompt ++ lit "_" ++ str_of_int resolution ++ lit "_"
    ++ str_of_int timestamp in
  let exports : dict :=
    [(lit "filename_base", VStr filename_base);
     (lit "prompt", VStr prompt);
     (lit "resolution", VInt resolution);
     (lit "timestamp", VInt timestamp)] in
  let '(glb_path, fs) := export_glb mesh filename_base fs in
  let exports := add_export exports (lit "glb") glb_path in
  let '(obj_path, fs) := export_obj mesh filename_base fs in
  let exports := add_export exports (lit "obj") obj_path in
  let '(ply_path, fs) := export_ply mesh filename_base fs in
  let exports := add_export exports (lit "ply") ply_path in
  let '(stl_path, fs) := export_stl mesh filename_base fs in
  let exports := add_export exports (lit "stl") stl_path in
  let '(thumbnail_path, fs) := generate_thumbnail mesh filename_base fs in
  let exports := add_export exports (lit "thumbnail") thumbnail_path in
  let '(info_path, fs) := export_info exports fs in
  let exports := add_export exports (lit "info") info_path in
  (exports, fs).

End Exporter.

(** A character of the base name of the exported files. *)
Definition is_base_char (c : N) : bool :=
  is_name_char c || (c =? 45)%N.

(** The names of the files that one export can write, after the base
    name. *)
Definition export_suffixes : list str :=
  [lit ".glb"; lit ".obj"; lit ".ply"; lit ".stl"; lit "_thumb.png";
   lit "_info.txt"].

(** The text of the info file of an export that lists no format: the
    header, and the thumbnail line when there is a thumbnail. *)
Definition plain_info (prompt : str) (resolution timestamp : Z)
    (filename_base : str) (thumbnail : option str) : str :=
  lit "VoxelForge Model Information" ++ newline
  ++ repeat 61%N 40 ++ newline ++ newline
  ++ lit "Prompt: " ++ prompt ++ newline
  ++ lit "Resolution: " ++ str_of_int resolution ++ newline
  ++ lit "Generated: " ++ str_of_int timestamp ++ newline
  ++ lit "Base filename: " ++ filename_base ++ newline ++ newline
  ++ lit "Available formats:" ++ newline
  ++ match thumbnail with
     | Some path => lit "  Thumbnail: " ++ path ++ newline
     | None => []
     end.

Section ExportNames.

Variable str_lower : str -> str.
Variable is_whitespace : N -> bool.

(** The base name of the files of one export. *)
Definition export_base (prompt : str) (resolution timestamp : Z) : str :=
  make_safe_filename str_lower is_whitespace prompt ++ lit "_"
  ++ str_of_int resolution ++ lit "_" ++ str_of_int timestamp.

(** A file of the export with base name [base]: a path made of the
    output directory or its thumbnail directory, the base name and one
    of the six suffixes. *)
Definition exported_file (path_join : str -> str -> str) (base : str)
    (file : str * str) : Prop :=
  exists dir suffix,
    fst file = path_join dir (base ++ suffix) /\
    (dir = output_dir \/ dir = thumbnail_dir path_join) /\
    In suffix export_suffixes.

(** The dict before [export_info] is called, from the paths that the
    five steps before it returned. *)
Definition exports_before_info (prompt : str) (resolution timestamp : Z)
    (glb obj ply stl thumbnail : option str) : dict :=
  add_export
    (add_export
       (add_export
          (add_export
             (add_export
                [(lit "filename_base",
                  VStr (export_base prompt resolution timestamp));
                 (lit "prompt", VStr prompt);
                 (lit "resolution", VInt resolution);
                 (lit "timestamp", VInt timestamp)]
                (lit "glb") glb)
             (lit "obj") obj)
          (lit "ply") ply)
       (lit "stl") stl)
    (lit "thumbnail") thumbnail.

End ExportNames.

(** Stand-ins for the libraries in closed examples: an export that gives
    the file type back as the data, a renderer that fails, and paths
    made with a slash. *)
Definition slash_join (dir name : str) : str := dir ++ lit "/" ++ name.

Definition echo_export {A : Scalar} (mesh : Mesh A) (file_type : str)
  : result str := Ok file_type.

Definition no_image {A : Scalar} (mesh : Mesh A) (transform : mat4 A)
  : result str := Raise LibraryError.

(** One export of a triangle for the prompt "Red Car", with every file
    writable and no renderer. *)
Definition sample_export : dict * FS :=
  export_model (A := RealA) ascii_lower ascii_whitespace slash_join
               (fun s => s) echo_export no_image
               (fun _ => true) (bare_triangle RealA) (lit "Red Car") 32
               1700000000 [].

(** One step of the export: it returns no path and writes nothing, or it
    returns a path and writes one file at that path. *)
Definition export_step (fs : FS) (outcome : option str * FS) : Prop :=
  (fst outcome = None /\ snd outcome = fs) \/
  (exists path data,
     fst outcome = Some path /\ snd outcome = fs ++ [(path, data)]).

(** The keys of the result that hold paths. *)
Definition path_keys : list str :=
  [lit "glb"; lit "obj"; lit "ply"; lit "stl"; lit "thumbnail"; lit "info"].

(** * The whole run: [VoxelForge.generate_model] (src/main.py) *)

Section VoxelForge.

Context {A : Scalar}.

Variable arccos : num A -> num A.
Variable trimesh_Trimesh :
  list (vec A) -> list face -> option (list rgba) -> result (Mesh A).
Variable RNG : Type.
Variable np_random_choice : nat -> nat -> RNG -> result (list nat) * RNG.
Variable remove_degenerate_faces : Mesh A -> result (Mesh A).
Variable remove_unreferenced_vertices : Mesh A -> result (Mesh A).
Variable split : Mesh A -> result (list (Mesh A)).
Variable fix_normals : Mesh A -> result (Mesh A).
Variable merge_vertices : Mesh A -> result (Mesh A).
Variable str_lower : str -> str.
Variable is_whitespace : N -> bool.
Variable path_join : str -> str -> str.
Variable str_upper : str -> str.
Variable mesh_export : Mesh A -> str -> result str.
Variable save_image : Mesh A -> mat4 A -> result str.
Variable writable : str -> bool.

(** [ShapEGenerator.generate_from_text(prompt, steps, guidance_scale)]
    (src/src/generator.py): a mesh or [None]; it draws from numpy's
    random generator. *)
Variable generate_from_text :
  str -> Z -> num A -> RNG -> option (Mesh A) * RNG.

(** Lines 42-47 *)
Definition quality_settings (quality : str) : Z * num A :=
  if str_eqb quality (lit "high") then (128%Z, of_Z A 25)
  else (64%Z, of_Z A 15).

(** Lines 35-77.  [color_palette] is the palette of the processor,
    [timestamp] the reading of the clock in [export_model]; what
    [print_results] prints is not part of the state. *)
Definition generate_model (color_palette : list rgb) (prompt : str)
    (resolution : Z) (quality : str) (timestamp : Z) (g : RNG) (fs : FS)
  : bool * RNG * FS :=
  let '(steps, guidance) := quality_settings quality in
  let '(mesh, g) := generate_from_text prompt steps guidance g in
  match mesh with
  | None => (false, g, fs)
  | Some mesh =>
      let '(processed_mesh, g) :=
        process_mesh arccos trimesh_Trimesh RNG np_random_choice
                     remove_degenerate_faces remove_unreferenced_vertices
                     split fix_normals merge_vertices color_palette mesh g in
      match processed_mesh with
      | Ok (Some processed_mesh) =>
          let '(export_result, fs) :=
            export_model str_lower is_whitespace path_join str_upper
                         mesh_export save_image writable processed_mesh
                         prompt resolution timestamp fs in
          if dict_has export_result (lit "error") then (false, g, fs)
          else (true, g, fs)
      | Ok None => (false, g, fs)
      | Raise _ => (false, g, fs)
      end
  end.

End VoxelForge.
(** * Properties *)

(** ** Exceptions *)

Lemma try_except_total {T : Type} (body : result T) (handler : exn -> result T) :
  (forall e, exists v, handler e = Ok v) ->
  exists v, try_except body handler = Ok v.
Proof.
  intros Hh. destruct body as [v|e]; simpl; eauto.
Qed.

Lemma try_except_raises {T : Type} (body : result T) (handler : exn -> result T) e :
  body = Raise e -> try_except body handler = handler e.
Proof. intros ->. reflexivity. Qed.

(** ** The pipeline *)

Section PipelineFacts.

Context {A : Scalar}.
Variable arccos : num A -> num A.
Variable trimesh_Trimesh :
  list (vec A) -> list face -> option (list rgba) -> result (Mesh A).
Variable RNG : Type.
Variable np_random_choice : nat -> nat -> RNG -> result (list nat) * RNG.
Variable remove_degenerate_faces : Mesh A -> result (Mesh A).
Variable remove_unreferenced_vertices : Mesh A -> result (Mesh A).
Variable split : Mesh A -> result (list (Mesh A)).
Variable fix_normals : Mesh A -> result (Mesh A).
Variable merge_vertices : Mesh A -> result (Mesh A).

Lemma normalize_mesh_total (mesh : Mesh A) :
  exists m, normalize_mesh mesh = Ok m.
Proof. apply try_except_total; eauto. Qed.

Lemma enhance_sharpness_total (mesh : Mesh A) :
  exists m, enhance_sharpness arccos trimesh_Trimesh mesh = Ok m.
Proof. apply try_except_total; eauto. Qed.

Lemma enhance_colors_total (color_palette : list rgb) (mesh : Mesh A) (g : RNG) :
  exists m, fst (enhance_colors RNG np_random_choice color_palette mesh g) = Ok m.
Proof.
  unfold enhance_colors. destruct (visual_vertex_colors mesh).
  - simpl. eauto.
  - destruct (np_random_choice _ _ g) as [drawn g']. simpl.
    apply try_except_total; eauto.
Qed.

Lemma clean_steps_some (mesh : Mesh A) :
  clean_steps remove_degenerate_faces remove_unreferenced_vertices split
              fix_normals merge_vertices mesh <> Ok None.
Proof.
  unfold clean_steps.
  destruct (remove_degenerate_faces mesh) as [m1|]; simpl; [|discriminate].
  destruct (remove_unreferenced_vertices m1) as [m2|]; simpl; [|discriminate].
  destruct (split m2) as [cs|]; simpl; [|discriminate].
  destruct (fix_normals _) as [m3|]; simpl; [|discriminate].
  destruct (merge_vertices m3); simpl; discriminate.
Qed.

Lemma clean_none_iff (mesh : Mesh A) :
  clean remove_degenerate_faces remove_unreferenced_vertices split
        fix_normals merge_vertices mesh = Ok None <->
  cleaning_fails remove_degenerate_faces remove_unreferenced_vertices split
                 fix_normals merge_vertices mesh.
Proof.
  unfold clean, clean_mesh, cleaning_fails, raises.
  pose proof (clean_steps_some mesh) as Hs.
  destruct (clean_steps _ _ _ _ _ mesh) as [[m|]|e]; simpl.
  - split; [discriminate | intros [e He]; discriminate].
  - congruence.
  - split; eauto.
Qed.

(** C1.  [process_mesh] never raises; it returns "no mesh" exactly when
    the MeshCleaner stage fails (one of its steps raises); each of
    Normalize, Enhance Sharpness and Enhance Colors returns a mesh on
    every input; and a mesh that survives cleaning goes through
    Normalize, then Enhance Sharpness, then Enhance Colors, the result
    of the last being the result of the pipeline. *)
Theorem process_mesh_fails_only_in_cleaning
    (color_palette : list rgb) (mesh : Mesh A) (g : RNG) :
  let run := process_mesh arccos trimesh_Trimesh RNG np_random_choice
               remove_degenerate_faces remove_unreferenced_vertices split
               fix_normals merge_vertices in
  let stage_clean := clean remove_degenerate_faces remove_unreferenced_vertices
                       split fix_normals merge_vertices in
  (fst (run color_palette mesh g) = Ok None <->
   cleaning_fails remove_degenerate_faces remove_unreferenced_vertices split
                  fix_normals merge_vertices mesh) /\
  (forall m : Mesh A,
     (exists m', normalize_mesh m = Ok m') /\
     (exists m', enhance_sharpness arccos trimesh_Trimesh m = Ok m') /\
     (forall g0, exists m',
        fst (enhance_colors RNG np_random_choice color_palette m g0) = Ok m')) /\
  (stage_clean mesh = Ok None \/
   exists cleaned normalized sharpened final,
     stage_clean mesh = Ok (Some cleaned) /\
     normalize_mesh cleaned = Ok normalized /\
     enhance_sharpness arccos trimesh_Trimesh normalized = Ok sharpened /\
     fst (enhance_colors RNG np_random_choice color_palette sharpened g)
       = Ok final /\
     fst (run color_palette mesh g) = Ok (Some final)).
Proof.
  intros run stage_clean.
  assert (Hlater :
    stage_clean mesh = Ok None \/
    exists cleaned normalized sharpened final,
      stage_clean mesh = Ok (Some cleaned) /\
      normalize_mesh cleaned = Ok normalized /\
      enhance_sharpness arccos trimesh_Trimesh normalized = Ok sharpened /\
      fst (enhance_colors RNG np_random_choice color_palette sharpened g)
        = Ok final /\
      fst (run color_palette mesh g) = Ok (Some final)).
  { subst run stage_clean. unfold process_mesh.
    destruct (clean _ _ _ _ _ mesh) as [[cleaned|]|e] eqn:Hc.
    - right.
      destruct (normalize_mesh_total cleaned) as [n Hn].
      destruct (enhance_sharpness_total n) as [s Hs].
      destruct (enhance_colors_total color_palette s g) as [f Hf].
      exists cleaned, n, s, f. repeat split; auto.
      unfold later_stages. rewrite Hn, Hs.
      destruct (enhance_colors _ _ _ s g) as [r g'].
      simpl in Hf. subst r. reflexivity.
    - left; reflexivity.
    - exfalso. unfold clean, clean_mesh in Hc.
      destruct (clean_steps _ _ _ _ _ mesh) as [[?|]|?]; discriminate. }
  split; [|split; [|exact Hlater]].
  - rewrite <- clean_none_iff. fold stage_clean.
    destruct Hlater as [Hn | (c & n & s & f & Hc & _ & _ & _ & Hr)].
    + subst run stage_clean. unfold process_mesh. rewrite Hn. tauto.
    + rewrite Hr, Hc. split; discriminate.
  - intros m. split; [apply normalize_mesh_total|].
    split; [apply enhance_sharpness_total|].
    intros g0. apply enhance_colors_total.
Qed.

End PipelineFacts.

(** ** Loops that break when the palette is full *)

Section NestedLoopFacts.

Context {X Y W C : Type}.
Variable color : X -> Y -> W -> C.
Variable size : nat.

Lemma firstn_full (l r : list C) :
  size <= length (firstn size l) -> firstn size (l ++ r) = firstn size l.
Proof.
  rewrite length_firstn. intros H.
  rewrite firstn_app.
  replace (size - length l) with 0 by lia.
  simpl. apply app_nil_r.
Qed.

Lemma firstn_short (l : list C) :
  length (firstn size l) < size -> firstn size l = l.
Proof.
  rewrite length_firstn. intros H. apply firstn_all2. lia.
Qed.

Lemma inner_loop_firstn x y ws palette :
  length palette < size ->
  inner_loop color size x y ws palette
  = firstn size (palette ++ map (color x y) ws).
Proof.
  revert palette. induction ws as [|w ws IH]; intros palette Hlen; simpl.
  - rewrite app_nil_r. symmetry. apply firstn_all2. lia.
  - replace (palette ++ color x y w :: map (color x y) ws)
      with ((palette ++ [color x y w]) ++ map (color x y) ws)
      by (rewrite <- app_assoc; reflexivity).
    destruct (size <=? length (palette ++ [color x y w])) eqn:Hfull.
    + apply Nat.leb_le in Hfull.
      rewrite length_app in Hfull. simpl in Hfull.
      rewrite firstn_app.
      replace (size - length (palette ++ [color x y w])) with 0
        by (rewrite length_app; simpl; lia).
      simpl. rewrite app_nil_r. symmetry. apply firstn_all2.
      rewrite length_app. simpl. lia.
    + apply Nat.leb_gt in Hfull. apply IH. exact Hfull.
  Qed.

Lemma middle_loop_firstn x ys ws palette :
  length palette < size ->
  middle_loop color size x ys ws palette
  = firstn size (palette ++ flat_map (fun y => map (color x y) ws) ys).
Proof.
  revert palette. induction ys as [|y ys IH]; intros palette Hlen; simpl.
  - rewrite app_nil_r. symmetry. apply firstn_all2. lia.
  - rewrite inner_loop_firstn by exact Hlen.
    rewrite app_assoc.
    destruct (size <=? _) eqn:Hfull.
    + apply Nat.leb_le in Hfull. symmetry. apply firstn_full. exact Hfull.
    + apply Nat.leb_gt in Hfull.
      pose proof (firstn_short _ Hfull) as E.
      rewrite E in Hfull |- *. apply IH. exact Hfull.
Qed.

Lemma outer_loop_firstn xs ys ws palette :
  length palette < size ->
  outer_loop color size xs ys ws palette
  = firstn size (palette ++ grid color xs ys ws).
Proof.
  unfold grid.
  revert palette. induction xs as [|x xs IH]; intros palette Hlen; simpl.
  - rewrite app_nil_r. symmetry. apply firstn_all2. lia.
  - rewrite middle_loop_firstn by exact Hlen.
    rewrite app_assoc.
    destruct (size <=? _) eqn:Hfull.
    + apply Nat.leb_le in Hfull. symmetry. apply firstn_full. exact Hfull.
    + apply Nat.leb_gt in Hfull.
      pose proof (firstn_short _ Hfull) as E.
      rewrite E in Hfull |- *. apply IH. exact Hfull.
Qed.

(** Started on the empty palette with [size >= 1], the loops collect the
    first [size] colors of the product. *)
Lemma outer_loop_grid xs ys ws :
  0 < size ->
  outer_loop color size xs ys ws [] = firstn size (grid color xs ys ws).
Proof. intros H. apply (outer_loop_firstn xs ys ws []). exact H. Qed.

End NestedLoopFacts.

(** ** PaletteGenerator *)

Lemma uint8_byte (z : Z) : byte (uint8 z).
Proof.
  unfold byte, uint8.
  pose proof (Z.mod_pos_bound z 256 ltac:(lia)). lia.
Qed.

Lemma as_uint8_byte_triple (c : rgb) : byte_triple (as_uint8 c).
Proof.
  destruct c as [[r g] b]. simpl. auto using uint8_byte.
Qed.

Lemma as_uint8_id (c : rgb) : byte_triple c -> as_uint8 c = c.
Proof.
  destruct c as [[r g] b]. unfold byte_triple, byte, as_uint8, uint8.
  intros (Hr & Hg & Hb).
  rewrite !Z.mod_small by lia. reflexivity.
Qed.

Section PaletteFacts.

Context {A : Scalar}.
Variable colorsys_hsv_to_rgb : num A -> num A -> num A -> vec A.
Variable RNG : Type.
Variable np_random_random : RNG -> num A * RNG.
Variable np_random_uniform : num A -> num A -> RNG -> num A * RNG.

Abbreviation fill_remaining' :=
  (fill_remaining colorsys_hsv_to_rgb RNG np_random_random np_random_uniform).
Abbreviation random_colors' :=
  (random_colors colorsys_hsv_to_rgb RNG np_random_random np_random_uniform).
Abbreviation generate' :=
  (generate_full_spectrum_palette colorsys_hsv_to_rgb RNG np_random_random
                                  np_random_uniform).

Lemma length_random_colors n g : length (fst (random_colors' n g)) = n.
Proof.
  revert g. induction n as [|n IH]; intros g; simpl; [reflexivity|].
  destruct (random_color _ _ _ _ g) as [c g1].
  specialize (IH g1). destruct (random_colors' n g1) as [cs g2].
  simpl in *. congruence.
Qed.

(** The [while] loop appends exactly the colors that are missing. *)
Lemma fill_remaining_spec fuel size palette g :
  size - length palette <= fuel ->
  fill_remaining' fuel size palette g
  = (palette ++ fst (random_colors' (size - length palette) g),
     snd (random_colors' (size - length palette) g)).
Proof.
  revert palette g. induction fuel as [|fuel IH]; intros palette g Hfuel.
  - replace (size - length palette) with 0 by lia.
    simpl. rewrite app_nil_r. reflexivity.
  - simpl. destruct (length palette <? size) eqn:Hlt.
    + apply Nat.ltb_lt in Hlt.
      replace (size - length palette) with (S (size - S (length palette)))
        by lia.
      simpl. unfold random_color.
      destruct (np_random_random g) as [h g1].
      destruct (np_random_uniform _ _ g1) as [s g2].
      destruct (np_random_uniform _ _ g2) as [v g3].
      rewrite IH by (rewrite length_app; simpl; lia).
      rewrite length_app. simpl.
      replace (size - (length palette + 1)) with (size - S (length palette))
        by lia.
      destruct (random_colors' _ g3) as [cs g4]. simpl.
      rewrite <- app_assoc. reflexivity.
    + apply Nat.ltb_ge in Hlt.
      replace (size - length palette) with 0 by lia.
      simpl. rewrite app_nil_r. reflexivity.
Qed.

Lemma rgb_cube_zero : rgb_cube (A := A) 0 = [].
Proof. reflexivity. Qed.

Lemma rgb_cube_grid size :
  let values := cube_values (A := A) size in
  rgb_cube (A := A) size
  = firstn size (grid (fun r g b => (r, g, b)) values values values).
Proof.
  intros values. destruct size as [|n].
  - reflexivity.
  - unfold rgb_cube. apply outer_loop_grid. lia.
Qed.

Lemma hsv_grid_grid size :
  0 < size ->
  hsv_grid colorsys_hsv_to_rgb size
  = firstn size
      (grid (fun h s v => hsv_color colorsys_hsv_to_rgb (h / of_Z A 360)%num s v)
            (hues size) (saturations size) (brightnesses size)).
Proof. intros H. unfold hsv_grid. apply outer_loop_grid. exact H. Qed.

Lemma enumerated_length size :
  length (enumerated colorsys_hsv_to_rgb size) <= size.
Proof.
  unfold enumerated. destruct (size <=? 216) eqn:Hs.
  - rewrite rgb_cube_grid. rewrite length_firstn. lia.
  - apply Nat.leb_gt in Hs. rewrite hsv_grid_grid by lia.
    rewrite length_firstn. lia.
Qed.

Lemma generate_palette_spec (size : nat) (g : RNG) :
  let enum := enumerated colorsys_hsv_to_rgb size in
  let fill := random_colors' (size - length enum) g in
  generate' size g = (map as_uint8 (enum ++ fst fill), snd fill) /\
  length enum <= size /\
  length (fst fill) = size - length enum.
Proof.
  intros enum fill.
  pose proof (enumerated_length size) as Hle. fold enum in Hle.
  pose proof (length_random_colors (size - length enum) g) as Hfill.
  fold fill in Hfill.
  repeat split; auto.
  unfold generate_full_spectrum_palette. fold enum.
  rewrite fill_remaining_spec by lia. fold fill.
  rewrite firstn_all2 by (rewrite length_app; lia). reflexivity.
Qed.

(** C6.  For every size [N] (so for every [N >= 1]) the palette is the
    enumerated colors followed by as many randomly sampled HSV colors as
    are missing, cast to bytes: it has exactly [N] entries and every
    channel is an integer in [0, 255]. *)
Theorem generate_palette_exact_size (size : nat) (g : RNG) :
  let enum := enumerated colorsys_hsv_to_rgb size in
  let fill := random_colors' (size - length enum) g in
  generate' size g = (map as_uint8 (enum ++ fst fill), snd fill) /\
  length enum <= size /\
  length (fst fill) = size - length enum /\
  length (fst (generate' size g)) = size /\
  Forall byte_triple (fst (generate' size g)).
Proof.
  intros enum fill.
  destruct (generate_palette_spec size g) as (Hgen & Hle & Hfill).
  fold enum in Hgen, Hle, Hfill. fold fill in Hgen, Hfill.
  rewrite Hgen. simpl.
  repeat split; auto.
  - rewrite length_map, length_app. lia.
  - apply List.Forall_forall. intros c Hc.
    apply in_map_iff in Hc. destruct Hc as (c0 & <- & _).
    apply as_uint8_byte_triple.
Qed.

End PaletteFacts.

(** *** The RGB cube, [size <= 216] *)

Lemma in_grid {X Y W C : Type} (color : X -> Y -> W -> C) xs ys ws c :
  In c (grid color xs ys ws) <->
  exists x y w, In x xs /\ In y ys /\ In w ws /\ c = color x y w.
Proof.
  unfold grid. rewrite in_flat_map. split.
  - intros (x & Hx & Hc). apply in_flat_map in Hc.
    destruct Hc as (y & Hy & Hc). apply in_map_iff in Hc.
    destruct Hc as (w & <- & Hw). eauto 8.
  - intros (x & y & w & Hx & Hy & Hw & ->).
    exists x. split; [exact Hx|]. apply in_flat_map.
    exists y. split; [exact Hy|]. apply in_map. exact Hw.
Qed.

Lemma length_grid {X Y W C : Type} (color : X -> Y -> W -> C) xs ys ws :
  length (grid color xs ys ws) = length xs * (length ys * length ws).
Proof.
  unfold grid. induction xs as [|x xs IHx]; simpl; [reflexivity|].
  rewrite length_app, IHx. f_equal. clear IHx.
  induction ys as [|y ys IHy]; simpl; [reflexivity|].
  rewrite length_app, length_map, IHy. reflexivity.
Qed.

Lemma all_steps_checked : Forall steps_checked (seq 0 7).
Proof. apply (bool_decide_unpack _). vm_compute. exact I. Qed.

Lemma all_roots_checked : Forall root_checked (seq 0 217).
Proof. apply (bool_decide_unpack _). vm_compute. exact I. Qed.

Lemma root_checked_le (size : nat) : size <= 216 -> root_checked size.
Proof.
  intros H. pose proof all_roots_checked as Hall.
  rewrite List.Forall_forall in Hall. apply Hall. apply in_seq. lia.
Qed.

Lemma steps_checked_le (steps : nat) : steps <= 6 -> steps_checked steps.
Proof.
  intros H. pose proof all_steps_checked as Hall.
  rewrite List.Forall_forall in Hall. apply Hall. apply in_seq. lia.
Qed.

Section CubeFacts.

Variable colorsys_hsv_to_rgb : float -> float -> float -> vec Float64.
Variable RNG : Type.
Variable np_random_random : RNG -> float * RNG.
Variable np_random_uniform : float -> float -> RNG -> float * RNG.

Abbreviation generate64 :=
  (generate_full_spectrum_palette (A := Float64) colorsys_hsv_to_rgb RNG
                                  np_random_random np_random_uniform).

(** C7.  In binary64, for every [size <= 216]: [steps] is the integer
    nearest to the cube root of [size]; the channel values are [steps]
    evenly spaced integers of [0, 255]; the colors are the first [size]
    triples of their product, red outermost and blue innermost, and no
    triple occurs twice; when [size] is [steps ^ 3] the palette is the
    whole product, without duplicates; and for [size = 8] it is the eight
    corners of the RGB cube. *)
Theorem rgb_cube_enumeration (size : nat) :
  size <= 216 ->
  let steps := nearest_cube_root size in
  let values := cube_values (A := Float64) size in
  let cube := grid (fun r g b : Z => (r, g, b)) values values values in
  ((2 * Z.of_nat steps - 1) ^ 3 < 8 * Z.of_nat size
     < (2 * Z.of_nat steps + 1) ^ 3)%Z /\
  length values = steps /\
  values = evenly_spaced steps /\
  Forall byte values /\
  enumerated (A := Float64) colorsys_hsv_to_rgb size = firstn size cube /\
  NoDup (enumerated (A := Float64) colorsys_hsv_to_rgb size) /\
  (size = steps ^ 3 ->
   forall g, fst (generate64 size g) = cube /\ NoDup (fst (generate64 size g))) /\
  (size = 8 -> forall g, fst (generate64 size g) = rgb_corners).
Proof.
  intros Hsize steps values cube.
  destruct (root_checked_le size Hsize) as [Hsteps Hroot].
  fold steps in Hsteps, Hroot.
  destruct (steps_checked_le steps Hsteps) as (Hvalues & Hbytes & Hnodup).
  change (channel_values (A := Float64) steps) with values in *.
  fold cube in Hnodup.
  assert (Hlen : length values = steps).
  { rewrite Hvalues. unfold evenly_spaced. rewrite length_map, length_seq.
    reflexivity. }
  assert (Henum : enumerated (A := Float64) colorsys_hsv_to_rgb size
                  = firstn size cube).
  { unfold enumerated. apply Nat.leb_le in Hsize. rewrite Hsize.
    apply (rgb_cube_grid (A := Float64)). }
  assert (Hnd : NoDup (firstn size cube)).
  { exact (sublist_NoDup _ _ Hnodup (sublist_take cube size)). }
  assert (Hcube_bytes : Forall byte_triple cube).
  { apply List.Forall_forall. intros c Hc. apply in_grid in Hc.
    destruct Hc as (r & g & b & Hr & Hg & Hb & ->).
    rewrite List.Forall_forall in Hbytes. simpl. auto. }
  assert (Hfull : size = steps ^ 3 ->
                  forall g, fst (generate64 size g) = cube).
  { intros Hcube g.
    assert (Hcl : @length rgb cube = size).
    { unfold cube. rewrite length_grid, Hlen.
      transitivity (steps ^ 3); [simpl; lia | symmetry; exact Hcube]. }
    assert (Hall : firstn size cube = cube).
    { apply firstn_all2. change (@length rgb cube <= size). lia. }
    assert (Hz : size - length (enumerated (A := Float64) colorsys_hsv_to_rgb size)
                 = 0).
    { rewrite Henum, Hall. change (size - @length rgb cube = 0). lia. }
    destruct (generate_palette_spec (A := Float64) colorsys_hsv_to_rgb RNG
                np_random_random np_random_uniform size g)
      as (Hgen & _ & Hfill).
    rewrite Hz in Hgen. clear Hfill.
    rewrite Hgen. simpl. rewrite app_nil_r, Henum, Hall.
    clear - Hcube_bytes. induction Hcube_bytes as [|c cs Hc _ IH]; simpl.
    - reflexivity.
    - rewrite as_uint8_id by exact Hc. f_equal. exact IH. }
  repeat split; try assumption; try apply Hroot.
  - rewrite Henum. exact Hnd.
  - apply Hfull. assumption.
  - rewrite Hfull by assumption. exact Hnodup.
  - intros -> g. rewrite Hfull by reflexivity. reflexivity.
Qed.

End CubeFacts.

(** C7 at [size = 8], with a generator that is never asked. *)
Lemma rgb_cube_enumeration_witness :
  8 <= 216 /\
  fst (generate_full_spectrum_palette (A := Float64) (grey_hsv Float64) unit
         (constant_random Float64) (constant_uniform Float64) 8 tt)
  = rgb_corners.
Proof.
  split; [lia|].
  exact (proj2 (proj2 (proj2 (proj2 (proj2 (proj2 (proj2
           (rgb_cube_enumeration (grey_hsv Float64) unit
              (constant_random Float64) (constant_uniform Float64)
              8 ltac:(lia)))))))) eq_refl tt).
Defined.

(** *** The HSV grid, [size > 216] *)

(** C8, as stated, fails: at [size = 217] the code takes 20 hue steps, the
    square root of 434 truncated, where rounding gives 21. *)
Lemma hue_steps_217_truncated :
  hue_steps (A := Float64) 217 = 20%Z /\
  nearest_sqrt (2 * 217) = 21%Z /\
  hue_steps (A := Float64) 217 <> nearest_sqrt (2 * 217).
Proof. vm_compute. repeat split; discriminate. Qed.

Lemma in_zrange n start z :
  In z (zrange n start) <-> (start <= z < start + Z.of_nat n)%Z.
Proof.
  revert start. induction n as [|n IH]; intros start.
  - simpl. lia.
  - cbn [zrange In]. rewrite IH. lia.
Qed.

Lemma all_hue_roots_checked :
  Forall hue_root_checked (zrange (Z.to_nat 99784) 217).
Proof. apply (bool_decide_unpack _). vm_compute. exact I. Qed.

Lemma hue_steps_float (size : nat) :
  (216 < Z.of_nat size <= 100000)%Z ->
  hue_steps (A := Float64) size = Z.sqrt (2 * Z.of_nat size).
Proof.
  intros H. pose proof all_hue_roots_checked as Hall.
  rewrite List.Forall_forall in Hall.
  apply (Hall (Z.of_nat size)). apply in_zrange.
  rewrite Z2Nat.id by lia. lia.
Qed.

(** In exact arithmetic the truncated square root is the integer square
    root, for every argument. *)
Lemma Rtrunc_sqrt (n : Z) :
  (0 <= n)%Z -> Rtrunc (R_sqrt.sqrt (IZR n)) = Z.sqrt n.
Proof.
  intros Hn. unfold Rtrunc.
  destruct (Rle_dec 0 (R_sqrt.sqrt (IZR n))) as [_|Hneg];
    [|exfalso; apply Hneg, sqrt_pos].
  symmetry. apply Int_part_spec.
  pose proof (Z.sqrt_spec n Hn) as [Hlo Hhi].
  pose proof (Z.sqrt_nonneg n) as Hk.
  set (k := Z.sqrt n) in *.
  assert (Hk0 : (0 <= IZR k)%R) by (apply IZR_le; exact Hk).
  split.
  - assert (R_sqrt.sqrt (IZR n) < IZR k + 1)%R; [|lra].
    replace (IZR k + 1)%R with (R_sqrt.sqrt ((IZR k + 1) * (IZR k + 1)))
      by (apply sqrt_square; lra).
    apply sqrt_lt_1_alt. split; [apply IZR_le; exact Hn|].
    replace ((IZR k + 1) * (IZR k + 1))%R with (IZR (Z.succ k * Z.succ k)).
    + apply IZR_lt. exact Hhi.
    + rewrite mult_IZR, succ_IZR. reflexivity.
  - rewrite <- (sqrt_square (IZR k)) at 1 by exact Hk0.
    apply sqrt_le_1_alt. rewrite <- mult_IZR. apply IZR_le. exact Hlo.
Qed.

Lemma hue_steps_real (size : nat) :
  hue_steps (A := RealA) size = Z.sqrt (2 * Z.of_nat size).
Proof.
  unfold hue_steps. cbn [to_int fsqrt of_Z RealA].
  rewrite Rtrunc_sqrt by lia. f_equal. lia.
Qed.

(** [np.linspace] *)

Lemma length_np_linspace {A : Scalar} (start stop : num A) n endpoint :
  length (np_linspace start stop n endpoint) = n.
Proof.
  unfold np_linspace.
  destruct (endpoint && (1 <? n)); destruct (0 <? _);
    try destruct (feqb A _ _);
    rewrite ?length_insert, !length_map, length_seq; reflexivity.
Qed.

(** In exact arithmetic the value of index [i] is
    [start + i * (stop - start) / div], the last one being [stop] itself
    when the end point is included. *)
Lemma np_linspace_real (start stop : R) (n : nat) (endpoint : bool) :
  let div := if endpoint then (n - 1)%nat else n in
  let y := map (fun i : nat =>
                  (IZR (Z.of_nat i) * ((stop - start) / IZR (Z.of_nat div))
                   + start)%R)
               (seq 0 n) in
  0 < div ->
  np_linspace (A := RealA) start stop n endpoint
  = if endpoint && (1 <? n) then <[(n - 1)%nat := stop]> y else y.
Proof.
  intros div y Hdiv. unfold np_linspace. fold div.
  cbn [of_Z fsub fdiv fmul fadd feqb RealA].
  apply Nat.ltb_lt in Hdiv as Hb. rewrite Hb.
  assert (Hd : IZR (Z.of_nat div) <> 0%R).
  { apply not_0_IZR. lia. }
  destruct (Req_dec_T _ _); rewrite !map_map.
  - rewrite (map_ext _
      (fun i : nat =>
         (IZR (Z.of_nat i) * ((stop - start) / IZR (Z.of_nat div))
          + start)%R)); [reflexivity|].
    intros i. field. exact Hd.
  - reflexivity.
Qed.

Lemma Rdiv_unit_interval (x m : R) :
  (0 <= x < m)%R -> (0 <= x / m < 1)%R.
Proof.
  intros [H0 H1].
  assert (Hm : (0 < / m)%R) by (apply Rinv_0_lt_compat; lra).
  unfold Rdiv. split.
  - apply Rmult_le_pos; lra.
  - apply Rmult_lt_reg_r with m; [lra|].
    rewrite Rmult_assoc, Rinv_l by lra. lra.
Qed.

Lemma hue_steps_large (size : nat) :
  216 < size -> (20 <= Z.sqrt (2 * Z.of_nat size))%Z.
Proof.
  intros H. change 20%Z with (Z.sqrt 400). apply Z.sqrt_le_mono. lia.
Qed.

Lemma hues_in_range (size : nat) :
  216 < size ->
  Forall (fun h : R => (0 <= h < 360)%R) (hues (A := RealA) size).
Proof.
  intros Hsize. unfold hues. rewrite hue_steps_real.
  pose proof (hue_steps_large size Hsize) as Hk.
  set (n := Z.to_nat (Z.sqrt (2 * Z.of_nat size))).
  assert (Hn : 20 <= n) by (unfold n; lia).
  rewrite np_linspace_real by lia.
  cbn [andb of_Z RealA].
  apply List.Forall_forall. intros h Hh.
  apply in_map_iff in Hh. destruct Hh as (i & <- & Hi).
  apply in_seq in Hi.
  assert (Hi' : (0 <= IZR (Z.of_nat i) < IZR (Z.of_nat n))%R).
  { split; [apply IZR_le | apply IZR_lt]; lia. }
  set (x := IZR (Z.of_nat i)) in *. set (m := IZR (Z.of_nat n)) in *.
  pose proof (Rdiv_unit_interval x m Hi') as Hq.
  replace (x * ((360 - 0) / m) + 0)%R with (360 * (x / m))%R
    by (field; lra).
  lra.
Qed.

Lemma Rdiv_closed_unit_interval (x m : R) :
  (0 <= x <= m)%R -> (0 < m)%R -> (0 <= x / m <= 1)%R.
Proof.
  intros [H0 H1] Hm.
  assert (Hi : (0 < / m)%R) by (apply Rinv_0_lt_compat; lra).
  unfold Rdiv. split.
  - apply Rmult_le_pos; lra.
  - apply Rmult_le_reg_r with m; [lra|].
    rewrite Rmult_assoc, Rinv_l by lra. lra.
Qed.

Lemma linspace_closed_range (lo hi : R) (n : nat) :
  (lo <= hi)%R -> 2 <= n ->
  Forall (fun v : R => (lo <= v <= hi)%R) (np_linspace (A := RealA) lo hi n true).
Proof.
  intros Hlh Hn. rewrite np_linspace_real by lia.
  replace (true && (1 <? n)) with true
    by (symmetry; apply Nat.ltb_lt; lia).
  apply Forall_insert; [|lra].
  apply List.Forall_forall. intros v Hv.
  apply in_map_iff in Hv. destruct Hv as (i & <- & Hi).
  apply in_seq in Hi.
  assert (Hx : (0 <= IZR (Z.of_nat i) <= IZR (Z.of_nat (n - 1)))%R).
  { split; apply IZR_le; lia. }
  assert (Hm : (0 < IZR (Z.of_nat (n - 1)))%R) by (apply IZR_lt; lia).
  set (x := IZR (Z.of_nat i)) in *. set (m := IZR (Z.of_nat (n - 1))) in *.
  pose proof (Rdiv_closed_unit_interval x m Hx Hm) as Hq.
  replace (x * ((hi - lo) / m) + lo)%R with ((hi - lo) * (x / m) + lo)%R
    by (field; lra).
  assert (0 <= (hi - lo) * (x / m) <= hi - lo)%R; [|lra].
  split.
  - apply Rmult_le_pos; lra.
  - rewrite <- (Rmult_1_r (hi - lo)) at 2.
    apply Rmult_le_compat_l; lra.
Qed.

Lemma dec_real (m : Z) (e : nat) :
  dec RealA m e = (IZR m / IZR (10 ^ Z.of_nat e))%R.
Proof. reflexivity. Qed.

Section HsvFacts.

Context {A : Scalar}.
Variable colorsys_hsv_to_rgb : num A -> num A -> num A -> vec A.

Lemma steps_at_least_2 (size : nat) :
  (2 <= sat_steps (A := A) size)%Z /\ (2 <= val_steps (A := A) size)%Z.
Proof. unfold sat_steps, val_steps. lia. Qed.

Lemma enumerated_hsv (size : nat) :
  216 < size ->
  enumerated colorsys_hsv_to_rgb size
  = firstn size
      (grid (fun h s v => hsv_color colorsys_hsv_to_rgb (h / of_Z A 360)%num s v)
            (hues size) (saturations size) (brightnesses size)).
Proof.
  intros H. unfold enumerated.
  replace (size <=? 216) with false by (symmetry; apply Nat.leb_gt; lia).
  apply hsv_grid_grid. lia.
Qed.

End HsvFacts.

(** C8, amended.  For every [size > 216]: [hue_steps] is the square root
    of [2 * size] truncated to an integer, that is the integer square
    root (in exact arithmetic for every size, in binary64 checked up to
    100000); [sat_steps] and [val_steps] are [max(2, size // hue_steps //
    2)] and [max(2, size // hue_steps // sat_steps)], so at least 2; the
    hue, saturation and value grids have that many points, which in
    exact arithmetic lie in [0, 360), [0.6, 1] and [0.7, 1]; and the
    colors are the first [size] of the grid in nested order, hue
    outermost, each converted from [(h / 360, s, v)] to integer RGB. *)
Theorem hsv_grid_enumeration (size : nat) :
  216 < size ->
  hue_steps (A := RealA) size = Z.sqrt (2 * Z.of_nat size) /\
  ((Z.of_nat size <= 100000)%Z ->
   hue_steps (A := Float64) size = Z.sqrt (2 * Z.of_nat size)) /\
  (forall (A : Scalar) (hsv : num A -> num A -> num A -> vec A),
     sat_steps (A := A) size
       = Z.max 2 (Z.of_nat size / hue_steps (A := A) size / 2) /\
     val_steps (A := A) size
       = Z.max 2 (Z.of_nat size / hue_steps (A := A) size
                  / sat_steps (A := A) size) /\
     (2 <= sat_steps (A := A) size)%Z /\
     (2 <= val_steps (A := A) size)%Z /\
     length (hues (A := A) size) = Z.to_nat (hue_steps (A := A) size) /\
     length (saturations (A := A) size) = Z.to_nat (sat_steps (A := A) size) /\
     length (brightnesses (A := A) size) = Z.to_nat (val_steps (A := A) size) /\
     enumerated hsv size
     = firstn size
         (grid (fun h s v => hsv_color hsv (h / of_Z A 360)%num s v)
               (hues size) (saturations size) (brightnesses size))) /\
  Forall (fun h : R => (0 <= h < 360)%R) (hues (A := RealA) size) /\
  Forall (fun s : R => (6 / 10 <= s <= 1)%R) (saturations (A := RealA) size) /\
  Forall (fun v : R => (7 / 10 <= v <= 1)%R) (brightnesses (A := RealA) size).
Proof.
  intros Hsize.
  split; [apply hue_steps_real|].
  split; [intros Hmax; apply hue_steps_float; lia|].
  split.
  { intros A hsv. pose proof (steps_at_least_2 (A := A) size) as [Hs Hv].
    repeat split; try assumption; try reflexivity;
      try apply length_np_linspace.
    apply enumerated_hsv. exact Hsize. }
  split; [apply hues_in_range; exact Hsize|].
  pose proof (steps_at_least_2 (A := RealA) size) as [Hs Hv].
  split.
  - unfold saturations. rewrite dec_real.
    change (10 ^ Z.of_nat 1)%Z with 10%Z.
    apply linspace_closed_range; [cbn; lra | lia].
  - unfold brightnesses. rewrite dec_real.
    change (10 ^ Z.of_nat 1)%Z with 10%Z.
    apply linspace_closed_range; [cbn; lra | lia].
Qed.

(** C8, amended, at the default palette size 256. *)
Lemma hsv_grid_enumeration_witness :
  216 < 256 /\ hue_steps (A := RealA) 256 = Z.sqrt (2 * Z.of_nat 256).
Proof.
  split; [lia|].
  exact (proj1 (hsv_grid_enumeration 256 ltac:(lia))).
Defined.

(** ** ColorEnhancer *)

Section ColorFacts.

Context {A : Scalar}.
Variable RNG : Type.
Variable np_random_choice : nat -> nat -> RNG -> result (list nat) * RNG.

(** The test of line 209 fails on every mesh: [enhance_colors] takes the
    branch of line 218, which draws nothing and stores the colors that
    the mesh shows. *)
Lemma enhance_colors_stores_shown
    (color_palette : list rgb) (mesh : Mesh A) (g : RNG) :
  enhance_colors RNG np_random_choice color_palette mesh g
  = (Ok (Trimesh (vertices mesh) (faces mesh) (visual_vertex_colors mesh)),
     g).
Proof.
  unfold enhance_colors, visual_vertex_colors.
  destruct (vertex_colors mesh); reflexivity.
Qed.

End ColorFacts.

(** C9, on the code.  Reading [mesh.visual.vertex_colors] gives an array
    for every mesh, so the test [is None] of line 209 never holds and the
    branch that draws from the palette is never taken.  On a triangle
    that carries no color data, with the palette [two_colors], whatever
    [np.random.choice] does: nothing is drawn, the generator is left as
    it is, and each of the three vertices gets the default grey
    (102, 102, 102, 255) of [trimesh], which is not a color of the
    palette, where the claim asks for colors of the palette.  The second
    half of the claim holds: colors that a mesh stores pass through
    unchanged. *)
Theorem enhance_colors_never_draws :
  (forall (RNG : Type)
          (np_random_choice : nat -> nat -> RNG -> result (list nat) * RNG)
          (g : RNG),
     vertex_colors (bare_triangle Float64) = None /\
     enhance_colors RNG np_random_choice two_colors (bare_triangle Float64) g
     = (Ok (Trimesh (vertices (bare_triangle Float64))
                    (faces (bare_triangle Float64))
                    (Some [DEFAULT_COLOR; DEFAULT_COLOR; DEFAULT_COLOR])),
        g)) /\
  ~ In (fst DEFAULT_COLOR) two_colors /\
  (forall (A : Scalar) (RNG : Type)
          (np_random_choice : nat -> nat -> RNG -> result (list nat) * RNG)
          (color_palette : list rgb) (mesh : Mesh A) (g : RNG),
     snd (enhance_colors RNG np_random_choice color_palette mesh g) = g /\
     (forall original,
        vertex_colors mesh = Some original ->
        enhance_colors RNG np_random_choice color_palette mesh g
        = (Ok mesh, g))).
Proof.
  split; [|split].
  - intros RNG np_random_choice g. split; [reflexivity|].
    apply enhance_colors_stores_shown.
  - unfold two_colors, DEFAULT_COLOR. simpl.
    intros [H | [H | []]]; discriminate.
  - intros A RNG np_random_choice color_palette mesh g.
    rewrite enhance_colors_stores_shown. split; [reflexivity|].
    intros original Hsome. unfold visual_vertex_colors. rewrite Hsome.
    destruct mesh as [vs fs vc]. simpl in *. subst vc. reflexivity.
Qed.

(** ** SharpnessEnhancer *)

Lemma in_insert_unique x y l : In x (insert_unique y l) -> x = y \/ In x l.
Proof.
  induction l as [|z l IH]; simpl.
  - intuition auto.
  - destruct (y <? z); [simpl; intuition auto|].
    destruct (y =? z); simpl; intuition auto.
Qed.

Lemma in_np_unique x l : In x (np_unique l) -> In x l.
Proof.
  induction l as [|y l IH]; simpl; [tauto|].
  intros H. apply in_insert_unique in H. destruct H; auto.
Qed.

(** [np.unique] and the one-ring *)

Lemma insert_unique_in x y l : In x (insert_unique y l) <-> x = y \/ In x l.
Proof.
  split; [apply in_insert_unique|].
  induction l as [|z l IH]; simpl.
  - intuition auto.
  - destruct (y <? z) eqn:Hlt; [simpl; intuition auto|].
    destruct (y =? z) eqn:Heq.
    + apply Nat.eqb_eq in Heq. subst z. simpl. intuition auto.
    + simpl. intuition auto.
Qed.

Lemma insert_unique_sorted y l :
  StronglySorted lt l -> StronglySorted lt (insert_unique y l).
Proof.
  induction 1 as [|z l Hsorted IH Hz]; simpl.
  - repeat constructor.
  - destruct (y <? z) eqn:Hlt.
    + apply Nat.ltb_lt in Hlt. constructor; [constructor; assumption|].
      constructor; [exact Hlt|].
      rewrite List.Forall_forall in Hz |- *. intros w Hw.
      specialize (Hz w Hw). lia.
    + apply Nat.ltb_ge in Hlt. destruct (y =? z) eqn:Heq.
      * constructor; assumption.
      * apply Nat.eqb_neq in Heq. constructor; [exact IH|].
        rewrite List.Forall_forall in Hz |- *. intros w Hw.
        apply insert_unique_in in Hw. destruct Hw as [->|Hw].
        -- lia.
        -- apply Hz. exact Hw.
Qed.

Lemma np_unique_sorted l : StronglySorted lt (np_unique l).
Proof.
  induction l as [|x l IH]; simpl; [constructor|].
  apply insert_unique_sorted. exact IH.
Qed.

Lemma np_unique_in x l : In x (np_unique l) <-> In x l.
Proof.
  induction l as [|y l IH]; simpl; [tauto|].
  rewrite insert_unique_in, IH. intuition auto.
Qed.

Lemma face_has_in (f : face) (k : nat) :
  face_has f k = true <-> In k (flatten [f]).
Proof.
  destruct f as [[a b] c]. unfold face_has. simpl.
  rewrite !orb_true_iff, !Nat.eqb_eq. intuition auto.
Qed.

Lemma StronglySorted_filter (keep : nat -> bool) l :
  StronglySorted lt l -> StronglySorted lt (List.filter keep l).
Proof.
  induction 1 as [|z l Hsorted IH Hz]; simpl; [constructor|].
  destruct (keep z); [|exact IH].
  constructor; [exact IH|].
  rewrite List.Forall_forall in Hz |- *. intros w Hw.
  apply filter_In in Hw. apply Hz, Hw.
Qed.

(** X1.  The neighbors of vertex [i] are the other vertices that share a face
    with it, each once, in increasing order of their indices. *)
Lemma neighbors_one_ring (fs : list face) (i : nat) :
  StronglySorted lt (neighbors fs i) /\
  forall k,
    In k (neighbors fs i) <->
    k <> i /\ exists f, In f fs /\ face_has f i = true /\ face_has f k = true.
Proof.
  unfold neighbors, neighbor_faces. split.
  - apply StronglySorted_filter, np_unique_sorted.
  - intros k. rewrite filter_In, np_unique_in, negb_true_iff, Nat.eqb_neq.
    unfold flatten. rewrite in_flat_map. split.
    + intros [(f & Hf & Hk) Hne]. split; [exact Hne|].
      apply filter_In in Hf. destruct Hf as [Hf Hi].
      exists f. repeat split; try assumption.
      apply face_has_in. simpl. rewrite app_nil_r. exact Hk.
    + intros [Hne (f & Hf & Hi & Hk)]. split; [|exact Hne].
      exists f. split; [apply filter_In; auto|].
      apply face_has_in in Hk. simpl in Hk. rewrite app_nil_r in Hk.
      exact Hk.
Qed.

Lemma neighbors_in_range n fs i k :
  forallb (face_in_range n) fs = true -> In k (neighbors fs i) -> k < n.
Proof.
  intros Hvalid Hk. unfold neighbors, neighbor_faces in Hk.
  apply filter_In in Hk. destruct Hk as [Hk _].
  apply in_np_unique in Hk. unfold flatten in Hk.
  apply in_flat_map in Hk. destruct Hk as (f & Hf & Hkf).
  apply filter_In in Hf. destruct Hf as [Hf _].
  rewrite forallb_forall in Hvalid. specialize (Hvalid f Hf).
  destruct f as [[a b] c]. simpl in Hvalid, Hkf.
  apply andb_prop in Hvalid. destruct Hvalid as [Hab Hc].
  apply andb_prop in Hab. destruct Hab as [Ha Hb].
  apply Nat.ltb_lt in Ha, Hb, Hc.
  destruct Hkf as [<-|[<-|[<-|[]]]]; assumption.
Qed.

Lemma neighbors_no_faces fs i : neighbor_faces fs i = [] -> neighbors fs i = [].
Proof. unfold neighbors. intros ->. reflexivity. Qed.

Section SmoothingFacts.

Context {A : Scalar}.
Variable arccos : num A -> num A.

Lemma ring_positions_lookup (vs : list (vec A)) (nbrs : list nat) :
  (forall k, In k nbrs -> k < length vs) ->
  Forall2 (fun n p => vs !! n = Some p) nbrs (omap (fun n => vs !! n) nbrs).
Proof.
  induction nbrs as [|n nbrs IH]; intros Hin; simpl.
  - constructor.
  - destruct (lookup_lt_is_Some_2 vs n (Hin n (or_introl eq_refl))) as [p Hp].
    rewrite Hp. constructor; [exact Hp|].
    apply IH. intros k Hk. apply Hin. right. exact Hk.
Qed.

Lemma for_each_positions (vs : list (vec A)) nbrs positions :
  Forall2 (fun n p => vs !! n = Some p) nbrs positions ->
  for_each (getitem vs) nbrs = Ok positions.
Proof.
  induction 1 as [|n p nbrs positions Hp _ IH]; simpl.
  - reflexivity.
  - unfold getitem at 1. rewrite Hp. simpl. rewrite IH. reflexivity.
Qed.

Lemma for_each_edges (vs : list (vec A)) (v : vec A) nbrs positions :
  Forall2 (fun n p => vs !! n = Some p) nbrs positions ->
  for_each (fun neighbor => let* p := getitem vs neighbor in Ok (vsub p v)) nbrs
  = Ok (map (fun p => vsub p v) positions).
Proof.
  induction 1 as [|n p nbrs positions Hp _ IH]; simpl.
  - reflexivity.
  - unfold getitem at 1. rewrite Hp. simpl. rewrite IH. reflexivity.
Qed.

Lemma sharp_scan_short (es : list (vec A)) :
  length es < 2 -> sharp_scan arccos es = false.
Proof.
  destruct es as [|e1 [|e2 es]]; simpl; intros H; try reflexivity. lia.
Qed.

Lemma sharp_scan_guard (es : list (vec A)) :
  (if 2 <=? length es then sharp_scan arccos es else false)
  = sharp_scan arccos es.
Proof.
  destruct (2 <=? length es) eqn:H; [reflexivity|].
  apply Nat.leb_gt in H. symmetry. apply sharp_scan_short. exact H.
Qed.

(** One vertex: the step writes the new position of vertex [i] and
    nothing else. *)
Lemma vertex_step_spec (vs : list (vec A)) fs nv i v positions :
  Forall2 (fun n p => vs !! n = Some p) (neighbors fs i) positions ->
  nv !! i = Some v ->
  vertex_step arccos vs fs nv i v
  = Ok (<[i := new_position arccos v positions]> nv).
Proof.
  intros Hpos Hnv. unfold vertex_step.
  destruct (length (neighbor_faces fs i) =? 0) eqn:Hnf.
  { apply Nat.eqb_eq, length_zero_iff_nil in Hnf.
    rewrite (neighbors_no_faces _ _ Hnf) in Hpos. inversion Hpos; subst.
    simpl. rewrite list_insert_id by exact Hnv. reflexivity. }
  destruct (0 <? length (neighbors fs i)) eqn:Hnb.
  2:{ apply Nat.ltb_ge in Hnb.
      assert (Hnil : neighbors fs i = [])
        by (apply length_zero_iff_nil; lia).
      rewrite Hnil in Hpos. inversion Hpos; subst.
      simpl. rewrite list_insert_id by exact Hnv. reflexivity. }
  rewrite (for_each_edges vs v _ _ Hpos). cbn [bind].
  rewrite sharp_scan_guard.
  rewrite (for_each_positions vs _ _ Hpos).
  destruct positions as [|p positions].
  { inversion Hpos as [Hnil|]; subst. rewrite <- Hnil in Hnb. discriminate. }
  cbn [new_position].
  destruct (sharp_scan arccos _); cbn [negb bind].
  - rewrite list_insert_id by exact Hnv. reflexivity.
  - reflexivity.
Qed.

(** The loop: after the vertices before [rest] have been written, the
    loop over [rest] ends with every vertex at its new position. *)
Lemma vertex_loop_spec (vs : list (vec A)) fs :
  forallb (face_in_range (length vs)) fs = true ->
  forall rest pre nv,
    vs = pre ++ rest ->
    length nv = length vs ->
    (forall k, length pre <= k -> nv !! k = vs !! k) ->
    (forall k, k < length pre -> nv !! k = simultaneous arccos vs fs !! k) ->
    vertex_loop arccos vs fs (length pre) rest nv
    = Ok (simultaneous arccos vs fs).
Proof.
  intros Hvalid rest.
  induction rest as [|v rest IH]; intros pre nv Hvs Hlen Hafter Hbefore.
  - simpl. f_equal. apply list_eq. intros k.
    rewrite app_nil_r in Hvs. subst pre.
    destruct (Nat.lt_ge_cases k (length vs)) as [Hk|Hk].
    + apply Hbefore. exact Hk.
    + rewrite !lookup_ge_None_2; [reflexivity| |lia].
      unfold simultaneous. rewrite length_imap. exact Hk.
  - assert (Hv : vs !! length pre = Some v).
    { rewrite Hvs. apply list_lookup_middle. reflexivity. }
    assert (Hpos :
      Forall2 (fun n p => vs !! n = Some p) (neighbors fs (length pre))
              (ring_positions vs fs (length pre))).
    { apply ring_positions_lookup. intros k Hk.
      eapply neighbors_in_range; eassumption. }
    simpl.
    rewrite (vertex_step_spec vs fs nv _ v _ Hpos)
      by (rewrite Hafter by lia; exact Hv).
    cbn [bind].
    replace (S (length pre)) with (length (pre ++ [v]))
      by (rewrite length_app; simpl; lia).
    apply IH.
    + rewrite <- app_assoc. exact Hvs.
    + rewrite length_insert. exact Hlen.
    + intros k Hk. rewrite length_app in Hk. simpl in Hk.
      rewrite list_lookup_insert_ne by lia. apply Hafter. lia.
    + intros k Hk. rewrite length_app in Hk. simpl in Hk.
      destruct (Nat.eq_dec k (length pre)) as [->|Hne].
      * rewrite list_lookup_insert_eq
          by (rewrite Hlen; eapply lookup_lt_Some; exact Hv).
        unfold simultaneous. rewrite list_lookup_imap, Hv. reflexivity.
      * rewrite list_lookup_insert_ne by lia. apply Hbefore. lia.
Qed.

Lemma smoothing_pass_spec (vs : list (vec A)) fs :
  forallb (face_in_range (length vs)) fs = true ->
  smoothing_pass arccos vs fs = Ok (simultaneous arccos vs fs).
Proof.
  intros Hvalid. unfold smoothing_pass.
  apply (vertex_loop_spec vs fs Hvalid vs [] vs); auto.
  simpl. intros k Hk. lia.
Qed.

End SmoothingFacts.

Lemma lookup_map {T U : Type} (f : T -> U) (l : list T) (i : nat) :
  map f l !! i = option_map f (l !! i).
Proof.
  revert i. induction l as [|x l IH]; intros [|i]; simpl; auto.
Qed.

Section RuleFacts.

Context {A : Scalar}.
Variable arccos : num A -> num A.
Variable trimesh_Trimesh :
  list (vec A) -> list face -> option (list rgba) -> result (Mesh A).

Lemma sharp_scan_true (es : list (vec A)) :
  sharp_scan arccos es = true <->
  exists j e1 e2,
    es !! j = Some e1 /\ es !! (S j) = Some e2 /\
    fltb A (pi A / of_Z A 3)%num (angle arccos e1 e2) = true.
Proof.
  induction es as [|e1 tl IH].
  - simpl. split; [discriminate|]. intros (j & a & b & H & _). discriminate.
  - destruct tl as [|e2 tl].
    + simpl. split; [discriminate|].
      intros (j & a & b & _ & H & _). discriminate.
    + cbn [sharp_scan].
      destruct (fltb A _ (angle arccos e1 e2)) eqn:Htest.
      * split; [|reflexivity]. intros _. exists 0, e1, e2. auto.
      * rewrite IH. split.
        -- intros (j & a & b & Ha & Hb & Hab). exists (S j), a, b. auto.
        -- intros (j & a & b & Ha & Hb & Hab). destruct j as [|j].
           ++ simpl in Ha, Hb. inversion Ha; inversion Hb; subst.
              congruence.
           ++ exists j, a, b. auto.
Qed.

Lemma sharp_scan_sharp_at (v : vec A) (positions : list (vec A)) :
  sharp_scan arccos (map (fun p => vsub p v) positions) = true <->
  sharp_at arccos v positions.
Proof.
  rewrite sharp_scan_true. unfold sharp_at. split.
  - intros (j & e1 & e2 & H1 & H2 & Ht).
    rewrite lookup_map in H1, H2.
    destruct (positions !! j) as [p|] eqn:Hp; [|discriminate].
    destruct (positions !! S j) as [q|] eqn:Hq; [|discriminate].
    simpl in H1, H2. inversion H1; inversion H2; subst.
    exists j, p, q. auto.
  - intros (j & p & q & H1 & H2 & Ht).
    exists j, (vsub p v), (vsub q v).
    rewrite !lookup_map, H1, H2. auto.
Qed.

Lemma simultaneous_updated (vs : list (vec A)) (fs : list face) :
  forallb (face_in_range (length vs)) fs = true ->
  updated arccos fs vs (simultaneous arccos vs fs).
Proof.
  intros Hvalid. split.
  - unfold simultaneous. apply length_imap.
  - intros i v Hv positions.
    assert (Hnew : simultaneous arccos vs fs !! i
                   = Some (new_position arccos v positions)).
    { unfold simultaneous. rewrite list_lookup_imap, Hv. reflexivity. }
    split.
    { apply ring_positions_lookup. intros k Hk.
      eapply neighbors_in_range; eassumption. }
    rewrite Hnew. clear Hnew.
    pose proof (sharp_scan_sharp_at v positions) as Hiff.
    repeat split.
    + intros ->. reflexivity.
    + intros Hsharp. destruct positions as [|p ps]; [reflexivity|].
      cbn [new_position]. apply Hiff in Hsharp. rewrite Hsharp. reflexivity.
    + intros Hne Hnot. destruct positions as [|p ps]; [congruence|].
      cbn [new_position].
      destruct (sharp_scan arccos _); [|reflexivity].
      exfalso. apply Hnot, Hiff. reflexivity.
Qed.

(** Three iterations on a mesh whose faces are in range. *)
Lemma smoothing_passes_spec (vs : list (vec A)) (fs : list face) :
  forallb (face_in_range (length vs)) fs = true ->
  exists v1 v2 v3,
    smoothing_pass arccos vs fs = Ok v1 /\
    smoothing_pass arccos v1 fs = Ok v2 /\
    smoothing_pass arccos v2 fs = Ok v3 /\
    updated arccos fs vs v1 /\
    updated arccos fs v1 v2 /\
    updated arccos fs v2 v3 /\
    smoothing_passes arccos 3 vs fs = Ok v3.
Proof.
  intros H0.
  set (v1 := simultaneous arccos vs fs).
  assert (H1 : forallb (face_in_range (length v1)) fs = true).
  { unfold v1, simultaneous. rewrite length_imap. exact H0. }
  set (v2 := simultaneous arccos v1 fs).
  assert (H2 : forallb (face_in_range (length v2)) fs = true).
  { unfold v2, simultaneous. rewrite length_imap. exact H1. }
  set (v3 := simultaneous arccos v2 fs).
  exists v1, v2, v3.
  pose proof (smoothing_pass_spec arccos vs fs H0) as P1.
  pose proof (smoothing_pass_spec arccos v1 fs H1) as P2.
  pose proof (smoothing_pass_spec arccos v2 fs H2) as P3.
  fold v1 in P1. fold v2 in P2. fold v3 in P3.
  refine (conj P1 (conj P2 (conj P3 (conj _ (conj _ (conj _ _)))))).
  - apply simultaneous_updated; assumption.
  - apply simultaneous_updated; assumption.
  - apply simultaneous_updated; assumption.
  - cbn [smoothing_passes]. rewrite P1. cbn [bind].
    rewrite P2. cbn [bind]. rewrite P3. reflexivity.
Qed.

(** C3, amended.  On a mesh whose faces name only vertices it has, each of
    the three iterations updates all vertices at once from the positions
    before the iteration: a vertex with no one-ring neighbor keeps its
    position; a vertex for which two consecutive neighbor directions make
    an angle greater than pi/3 keeps its position; every other vertex, a
    vertex with exactly one neighbor included, moves to
    [0.8 * old + 0.2 * centroid of its neighbors].  The enhanced mesh is
    what the constructor of [trimesh] makes of the positions of the third
    iteration, the faces of the input and the colors the input shows (the
    input itself when the constructor raises). *)
Theorem smoothing_iterations_rule (mesh : Mesh A) :
  forallb (face_in_range (length (vertices mesh))) (faces mesh) = true ->
  exists v1 v2 v3,
    smoothing_pass arccos (vertices mesh) (faces mesh) = Ok v1 /\
    smoothing_pass arccos v1 (faces mesh) = Ok v2 /\
    smoothing_pass arccos v2 (faces mesh) = Ok v3 /\
    updated arccos (faces mesh) (vertices mesh) v1 /\
    updated arccos (faces mesh) v1 v2 /\
    updated arccos (faces mesh) v2 v3 /\
    enhance_sharpness arccos trimesh_Trimesh mesh
    = try_except
        (trimesh_Trimesh v3 (faces mesh) (visual_vertex_colors mesh))
        (fun _ => Ok mesh).
Proof.
  intros Hvalid.
  destruct (smoothing_passes_spec (vertices mesh) (faces mesh) Hvalid)
    as (v1 & v2 & v3 & P1 & P2 & P3 & U1 & U2 & U3 & P).
  exists v1, v2, v3.
  refine (conj P1 (conj P2 (conj P3 (conj U1 (conj U2 (conj U3 _)))))).
  unfold enhance_sharpness. rewrite P. reflexivity.
Qed.

End RuleFacts.

(** C3, as stated, fails: the first vertex of the segment has exactly one
    one-ring neighbor, and the first iteration moves it. *)
Lemma single_neighbor_vertex_moves :
  length (neighbors segment_faces 0) = 1 /\
  exists v1,
    smoothing_pass (A := RealA) acos segment_vertices segment_faces = Ok v1 /\
    v1 !! 0 <> segment_vertices !! 0.
Proof.
  split; [reflexivity|].
  eexists. split.
  - apply smoothing_pass_spec. reflexivity.
  - unfold simultaneous, segment_vertices.
    cbn [imap lookup list_lookup].
    unfold new_position, ring_positions, segment_faces. simpl.
    intros H. injection H as Hx _ _.
    change (10 ^ Z.of_nat 1)%Z with 10%Z in Hx.
    change (Z.of_nat 1) with 1%Z in Hx. lra.
Qed.

(** C3, amended, on the segment. *)
Lemma smoothing_iterations_rule_witness :
  forallb (face_in_range (length segment_vertices)) segment_faces = true /\
  exists v1 v2 v3,
    smoothing_pass (A := RealA) acos segment_vertices segment_faces = Ok v1 /\
    smoothing_pass (A := RealA) acos v1 segment_faces = Ok v2 /\
    smoothing_pass (A := RealA) acos v2 segment_faces = Ok v3 /\
    updated (A := RealA) acos segment_faces segment_vertices v1 /\
    updated (A := RealA) acos segment_faces v1 v2 /\
    updated (A := RealA) acos segment_faces v2 v3 /\
    enhance_sharpness (A := RealA) acos stored_Trimesh
      (Trimesh segment_vertices segment_faces None)
    = try_except
        (stored_Trimesh v3 segment_faces
           (visual_vertex_colors
              (Trimesh (A := RealA) segment_vertices segment_faces None)))
        (fun _ => Ok (Trimesh segment_vertices segment_faces None)).
Proof.
  split; [reflexivity|].
  exact (smoothing_iterations_rule (A := RealA) acos stored_Trimesh
           (Trimesh (A := RealA) segment_vertices segment_faces None) eq_refl).
Defined.

(** *** A zero-length edge in binary64 *)

Lemma mul_zero_l (x : float) : zero_or_nan (0 * x).
Proof.
  rewrite <- (SF2Prim_Prim2SF (0 * x)). rewrite mul_spec.
  destruct (Prim2SF x) as [s|s| |s m e]; try destruct s; vm_compute; auto.
Qed.

Lemma mul_zero_r (x : float) : zero_or_nan (x * 0).
Proof.
  rewrite <- (SF2Prim_Prim2SF (x * 0)). rewrite mul_spec.
  destruct (Prim2SF x) as [s|s| |s m e]; try destruct s; vm_compute; auto.
Qed.

Lemma add_zero_or_nan (x y : float) :
  zero_or_nan x -> zero_or_nan y -> zero_or_nan (x + y).
Proof. intros [->|[->| ->]] [->|[->| ->]]; vm_compute; auto. Qed.

Lemma div_zero_or_nan (x y : float) :
  zero_or_nan x -> zero_or_nan y -> (x / y)%float = nan.
Proof. intros [->|[->| ->]] [->|[->| ->]]; vm_compute; auto. Qed.

(** The test of line 105 on a NaN cosine. *)
Lemma nan_cosine_not_sharp (arccos : float -> float) (c : float) :
  arccos nan = nan ->
  c = nan ->
  fltb Float64 (pi Float64 / of_Z Float64 3)%num
       (arccos (clip (A := Float64) c (of_Z Float64 (-1)) (of_Z Float64 1)))
  = false.
Proof.
  intros Hnan ->.
  replace (clip (A := Float64) nan (of_Z Float64 (-1)) (of_Z Float64 1))
    with nan by (vm_compute; reflexivity).
  rewrite Hnan. vm_compute. reflexivity.
Qed.

(** A pair of edge vectors one of which is the zero vector never passes
    the sharpness test: its cosine is [0 / 0]. *)
Lemma zero_edge_not_sharp (arccos : float -> float) (e : vec Float64) :
  arccos nan = nan ->
  fltb Float64 (pi Float64 / of_Z Float64 3)%num
       (angle (A := Float64) arccos (0, 0, 0)%float e) = false /\
  fltb Float64 (pi Float64 / of_Z Float64 3)%num
       (angle (A := Float64) arccos e (0, 0, 0)%float) = false.
Proof.
  intros Hnan. destruct e as [[ex ey] ez]. unfold angle. split.
  - apply nan_cosine_not_sharp; [exact Hnan|].
    cbn [dot norm fmul fadd fdiv fsqrt Float64].
    apply div_zero_or_nan.
    + auto using add_zero_or_nan, mul_zero_l.
    + replace (PrimFloat.sqrt (0 * 0 + 0 * 0 + 0 * 0)) with 0%float
        by (vm_compute; reflexivity).
      apply mul_zero_l.
  - apply nan_cosine_not_sharp; [exact Hnan|].
    cbn [dot norm fmul fadd fdiv fsqrt Float64].
    apply div_zero_or_nan.
    + auto using add_zero_or_nan, mul_zero_r.
    + replace (PrimFloat.sqrt (0 * 0 + 0 * 0 + 0 * 0)) with 0%float
        by (vm_compute; reflexivity).
      apply mul_zero_r.
Qed.

(** The three iterations on [coincident_triangle], for every [arccos]
    that has the two values of the C library's [acos]. *)
Lemma coincident_triangle_enhanced (arccos : float -> float) :
  arccos nan = nan -> arccos 1%float = 0%float ->
  smoothing_passes (A := Float64) arccos 3
    (vertices coincident_triangle) (faces coincident_triangle)
  = Ok coincident_pass3.
Proof.
  intros Hnan H1. vm_compute in Hnan.
  assert (P1 : smoothing_pass (A := Float64) arccos
                 (vertices coincident_triangle) (faces coincident_triangle)
               = Ok coincident_pass1).
  { unfold smoothing_pass. vm_compute. rewrite ?Hnan, ?H1. vm_compute.
    reflexivity. }
  assert (P2 : smoothing_pass (A := Float64) arccos coincident_pass1
                 (faces coincident_triangle) = Ok coincident_pass2).
  { unfold smoothing_pass. vm_compute. rewrite ?Hnan, ?H1. vm_compute.
    reflexivity. }
  assert (P3 : smoothing_pass (A := Float64) arccos coincident_pass2
                 (faces coincident_triangle) = Ok coincident_pass3).
  { unfold smoothing_pass. vm_compute. rewrite ?Hnan, ?H1. vm_compute.
    reflexivity. }
  cbn [smoothing_passes].
  rewrite P1. cbn [bind]. rewrite P2. cbn [bind]. rewrite P3. reflexivity.
Qed.

(** C4, as stated, fails: vertex 0 of [coincident_triangle] has a
    zero-length edge to its neighbor 1, nothing raises, and among the
    positions that the three iterations compute and hand to the
    constructor the one of vertex 0 has moved. *)
Lemma zero_length_edge_vertex_moves :
  In 1 (neighbors (faces coincident_triangle) 0) /\
  (exists p0 p1,
     vertices coincident_triangle !! 0 = Some p0 /\
     vertices coincident_triangle !! 1 = Some p1 /\
     norm (A := Float64) (vsub p1 p0) = 0%float) /\
  ~ (forall arccos : float -> float,
       arccos nan = nan -> arccos 1%float = 0%float ->
       exists v3,
         smoothing_passes (A := Float64) arccos 3
           (vertices coincident_triangle) (faces coincident_triangle)
         = Ok v3 /\
         v3 !! 0 = vertices coincident_triangle !! 0).
Proof.
  split; [vm_compute; auto|]. split.
  - eexists. eexists. split; [reflexivity|]. split; [reflexivity|].
    vm_compute. reflexivity.
  - intros H.
    destruct (H acos_special eq_refl eq_refl) as (v3 & Hv3 & H0).
    rewrite (coincident_triangle_enhanced acos_special eq_refl eq_refl)
      in Hv3.
    inversion Hv3; subst v3. vm_compute in H0. discriminate.
Qed.

(** *** Exceptions in the smoothing loop *)

Section AbortFacts.

Context {A : Scalar}.
Variable arccos : num A -> num A.
Variable trimesh_Trimesh :
  list (vec A) -> list face -> option (list rgba) -> result (Mesh A).

(** Whether a vertex's step raises does not depend on what was written
    before it. *)
Lemma vertex_step_raises_any (vs : list (vec A)) fs nv nv' i v :
  raises (vertex_step arccos vs fs nv i v) ->
  raises (vertex_step arccos vs fs nv' i v).
Proof.
  unfold raises, vertex_step.
  destruct (length (neighbor_faces fs i) =? 0); [intros [e H]; discriminate|].
  destruct (0 <? length (neighbors fs i)); [|intros [e H]; discriminate].
  destruct (for_each _ (neighbors fs i)) as [edges|e1]; cbn [bind].
  - destruct (negb _); [|intros [e H]; discriminate].
    destruct (for_each (getitem vs) _) as [ps|e2]; cbn [bind].
    + intros [e H]. discriminate.
    + intros _. exists e2. reflexivity.
  - intros _. exists e1. reflexivity.
Qed.

(** No handler stands between a vertex's step and the loop: a step that
    raises makes the loop raise. *)
Lemma vertex_loop_raises (vs : list (vec A)) fs :
  forall rest start nv j v,
    rest !! j = Some v ->
    raises (vertex_step arccos vs fs vs (start + j) v) ->
    raises (vertex_loop arccos vs fs start rest nv).
Proof.
  induction rest as [|x rest IH]; intros start nv j v Hj Hraise.
  - discriminate.
  - destruct j as [|j]; simpl in Hj.
    + inversion Hj; subst x. rewrite Nat.add_0_r in Hraise.
      destruct (vertex_step_raises_any vs fs vs nv start v Hraise) as [e He].
      exists e. simpl. rewrite He. reflexivity.
    + simpl. destruct (vertex_step arccos vs fs nv start x) as [nv1|e].
      * cbn [bind]. apply (IH (S start) nv1 j v Hj).
        replace (S start + j) with (start + S j) by lia. exact Hraise.
      * exists e. reflexivity.
Qed.

Lemma smoothing_pass_raises (vs : list (vec A)) fs i v :
  vs !! i = Some v ->
  raises (vertex_step arccos vs fs vs i v) ->
  raises (smoothing_pass arccos vs fs).
Proof.
  intros Hv Hraise. unfold smoothing_pass.
  apply (vertex_loop_raises vs fs vs 0 vs i v Hv). exact Hraise.
Qed.

Lemma enhance_sharpness_aborts (mesh : Mesh A) :
  raises (smoothing_passes arccos 3 (vertices mesh) (faces mesh)) ->
  enhance_sharpness arccos trimesh_Trimesh mesh = Ok mesh.
Proof.
  intros [e He]. unfold enhance_sharpness. rewrite He. reflexivity.
Qed.

(** A face that names a missing vertex: the step of vertex 0 raises, and
    the mesh comes back as it was. *)
Lemma dangling_triangle_unchanged :
  raises (vertex_step arccos (vertices (dangling_triangle A))
            (faces (dangling_triangle A)) (vertices (dangling_triangle A))
            0 (of_Z A 0, of_Z A 0, of_Z A 0)) /\
  enhance_sharpness arccos trimesh_Trimesh (dangling_triangle A)
  = Ok (dangling_triangle A).
Proof.
  split.
  - exists IndexError. reflexivity.
  - reflexivity.
Qed.

(** C4, amended.  No error is caught per vertex.  An exception raised in
    the step of one vertex (a face index out of range) leaves the loop,
    the three iterations and the [try] of [enhance_sharpness], which
    returns the input mesh: no vertex is moved.  On a mesh whose faces are
    in range nothing raises and the iterations complete for every vertex.
    A zero-length edge vector raises nothing: in binary64 the angle of a
    pair that contains it is [arccos] of NaN, which is not greater than
    pi/3, so that pair does not make the vertex sharp. *)
Theorem sharpness_errors_abort_enhancement (mesh : Mesh A) :
  (forall i v,
     vertices mesh !! i = Some v ->
     raises (vertex_step arccos (vertices mesh) (faces mesh)
                         (vertices mesh) i v) ->
     raises (smoothing_pass arccos (vertices mesh) (faces mesh)) /\
     raises (smoothing_passes arccos 3 (vertices mesh) (faces mesh)) /\
     enhance_sharpness arccos trimesh_Trimesh mesh = Ok mesh) /\
  (raises (smoothing_passes arccos 3 (vertices mesh) (faces mesh)) ->
   enhance_sharpness arccos trimesh_Trimesh mesh = Ok mesh) /\
  (forallb (face_in_range (length (vertices mesh))) (faces mesh) = true ->
   exists v3,
     smoothing_passes arccos 3 (vertices mesh) (faces mesh) = Ok v3 /\
     length v3 = length (vertices mesh) /\
     enhance_sharpness arccos trimesh_Trimesh mesh
     = try_except
         (trimesh_Trimesh v3 (faces mesh) (visual_vertex_colors mesh))
         (fun _ => Ok mesh)) /\
  (forall (acos64 : float -> float) (e : vec Float64),
     acos64 nan = nan ->
     fltb Float64 (pi Float64 / of_Z Float64 3)%num
          (angle (A := Float64) acos64 (0, 0, 0)%float e) = false /\
     fltb Float64 (pi Float64 / of_Z Float64 3)%num
          (angle (A := Float64) acos64 e (0, 0, 0)%float) = false).
Proof.
  split; [|split; [|split]].
  - intros i v Hv Hraise.
    pose proof (smoothing_pass_raises _ _ i v Hv Hraise) as [e He].
    assert (Hall : raises (smoothing_passes arccos 3 (vertices mesh)
                             (faces mesh))).
    { exists e. cbn [smoothing_passes]. rewrite He. reflexivity. }
    split; [exists e; exact He|]. split; [exact Hall|].
    apply enhance_sharpness_aborts. exact Hall.
  - apply enhance_sharpness_aborts.
  - intros Hvalid.
    destruct (smoothing_passes_spec arccos (vertices mesh) (faces mesh) Hvalid)
      as (v1 & v2 & v3 & _ & _ & _ & [L1 _] & [L2 _] & [L3 _] & P).
    exists v3. split; [exact P|]. split; [congruence|].
    unfold enhance_sharpness. rewrite P. reflexivity.
  - intros acos64 e. apply zero_edge_not_sharp.
Qed.

End AbortFacts.


(** ** MeshNormalizer *)

Lemma select_from_map {T U : Type} (f : T -> U) keep i (l : list T) :
  select_from keep i (map f l) = map f (select_from keep i l).
Proof.
  revert i. induction l as [|x l IH]; intros i; simpl; [reflexivity|].
  destruct (keep i); simpl; rewrite IH; reflexivity.
Qed.

Lemma Rmin_recenter (a b c k : R) :
  (0 < k)%R -> Rmin ((a - c) / k) ((b - c) / k) = ((Rmin a b - c) / k)%R.
Proof.
  intros Hk. assert (Hi : (0 < / k)%R) by (apply Rinv_0_lt_compat; exact Hk).
  unfold Rmin, Rdiv.
  destruct (Rle_dec a b), (Rle_dec ((a - c) * / k) ((b - c) * / k));
    try reflexivity; exfalso; nra.
Qed.

Lemma Rmax_recenter (a b c k : R) :
  (0 < k)%R -> Rmax ((a - c) / k) ((b - c) / k) = ((Rmax a b - c) / k)%R.
Proof.
  intros Hk. assert (Hi : (0 < / k)%R) by (apply Rinv_0_lt_compat; exact Hk).
  unfold Rmax, Rdiv.
  destruct (Rle_dec a b), (Rle_dec ((a - c) * / k) ((b - c) * / k));
    try reflexivity; exfalso; nra.
Qed.

Lemma vmin_recenter (c : vec RealA) (k : R) (u v : vec RealA) :
  (0 < k)%R ->
  vmin (recenter c k u) (recenter c k v) = recenter c k (vmin u v).
Proof.
  intros Hk. destruct c as [[cx cy] cz], u as [[ux uy] uz], v as [[vx vy] vz].
  unfold recenter, vmin, vdiv, vsub. cbn [fminimum fsub fdiv RealA].
  rewrite !Rmin_recenter by exact Hk. reflexivity.
Qed.

Lemma vmax_recenter (c : vec RealA) (k : R) (u v : vec RealA) :
  (0 < k)%R ->
  vmax (recenter c k u) (recenter c k v) = recenter c k (vmax u v).
Proof.
  intros Hk. destruct c as [[cx cy] cz], u as [[ux uy] uz], v as [[vx vy] vz].
  unfold recenter, vmax, vdiv, vsub. cbn [fmaximum fsub fdiv RealA].
  rewrite !Rmax_recenter by exact Hk. reflexivity.
Qed.

Lemma fold_vmin_recenter c k ps p :
  (0 < k)%R ->
  fold_left vmin (map (recenter c k) ps) (recenter c k p)
  = recenter c k (fold_left vmin ps p).
Proof.
  intros Hk. revert p. induction ps as [|q ps IH]; intros p; simpl.
  - reflexivity.
  - rewrite vmin_recenter by exact Hk. apply IH.
Qed.

Lemma fold_vmax_recenter c k ps p :
  (0 < k)%R ->
  fold_left vmax (map (recenter c k) ps) (recenter c k p)
  = recenter c k (fold_left vmax ps p).
Proof.
  intros Hk. revert p. induction ps as [|q ps IH]; intros p; simpl.
  - reflexivity.
  - rewrite vmax_recenter by exact Hk. apply IH.
Qed.

Lemma vle_refl u : vle u u.
Proof. destruct u as [[x y] z]. simpl. lra. Qed.

Lemma vle_trans u v w : vle u v -> vle v w -> vle u w.
Proof.
  destruct u as [[? ?] ?], v as [[? ?] ?], w as [[? ?] ?]. simpl. lra.
Qed.

Lemma vmin_le_l u v : vle (vmin u v) u.
Proof.
  destruct u as [[ux uy] uz], v as [[vx vy] vz]. simpl.
  pose proof (Rmin_l ux vx). pose proof (Rmin_l uy vy).
  pose proof (Rmin_l uz vz). lra.
Qed.

Lemma vmax_ge_l u v : vle u (vmax u v).
Proof.
  destruct u as [[ux uy] uz], v as [[vx vy] vz]. simpl.
  pose proof (Rmax_l ux vx). pose proof (Rmax_l uy vy).
  pose proof (Rmax_l uz vz). lra.
Qed.

Lemma fold_vmin_le ps p : vle (fold_left vmin ps p) p.
Proof.
  revert p. induction ps as [|q ps IH]; intros p; simpl.
  - apply vle_refl.
  - eapply vle_trans; [apply IH | apply vmin_le_l].
Qed.

Lemma fold_vmax_ge ps p : vle p (fold_left vmax ps p).
Proof.
  revert p. induction ps as [|q ps IH]; intros p; simpl.
  - apply vle_refl.
  - eapply vle_trans; [apply vmax_ge_l | apply IH].
Qed.

(** The bounds of a mesh are ordered. *)
Lemma bounds_ordered (mesh : Mesh RealA) lo hi :
  bounds mesh = Ok (Some (lo, hi)) -> vle lo hi.
Proof.
  unfold bounds. destruct (forallb _ _); [|discriminate].
  destruct (select_from _ _ _) as [|p ps]; [discriminate|].
  intros H. inversion H; subst.
  eapply vle_trans; [apply fold_vmin_le | apply fold_vmax_ge].
Qed.

(** The bounds of the mesh whose every vertex went through [recenter]. *)
Lemma bounds_recenter (mesh : Mesh RealA) lo hi c k :
  (0 < k)%R ->
  bounds mesh = Ok (Some (lo, hi)) ->
  bounds (Trimesh (map (recenter c k) (vertices mesh)) (faces mesh)
                  (vertex_colors mesh))
  = Ok (Some (recenter c k lo, recenter c k hi)).
Proof.
  intros Hk. unfold bounds. cbn [vertices faces].
  rewrite length_map, select_from_map.
  destruct (forallb _ _); [|discriminate].
  destruct (select_from _ _ _) as [|p ps]; [discriminate|].
  intros H. inversion H; subst. cbn [map].
  rewrite fold_vmin_recenter, fold_vmax_recenter by exact Hk. reflexivity.
Qed.

Lemma normalize_mesh_shape {A : Scalar} (mesh : Mesh A) :
  exists m,
    normalize_mesh mesh = Ok m /\
    faces m = faces mesh /\
    length (vertices m) = length (vertices mesh) /\
    vertex_colors m = vertex_colors mesh.
Proof.
  unfold normalize_mesh.
  destruct (bounds mesh) as [[[lo hi]|]|e]; cbn [bind try_except].
  - eexists. split; [reflexivity|]. cbn [faces vertices vertex_colors].
    rewrite length_map. auto.
  - exists mesh. auto.
  - exists mesh. auto.
Qed.

Lemma normalize_mesh_bounds (mesh : Mesh RealA) lo hi :
  bounds mesh = Ok (Some (lo, hi)) ->
  normalize_mesh mesh
  = Ok (Trimesh
          (map (recenter (mean_axis0 [lo; hi])
                         (normalize_scale lo hi * (5 / 10))%R)
               (vertices mesh))
          (faces mesh) (vertex_colors mesh)).
Proof.
  intros Hb. unfold normalize_mesh. rewrite Hb. reflexivity.
Qed.

Lemma extent_nonneg (lo hi : vec RealA) :
  vle lo hi -> (0 <= vmax_component (vsub hi lo))%R.
Proof.
  destruct lo as [[lx ly] lz], hi as [[hx hy] hz]. simpl. intros (Hx & Hy & Hz).
  pose proof (Rmax_l (Rmax (hx - lx) (hy - ly)) (hz - lz)).
  pose proof (Rmax_l (hx - lx) (hy - ly)). lra.
Qed.

Lemma Rmax_div (a b k : R) :
  (0 < k)%R -> Rmax (a / k) (b / k) = (Rmax a b / k)%R.
Proof.
  intros Hk. assert (Hi : (0 < / k)%R) by (apply Rinv_0_lt_compat; exact Hk).
  unfold Rmax, Rdiv.
  destruct (Rle_dec a b), (Rle_dec (a * / k) (b * / k));
    try reflexivity; exfalso; nra.
Qed.

(** After [recenter] with the box's center and half its largest
    dimension, the box is centered at the origin and its largest dimension
    is 2. *)
Lemma recentered_box (lo hi : vec RealA) :
  let extent := vmax_component (vsub hi lo) in
  let c := mean_axis0 [lo; hi] in
  let k := (extent * (5 / 10))%R in
  (0 < extent)%R ->
  mean_axis0 [recenter c k lo; recenter c k hi] = (0, 0, 0)%R /\
  vmax_component (vsub (recenter c k hi) (recenter c k lo)) = 2%R.
Proof.
  intros extent c k Hpos.
  assert (Hk : (0 < k)%R) by (unfold k; lra).
  destruct lo as [[lx ly] lz], hi as [[hx hy] hz].
  unfold c, recenter, mean_axis0, vdiv, vsub, vadd, vmax_component in *.
  cbn [fold_left length fadd fsub fdiv fmaximum of_Z RealA] in *.
  change (Z.of_nat 2) with 2%Z. split.
  - assert (E : forall l h : R,
               (((l - (l + h) / 2) / k + (h - (l + h) / 2) / k) / 2 = 0)%R)
      by (intros; field; lra).
    rewrite !E. reflexivity.
  - assert (E : forall l h : R,
               ((h - (l + h) / 2) / k - (l - (l + h) / 2) / k
                = (h - l) / k)%R)
      by (intros; field; lra).
    rewrite !E, !Rmax_div by exact Hk. fold extent.
    change (extent / (extent * (5 / 10)) = 2)%R. field. lra.
Qed.


Lemma flat_triangle_bounds :
  bounds flat_triangle = Ok (Some (flat_lo, flat_hi)).
Proof.
  unfold bounds, flat_triangle, flat_lo, flat_hi. cbn.
  unfold Rmin, Rmax. repeat destruct (Rle_dec _ _); try lra.
  repeat f_equal.
Qed.




(** ** ThumbnailCameraPlanner *)

(** Vector identities in exact arithmetic *)

Lemma dot_cross_l (u v : vec RealA) : dot u (cross u v) = 0%R.
Proof.
  destruct u as [[ux uy] uz], v as [[vx vy] vz].
  cbn [dot cross fmul fadd fsub RealA].
  change (num RealA) with R in *. ring.
Qed.

Lemma dot_cross_r (u v : vec RealA) : dot (cross u v) u = 0%R.
Proof.
  destruct u as [[ux uy] uz], v as [[vx vy] vz].
  cbn [dot cross fmul fadd fsub RealA].
  change (num RealA) with R in *. ring.
Qed.

Lemma dot_cross_cross (u v : vec RealA) :
  dot (cross u v) (cross u v)
  = (dot u u * dot v v - dot u v * dot u v)%R.
Proof.
  destruct u as [[ux uy] uz], v as [[vx vy] vz].
  cbn [dot cross fmul fadd fsub RealA].
  change (num RealA) with R in *. ring.
Qed.

Lemma dot_vdiv_l (u v : vec RealA) (k : R) :
  k <> 0%R -> dot (vdiv u k) v = (dot u v / k)%R.
Proof.
  intros Hk. destruct u as [[ux uy] uz], v as [[vx vy] vz].
  cbn [dot vdiv fmul fadd fdiv RealA].
  change (num RealA) with R in *. field. exact Hk.
Qed.

Lemma dot_vdiv_r (u v : vec RealA) (k : R) :
  k <> 0%R -> dot u (vdiv v k) = (dot u v / k)%R.
Proof.
  intros Hk. destruct u as [[ux uy] uz], v as [[vx vy] vz].
  cbn [dot vdiv fmul fadd fdiv RealA].
  change (num RealA) with R in *. field. exact Hk.
Qed.

(** A vector of positive square length, divided by its norm, has unit
    length. *)
Lemma normalized_unit (v : vec RealA) :
  (0 < dot v v)%R -> dot (vdiv v (norm v)) (vdiv v (norm v)) = 1%R.
Proof.
  intros Hpos.
  assert (Hn : (0 < norm v)%R) by (apply sqrt_lt_R0; exact Hpos).
  rewrite dot_vdiv_l, dot_vdiv_r by lra.
  assert (Hs : (norm v * norm v = dot v v)%R)
    by (apply sqrt_sqrt; lra).
  set (n := norm v) in *. set (s := dot v v) in *.
  change (s / n / n = 1)%R. rewrite <- Hs. field. lra.
Qed.

Lemma dot_cross_second (u v : vec RealA) : dot (cross u v) v = 0%R.
Proof.
  destruct u as [[ux uy] uz], v as [[vx vy] vz].
  cbn [dot cross fmul fadd fsub RealA].
  change (num RealA) with R in *. ring.
Qed.

Lemma cross_up_pos (v : vec RealA) :
  fst (fst v) <> 0%R ->
  (0 < dot (cross v ((0, 0, 1)%R : vec RealA))
           (cross v ((0, 0, 1)%R : vec RealA)))%R.
Proof.
  destruct v as [[x y] z]. cbn [fst]. intros Hx.
  cbn [dot cross fmul fadd fsub RealA].
  change (num RealA) with R in *.
  assert (0 < x * x)%R by nra. nra.
Qed.

Lemma camera_size_pos (lo hi : vec RealA) :
  vle lo hi -> (0 < camera_size lo hi)%R.
Proof.
  intros Hle. pose proof (extent_nonneg lo hi Hle) as Hge.
  unfold camera_size. cbn [feqb of_Z RealA].
  destruct (Req_dec_T _ _); lra.
Qed.

(** The camera looks at the center from the direction (0.8, 0.8, 0.6). *)
Lemma camera_offset (lo hi : vec RealA) :
  vsub (mean_axis0 [lo; hi]) (camera_position lo hi)
  = (- (camera_size lo hi * (25 / 10) * (8 / 10)),
     - (camera_size lo hi * (25 / 10) * (8 / 10)),
     - (camera_size lo hi * (25 / 10) * (6 / 10)))%R.
Proof.
  unfold camera_position.
  destruct (mean_axis0 [lo; hi]) as [[cx cy] cz].
  set (s := camera_size lo hi).
  unfold vsub, vadd. rewrite !dec_real.
  change (10 ^ Z.of_nat 1)%Z with 10%Z.
  cbn [fsub fadd fmul RealA].
  assert (E : forall c t : R, (c - (c + t) = - t)%R) by (intros; ring).
  rewrite !E. reflexivity.
Qed.

(** In exact arithmetic the camera frame is orthonormal. *)
Lemma camera_frame_orthonormal (lo hi : vec RealA) :
  vle lo hi ->
  let f := camera_forward lo hi in
  let r := camera_right lo hi in
  let u := camera_up lo hi in
  dot r r = 1%R /\ dot u u = 1%R /\ dot f f = 1%R /\
  dot r u = 0%R /\ dot r f = 0%R /\ dot u f = 0%R.
Proof.
  intros Hle f r u.
  pose proof (camera_size_pos lo hi Hle) as Hs.
  set (s := camera_size lo hi) in *.
  (* forward *)
  assert (Hraw : vsub (mean_axis0 [lo; hi]) (camera_position lo hi)
                 = (- (s * (25 / 10) * (8 / 10)),
                    - (s * (25 / 10) * (8 / 10)),
                    - (s * (25 / 10) * (6 / 10)))%R)
    by apply camera_offset.
  set (raw := vsub (mean_axis0 [lo; hi]) (camera_position lo hi)) in *.
  assert (Hraw_pos : (0 < dot raw raw)%R).
  { rewrite Hraw. cbn [dot fmul fadd RealA]. nra. }
  assert (Hn : (0 < norm raw)%R) by (apply sqrt_lt_R0; exact Hraw_pos).
  assert (Hf : f = vdiv raw (norm raw)) by reflexivity.
  assert (Hff : dot f f = 1%R) by (rewrite Hf; apply normalized_unit; exact Hraw_pos).
  (* right *)
  set (world_up := (0, 0, 1)%R : vec RealA).
  set (rr := cross f world_up).
  assert (Hfx : fst (fst f) <> 0%R).
  { rewrite Hf. generalize (norm raw), Hn. rewrite Hraw. intros n Hn'.
    cbn [vdiv fst fdiv RealA].
    assert (Hi : (0 < / n)%R) by (apply Rinv_0_lt_compat; exact Hn').
    unfold Rdiv. nra. }
  assert (Hrr_pos : (0 < dot rr rr)%R)
    by (apply cross_up_pos; exact Hfx).
  assert (Hrn : (0 < norm rr)%R) by (apply sqrt_lt_R0; exact Hrr_pos).
  assert (Hr : r = vdiv rr (norm rr)) by reflexivity.
  assert (Hrr : dot r r = 1%R)
    by (rewrite Hr; apply normalized_unit; exact Hrr_pos).
  assert (Hrf : dot r f = 0%R).
  { rewrite Hr, dot_vdiv_l by lra. unfold rr. rewrite dot_cross_r.
    unfold Rdiv. apply Rmult_0_l. }
  assert (Hu : u = cross r f) by reflexivity.
  repeat split; try assumption.
  - rewrite Hu, dot_cross_cross, Hrr, Hff, Hrf.
    change (1 * 1 - 0 * 0 = 1)%R. ring.
  - rewrite Hu. apply dot_cross_l.
  - rewrite Hu. apply dot_cross_second.
Qed.

(** The four columns and the last row of the assembled matrix. *)
Lemma camera_matrix_columns {A : Scalar} (lo hi : vec A) :
  column (camera_matrix lo hi) 0 = camera_right lo hi /\
  column (camera_matrix lo hi) 1 = camera_up lo hi /\
  column (camera_matrix lo hi) 2 = vneg (camera_forward lo hi) /\
  column (camera_matrix lo hi) 3 = camera_position lo hi /\
  last_row (camera_matrix lo hi) = (of_Z A 0, of_Z A 0, of_Z A 0, of_Z A 1).
Proof.
  unfold camera_matrix.
  destruct (camera_right lo hi) as [[rx ry] rz].
  destruct (camera_up lo hi) as [[ux uy] uz].
  destruct (vneg (camera_forward lo hi)) as [[fx fy] fz].
  destruct (camera_position lo hi) as [[px py] pz].
  repeat split.
Qed.

Lemma get_camera_transform_bounds {A : Scalar} (mesh : Mesh A) lo hi :
  bounds mesh = Ok (Some (lo, hi)) ->
  get_camera_transform mesh = Ok (camera_matrix lo hi).
Proof. intros H. unfold get_camera_transform. rewrite H. reflexivity. Qed.

Lemma get_camera_transform_fallback {A : Scalar} (mesh : Mesh A) :
  bounds mesh = Ok None \/ raises (bounds mesh) ->
  get_camera_transform mesh = Ok eye4.
Proof.
  unfold get_camera_transform. intros [H | [e H]]; rewrite H; reflexivity.
Qed.

(** C10, as stated, fails: for the three coincident vertices of
    [far_mesh] the offset to the camera is absorbed by rounding, the
    forward vector has length zero, nothing raises, and the transform
    that comes back holds NaN where the identity holds 1 and 0. *)
Lemma far_mesh_transform_is_nan :
  bounds far_mesh = Ok (Some (far_point, far_point)) /\
  norm (vsub (mean_axis0 [far_point; far_point])
             (camera_position far_point far_point)) = 0%float /\
  exists m,
    get_camera_transform far_mesh = Ok m /\
    column m 0 = (nan, nan, nan) /\
    m <> eye4.
Proof.
  split; [vm_compute; reflexivity|].
  split; [vm_compute; reflexivity|].
  eexists. split; [vm_compute; reflexivity|].
  split; [vm_compute; reflexivity|].
  intros H.
  apply (f_equal (fun m : mat4 Float64 =>
                    PrimFloat.is_nan (fst (fst (column m 0))))) in H.
  vm_compute in H. discriminate.
Qed.

(** C10, amended.  When the mesh has bounds, the transform is the 4x4
    matrix with columns right, up, -forward and the camera position over
    the row (0, 0, 0, 1); the camera position is
    [center + (size * 2.5) * (0.8, 0.8, 0.6)], [size] being the largest
    dimension of the box, or 1 when that is zero; in exact arithmetic
    right, up and forward are unit vectors orthogonal to each other.  The
    identity comes back when the computation raises (a face out of range,
    or no referenced vertex and so no bounds); a normalization by a zero
    length raises nothing. *)
Theorem camera_transform_frame :
  (forall (A : Scalar) (mesh : Mesh A) (lo hi : vec A),
     bounds mesh = Ok (Some (lo, hi)) ->
     let m := camera_matrix lo hi in
     get_camera_transform mesh = Ok m /\
     column m 0 = camera_right lo hi /\
     column m 1 = camera_up lo hi /\
     column m 2 = vneg (camera_forward lo hi) /\
     column m 3 = camera_position lo hi /\
     last_row m = (of_Z A 0, of_Z A 0, of_Z A 0, of_Z A 1) /\
     camera_position lo hi
     = vadd (mean_axis0 [lo; hi])
            (vscale (camera_size lo hi * dec A 25 1)%num
                    (dec A 8 1, dec A 8 1, dec A 6 1)) /\
     camera_size lo hi
     = (if feqb A (vmax_component (vsub hi lo)) (of_Z A 0) then of_Z A 1
        else vmax_component (vsub hi lo))) /\
  (forall (A : Scalar) (mesh : Mesh A),
     bounds mesh = Ok None \/ raises (bounds mesh) ->
     get_camera_transform mesh = Ok eye4) /\
  (forall (mesh : Mesh RealA) (lo hi : vec RealA),
     bounds mesh = Ok (Some (lo, hi)) ->
     let f := camera_forward lo hi in
     let r := camera_right lo hi in
     let u := camera_up lo hi in
     dot r r = 1%R /\ dot u u = 1%R /\ dot f f = 1%R /\
     dot r u = 0%R /\ dot r f = 0%R /\ dot u f = 0%R).
Proof.
  split; [|split].
  - intros A mesh lo hi Hb m.
    destruct (camera_matrix_columns lo hi) as (C0 & C1 & C2 & C3 & L).
    split; [apply get_camera_transform_bounds; exact Hb|].
    repeat split; try assumption; reflexivity.
  - intros A mesh. apply get_camera_transform_fallback.
  - intros mesh lo hi Hb. apply camera_frame_orthonormal.
    eapply bounds_ordered. exact Hb.
Qed.

Lemma cube_corner_triangle_bounds :
  bounds cube_corner_triangle = Ok (Some (cube_lo, cube_hi)).
Proof.
  unfold bounds, cube_corner_triangle, cube_lo, cube_hi. cbn.
  unfold Rmin, Rmax. repeat destruct (Rle_dec _ _); try lra.
  repeat f_equal.
Qed.

(** C10, amended, on the bounds of the unit cube. *)
Lemma camera_transform_frame_witness :
  bounds cube_corner_triangle = Ok (Some (cube_lo, cube_hi)) /\
  dot (camera_right cube_lo cube_hi) (camera_right cube_lo cube_hi) = 1%R /\
  dot (camera_up cube_lo cube_hi) (camera_up cube_lo cube_hi) = 1%R /\
  dot (camera_right cube_lo cube_hi) (camera_up cube_lo cube_hi) = 0%R.
Proof.
  split; [exact cube_corner_triangle_bounds|].
  destruct (proj2 (proj2 camera_transform_frame) cube_corner_triangle
              cube_lo cube_hi cube_corner_triangle_bounds)
    as (Hr & Hu & _ & Hru & _).
  auto.
Defined.




(** ** MeshCleaner: the choice of the component *)

(** [max(items, key=key)] with the elements seen so far split around the
    current best: everything before it has a smaller key, everything
    after it a key that is not greater. *)
Lemma py_max_from_split {T : Type} (key : T -> nat) :
  forall items s1 best s2,
    (forall x, In x s1 -> key x < key best) ->
    (forall x, In x s2 -> key x <= key best) ->
    exists pre post,
      s1 ++ best :: s2 ++ items = pre ++ py_max_from key best items :: post /\
      (forall x, In x pre -> key x < key (py_max_from key best items)) /\
      (forall x, In x post -> key x <= key (py_max_from key best items)).
Proof.
  induction items as [|x items IH]; intros s1 best s2 H1 H2.
  - exists s1, s2. rewrite app_nil_r. auto.
  - simpl. destruct (key best <? key x) eqn:Hlt.
    + apply Nat.ltb_lt in Hlt.
      destruct (IH (s1 ++ best :: s2) x []) as (pre & post & Heq & Hpre & Hpost).
      * intros y Hy. apply in_app_or in Hy. destruct Hy as [Hy|[<-|Hy]].
        -- specialize (H1 y Hy). lia.
        -- exact Hlt.
        -- specialize (H2 y Hy). lia.
      * intros y [].
      * exists pre, post. split; [|auto].
        rewrite <- Heq. simpl. rewrite <- app_assoc. reflexivity.
    + apply Nat.ltb_ge in Hlt.
      destruct (IH s1 best (s2 ++ [x])) as (pre & post & Heq & Hpre & Hpost).
      * exact H1.
      * intros y Hy. apply in_app_or in Hy. destruct Hy as [Hy|[<-|[]]].
        -- apply H2. exact Hy.
        -- exact Hlt.
      * exists pre, post. split; [|auto].
        rewrite <- Heq. rewrite <- app_assoc. reflexivity.
Qed.

(** X4.  With more than one component, [clean_mesh] goes on with the first
    component that has the most vertices; otherwise with the mesh it
    split. *)
Lemma keep_largest_first_maximal {A : Scalar} (mesh : Mesh A)
    (components : list (Mesh A)) :
  (length components <= 1 -> keep_largest mesh components = mesh) /\
  (1 < length components ->
   exists pre post,
     components = pre ++ keep_largest mesh components :: post /\
     (forall c, In c pre ->
        length (vertices c) < length (vertices (keep_largest mesh components))) /\
     (forall c, In c post ->
        length (vertices c) <= length (vertices (keep_largest mesh components)))).
Proof.
  unfold keep_largest. split; intros Hlen.
  - replace (1 <? length components) with false
      by (symmetry; apply Nat.ltb_ge; exact Hlen).
    reflexivity.
  - replace (1 <? length components) with true
      by (symmetry; apply Nat.ltb_lt; exact Hlen).
    destruct components as [|c rest]; [simpl in Hlen; lia|].
    destruct (py_max_from_split (fun x : Mesh A => length (vertices x))
                rest [] c []) as (pre & post & Heq & Hpre & Hpost).
    + intros x [].
    + intros x [].
    + exists pre, post. simpl in Heq. auto.
Qed.
(** * The rest of the processor, the exporter and the whole run *)

(** ** SharpnessEnhancer: what the constructor is given *)

Lemma referenced_neighbor_faces (fs : list face) (i : nat) :
  referenced fs i = false -> neighbor_faces fs i = [].
Proof.
  unfold referenced, neighbor_faces. induction fs as [|f fs IH]; simpl.
  - reflexivity.
  - destruct (face_has f i); simpl; [discriminate|exact IH].
Qed.

Section KeepFacts.

Context {A : Scalar}.
Variable arccos : num A -> num A.
Variable trimesh_Trimesh :
  list (vec A) -> list face -> option (list rgba) -> result (Mesh A).

(** One step writes at most position [i], and nothing when no face names
    vertex [i]. *)
Lemma vertex_step_writes (vs : list (vec A)) fs nv nv' i v :
  vertex_step arccos vs fs nv i v = Ok nv' ->
  length nv' = length nv /\
  (forall j, j <> i -> nv' !! j = nv !! j) /\
  (neighbor_faces fs i = [] -> nv' = nv).
Proof.
  unfold vertex_step. intros H.
  destruct (length (neighbor_faces fs i) =? 0) eqn:Hnf.
  - injection H as <-. auto.
  - assert (Hne : neighbor_faces fs i <> []).
    { intros E. rewrite E in Hnf. discriminate. }
    destruct (0 <? length (neighbors fs i)); [|injection H as <-; tauto].
    destruct (for_each _ (neighbors fs i)) as [es|e]; [|discriminate].
    cbn [bind] in H.
    destruct (negb _); [|injection H as <-; tauto].
    destruct (for_each (getitem vs) (neighbors fs i)) as [ps|e];
      [|discriminate].
    cbn [bind] in H. injection H as <-.
    split; [apply length_insert|]. split; [|tauto].
    intros j Hj. apply list_lookup_insert_ne. auto.
Qed.

Lemma vertex_loop_writes (vs : list (vec A)) fs :
  forall rest i nv nv',
    vertex_loop arccos vs fs i rest nv = Ok nv' ->
    length nv' = length nv /\
    (forall j, neighbor_faces fs j = [] -> nv' !! j = nv !! j).
Proof.
  induction rest as [|v rest IH]; intros i nv nv' H; simpl in H.
  - injection H as <-. auto.
  - destruct (vertex_step arccos vs fs nv i v) as [nv1|e] eqn:Hstep;
      [|discriminate].
    cbn [bind] in H.
    destruct (vertex_step_writes _ _ _ _ _ _ Hstep) as (L1 & O1 & N1).
    destruct (IH _ _ _ H) as (L2 & N2).
    split; [congruence|].
    intros j Hj. rewrite (N2 j Hj).
    destruct (Nat.eq_dec j i) as [->|Hne].
    + rewrite (N1 Hj). reflexivity.
    + apply O1. exact Hne.
Qed.

Lemma smoothing_passes_writes (fs : list face) :
  forall n (vs vs' : list (vec A)),
    smoothing_passes arccos n vs fs = Ok vs' ->
    length vs' = length vs /\
    (forall j, neighbor_faces fs j = [] -> vs' !! j = vs !! j).
Proof.
  induction n as [|n IH]; intros vs vs' H; simpl in H.
  - injection H as <-. auto.
  - destruct (smoothing_pass arccos vs fs) as [v1|e] eqn:Hpass;
      [|discriminate].
    cbn [bind] in H. unfold smoothing_pass in Hpass.
    destruct (vertex_loop_writes _ _ _ _ _ _ Hpass) as (L1 & N1).
    destruct (IH _ _ H) as (L2 & N2).
    split; [congruence|].
    intros j Hj. rewrite (N2 j Hj). apply N1. exact Hj.
Qed.


End KeepFacts.

(** ** SharpnessEnhancer: smoothing never leaves the box *)

Lemma for_each_getitem_from {T : Type} (P : T -> Prop) (l : list T) :
  Forall P l ->
  forall indices items,
    for_each (getitem l) indices = Ok items ->
    Forall P items /\ length items = length indices.
Proof.
  intros Hall. induction indices as [|i indices IH]; intros items H.
  - injection H as <-. split; [constructor|reflexivity].
  - simpl in H. unfold getitem at 1 in H.
    destruct (l !! i) as [x|] eqn:Hx; [|discriminate]. cbn [bind] in H.
    destruct (for_each (getitem l) indices) as [xs|e]; [|discriminate].
    cbn [bind] in H. injection H as <-.
    destruct (IH xs eq_refl) as [Hxs Hlen].
    split; [|simpl; congruence].
    constructor; [|exact Hxs].
    rewrite List.Forall_forall in Hall. apply Hall.
    apply list_elem_of_In. eapply list_elem_of_lookup_2. exact Hx.
Qed.

Lemma sum_inside (lo hi : vec RealA) (rows : list (vec RealA)) :
  Forall (inside lo hi) rows ->
  forall (acc : vec RealA) (k : R),
    inside (vscale (A := RealA) k lo) (vscale (A := RealA) k hi) acc ->
    inside (vscale (A := RealA) (k + INR (length rows))%R lo)
           (vscale (A := RealA) (k + INR (length rows))%R hi)
           (fold_left vadd rows acc).
Proof.
  induction 1 as [|r rows Hr _ IH]; intros acc k Hacc.
  - simpl. replace (k + 0)%R with k by lra. exact Hacc.
  - cbn [fold_left]. change (length (r :: rows)) with (S (length rows)).
    rewrite S_INR.
    replace (k + (INR (length rows) + 1))%R
      with ((k + 1) + INR (length rows))%R by lra.
    apply IH.
    destruct lo as [[lx ly] lz], hi as [[hx hy] hz], acc as [[ax ay] az],
             r as [[rx ry] rz].
    unfold inside in *. simpl in *. lra.
Qed.

Lemma mean_inside (lo hi : vec RealA) (rows : list (vec RealA)) :
  rows <> [] -> Forall (inside lo hi) rows ->
  inside lo hi (mean_axis0 rows).
Proof.
  destruct rows as [|r rows]; [congruence|]. intros _ Hall.
  inversion Hall as [|? ? Hr Hrows]; subst.
  assert (H1 : inside (vscale (A := RealA) 1%R lo) (vscale (A := RealA) 1%R hi) r).
  { destruct lo as [[lx ly] lz], hi as [[hx hy] hz], r as [[rx ry] rz].
    unfold inside in *. simpl in *. lra. }
  pose proof (sum_inside lo hi rows Hrows r 1%R H1) as Hsum.
  unfold mean_axis0.
  change (of_Z RealA (Z.of_nat (length (r :: rows))))
    with (IZR (Z.of_nat (S (length rows)))).
  rewrite <- INR_IZR_INZ, S_INR.
  set (n := INR (length rows)) in *.
  assert (Hn : (0 <= n)%R) by apply pos_INR.
  destruct (fold_left vadd rows r) as [[sx sy] sz].
  destruct lo as [[lx ly] lz], hi as [[hx hy] hz].
  unfold inside in *. simpl in *.
  assert (Hpos : (0 < n + 1)%R) by lra.
  assert (D : forall a s : R, ((1 + n) * a <= s -> a <= s / (n + 1))%R).
  { intros a s Ha.
    assert (E : (s = s / (n + 1) * (n + 1))%R) by (field; lra).
    apply Rmult_le_reg_r with (n + 1)%R; [exact Hpos|]. rewrite <- E. lra. }
  assert (U : forall a s : R, (s <= (1 + n) * a -> s / (n + 1) <= a)%R).
  { intros a s Ha.
    assert (E : (s = s / (n + 1) * (n + 1))%R) by (field; lra).
    apply Rmult_le_reg_r with (n + 1)%R; [exact Hpos|]. rewrite <- E. lra. }
  repeat split; (apply D || apply U); tauto.
Qed.

Lemma blend_inside (lo hi v c : vec RealA) :
  inside lo hi v -> inside lo hi c ->
  inside lo hi (vadd (vscale (dec RealA 8 1) v) (vscale (dec RealA 2 1) c)).
Proof.
  destruct lo as [[lx ly] lz], hi as [[hx hy] hz], v as [[vx vy] vz],
           c as [[cx cy] cz].
  unfold inside, dec. simpl.
  change (10 ^ Z.of_nat 1)%Z with 10%Z. lra.
Qed.

Section BoxFacts.

Variable arccos : R -> R.
Variable trimesh_Trimesh :
  list (vec RealA) -> list face -> option (list rgba) -> result (Mesh RealA).
Variable lo : vec RealA.
Variable hi : vec RealA.

Lemma vertex_step_inside (vs : list (vec RealA)) fs nv nv' i v :
  Forall (inside lo hi) vs -> Forall (inside lo hi) nv -> inside lo hi v ->
  vertex_step (A := RealA) arccos vs fs nv i v = Ok nv' ->
  Forall (inside lo hi) nv'.
Proof.
  intros Hvs Hnv Hv. unfold vertex_step.
  destruct (length (neighbor_faces fs i) =? 0);
    [intros H; injection H as <-; exact Hnv|].
  destruct (0 <? length (neighbors fs i)) eqn:Hlen;
    [|intros H; injection H as <-; exact Hnv].
  destruct (for_each _ (neighbors fs i)) as [es|e]; [|discriminate].
  cbn [bind]. destruct (negb _); [|intros H; injection H as <-; exact Hnv].
  destruct (for_each (getitem vs) (neighbors fs i)) as [ps|e] eqn:Hps;
    [|discriminate].
  cbn [bind]. intros H. injection H as <-.
  destruct (for_each_getitem_from _ vs Hvs _ _ Hps) as [Hin Hl].
  apply Nat.ltb_lt in Hlen.
  apply Forall_insert; [exact Hnv|].
  apply blend_inside; [exact Hv|].
  apply mean_inside; [|exact Hin].
  intros E. rewrite E in Hl. simpl in Hl. lia.
Qed.

Lemma vertex_loop_inside (vs : list (vec RealA)) fs :
  Forall (inside lo hi) vs ->
  forall rest i nv nv',
    Forall (inside lo hi) rest -> Forall (inside lo hi) nv ->
    vertex_loop (A := RealA) arccos vs fs i rest nv = Ok nv' ->
    Forall (inside lo hi) nv'.
Proof.
  intros Hvs. induction rest as [|v rest IH]; intros i nv nv' Hrest Hnv H.
  - injection H as <-. exact Hnv.
  - simpl in H. inversion Hrest as [|? ? Hv Hrest']; subst.
    destruct (vertex_step (A := RealA) arccos vs fs nv i v) as [nv1|e] eqn:Hstep;
      [|discriminate].
    cbn [bind] in H.
    eapply IH; [exact Hrest'| |exact H].
    exact (vertex_step_inside vs fs nv nv1 i v Hvs Hnv Hv Hstep).
Qed.

Lemma smoothing_passes_inside (fs : list face) :
  forall n (vs vs' : list (vec RealA)),
    Forall (inside lo hi) vs ->
    smoothing_passes (A := RealA) arccos n vs fs = Ok vs' ->
    Forall (inside lo hi) vs'.
Proof.
  induction n as [|n IH]; intros vs vs' Hvs H; simpl in H.
  - injection H as <-. exact Hvs.
  - destruct (smoothing_pass (A := RealA) arccos vs fs) as [v1|e] eqn:Hpass;
      [|discriminate].
    cbn [bind] in H. eapply IH; [|exact H].
    eapply vertex_loop_inside; [exact Hvs|exact Hvs|exact Hvs|exact Hpass].
Qed.

(** X3.  In exact arithmetic the enhancement never moves a vertex out of an
    axis-aligned box that holds all vertices of the input: a new position
    is a convex combination of old ones.  So the positions handed to the
    constructor lie in the box, and so do the vertices of the enhanced
    mesh when the constructor of [trimesh] makes up no position of its own
    (it merges and drops vertices, each vertex it keeps being one it was
    given). *)
Theorem enhance_sharpness_stays_inside (mesh : Mesh RealA) :
  (forall vs fs cs m,
     trimesh_Trimesh vs fs cs = Ok m -> incl (vertices m) vs) ->
  Forall (inside lo hi) (vertices mesh) ->
  (forall vs,
     smoothing_passes (A := RealA) arccos 3 (vertices mesh) (faces mesh)
     = Ok vs ->
     Forall (inside lo hi) vs) /\
  exists m,
    enhance_sharpness (A := RealA) arccos trimesh_Trimesh mesh = Ok m /\
    Forall (inside lo hi) (vertices m).
Proof.
  intros Hkeeps Hin.
  assert (Hpasses : forall vs,
            smoothing_passes (A := RealA) arccos 3 (vertices mesh)
                             (faces mesh) = Ok vs ->
            Forall (inside lo hi) vs).
  { intros vs H. eapply smoothing_passes_inside; eauto. }
  split; [exact Hpasses|].
  unfold enhance_sharpness.
  destruct (smoothing_passes (A := RealA) arccos 3 (vertices mesh)
                             (faces mesh))
    as [vs|e] eqn:H; cbn [bind try_except]; [|exists mesh; auto].
  destruct (trimesh_Trimesh vs (faces mesh) (visual_vertex_colors mesh))
    as [m|e] eqn:Hm; [|exists mesh; auto].
  exists m. split; [reflexivity|].
  pose proof (Hpasses vs eq_refl) as Hvs.
  rewrite List.Forall_forall in Hvs. apply List.Forall_forall.
  intros p Hp. apply Hvs. exact (Hkeeps _ _ _ _ Hm p Hp).
Qed.

End BoxFacts.

Lemma enhance_sharpness_stays_inside_witness :
  (forall vs fs cs (m : Mesh RealA),
     stored_Trimesh vs fs cs = Ok m -> incl (vertices m) vs) /\
  Forall (inside (0, 0, 0)%R (1, 1, 0)%R) (vertices (bare_triangle RealA)) /\
  (forall vs,
     smoothing_passes (A := RealA) acos 3 (vertices (bare_triangle RealA))
                      (faces (bare_triangle RealA)) = Ok vs ->
     Forall (inside (0, 0, 0)%R (1, 1, 0)%R) vs) /\
  exists m,
    enhance_sharpness (A := RealA) acos stored_Trimesh (bare_triangle RealA)
    = Ok m /\
    Forall (inside (0, 0, 0)%R (1, 1, 0)%R) (vertices m).
Proof.
  assert (K : forall vs fs cs (m : Mesh RealA),
            stored_Trimesh vs fs cs = Ok m -> incl (vertices m) vs).
  { intros vs fs cs m Hm. injection Hm as <-. apply incl_refl. }
  assert (H : Forall (inside (0, 0, 0)%R (1, 1, 0)%R)
                     (vertices (bare_triangle RealA))).
  { unfold bare_triangle. cbn [vertices of_Z RealA].
    repeat (apply List.Forall_cons; [unfold inside, vle; lra|]).
    apply List.Forall_nil. }
  split; [exact K|]. split; [exact H|].
  exact (enhance_sharpness_stays_inside acos stored_Trimesh (0, 0, 0)%R
           (1, 1, 0)%R (bare_triangle RealA) K H).
Defined.

(** ** MeshNormalizer: edge cases and composition *)

(** X5.  A mesh without bounds comes back as it is: with no face, or with a
    face that names a vertex the mesh does not have, the computation of
    the box fails and the handler returns the input. *)
Theorem normalize_mesh_without_bounds {A : Scalar} (mesh : Mesh A) :
  faces mesh = [] \/
  forallb (face_in_range (length (vertices mesh))) (faces mesh) = false ->
  normalize_mesh mesh = Ok mesh.
Proof.
  intros H. unfold normalize_mesh, bounds.
  destruct (forallb _ (faces mesh)) eqn:Hr.
  - destruct H as [Hf|Hf]; [|discriminate].
    assert (E : select_from (referenced (faces mesh)) 0 (vertices mesh) = []).
    { rewrite Hf. clear. generalize 0.
      induction (vertices mesh) as [|v vs IH]; intros n; simpl; auto. }
    rewrite E. reflexivity.
  - reflexivity.
Qed.

Lemma normalize_mesh_without_bounds_witness :
  (faces (dangling_triangle Float64) = [] \/
   forallb (face_in_range (length (vertices (dangling_triangle Float64))))
           (faces (dangling_triangle Float64)) = false) /\
  normalize_mesh (dangling_triangle Float64) = Ok (dangling_triangle Float64).
Proof.
  assert (H : faces (dangling_triangle Float64) = [] \/
              forallb (face_in_range
                         (length (vertices (dangling_triangle Float64))))
                      (faces (dangling_triangle Float64)) = false)
    by (right; reflexivity).
  split; [exact H|].
  exact (normalize_mesh_without_bounds (dangling_triangle Float64) H).
Defined.

Lemma vmin_le_r (u v : vec RealA) : vle (vmin u v) v.
Proof.
  destruct u as [[ux uy] uz], v as [[vx vy] vz]. simpl.
  pose proof (Rmin_r ux vx). pose proof (Rmin_r uy vy).
  pose proof (Rmin_r uz vz). lra.
Qed.

Lemma vmax_ge_r (u v : vec RealA) : vle v (vmax u v).
Proof.
  destruct u as [[ux uy] uz], v as [[vx vy] vz]. simpl.
  pose proof (Rmax_r ux vx). pose proof (Rmax_r uy vy).
  pose proof (Rmax_r uz vz). lra.
Qed.

Lemma fold_vmin_le_all (ps : list (vec RealA)) :
  forall p q, In q (p :: ps) -> vle (fold_left vmin ps p) q.
Proof.
  induction ps as [|r ps IH]; intros p q Hq.
  - destruct Hq as [<-|[]]. apply vle_refl.
  - cbn [fold_left]. destruct Hq as [<-|[<-|Hq]].
    + eapply vle_trans; [apply fold_vmin_le | apply vmin_le_l].
    + eapply vle_trans; [apply fold_vmin_le | apply vmin_le_r].
    + apply IH. right. exact Hq.
Qed.

Lemma fold_vmax_ge_all (ps : list (vec RealA)) :
  forall p q, In q (p :: ps) -> vle q (fold_left vmax ps p).
Proof.
  induction ps as [|r ps IH]; intros p q Hq.
  - destruct Hq as [<-|[]]. apply vle_refl.
  - cbn [fold_left]. destruct Hq as [<-|[<-|Hq]].
    + eapply vle_trans; [apply vmax_ge_l | apply fold_vmax_ge].
    + eapply vle_trans; [apply vmax_ge_r | apply fold_vmax_ge].
    + apply IH. right. exact Hq.
Qed.

Lemma select_from_in {T : Type} (keep : nat -> bool) (l : list T) :
  forall start i x,
    l !! i = Some x -> keep (start + i) = true ->
    In x (select_from keep start l).
Proof.
  induction l as [|y l IH]; intros start i x Hx Hk; [discriminate|].
  destruct i as [|i]; simpl in *.
  - injection Hx as ->. rewrite Nat.add_0_r in Hk. rewrite Hk. left.
    reflexivity.
  - assert (Hin : In x (select_from keep (S start) l)).
    { apply (IH (S start) i x Hx).
      replace (S start + i) with (start + S i) by lia. exact Hk. }
    destruct (keep start); [right|]; exact Hin.
Qed.

(** A vertex that a face names lies in the bounds of the mesh. *)
Lemma bounds_hold_referenced (mesh : Mesh RealA) lo hi i v :
  bounds mesh = Ok (Some (lo, hi)) ->
  referenced (faces mesh) i = true ->
  vertices mesh !! i = Some v ->
  inside lo hi v.
Proof.
  unfold bounds. destruct (forallb _ _); [|discriminate].
  intros H Hr Hv.
  pose proof (select_from_in (referenced (faces mesh)) (vertices mesh)
                0 i v Hv Hr) as Hin.
  destruct (select_from _ _ _) as [|p ps]; [destruct Hin|].
  inversion H; subst. split.
  - apply fold_vmin_le_all. exact Hin.
  - apply fold_vmax_ge_all. exact Hin.
Qed.

(** The normalized mesh and its box, when the box of the input has a
    nonzero extent. *)
Lemma normalize_mesh_box (mesh : Mesh RealA) (lo hi : vec RealA) :
  bounds mesh = Ok (Some (lo, hi)) ->
  vmax_component (vsub hi lo) <> 0%R ->
  exists m lo' hi',
    normalize_mesh mesh = Ok m /\
    faces m = faces mesh /\
    bounds m = Ok (Some (lo', hi')) /\
    mean_axis0 [lo'; hi'] = (0, 0, 0)%R /\
    vmax_component (vsub hi' lo') = 2%R.
Proof.
  intros Hb Hne.
  pose proof (extent_nonneg lo hi (bounds_ordered mesh lo hi Hb)) as Hge.
  assert (Hpos : (0 < vmax_component (vsub hi lo))%R) by lra.
  assert (Hscale : normalize_scale lo hi = vmax_component (vsub hi lo)).
  { unfold normalize_scale. cbn [feqb of_Z RealA].
    destruct (Req_dec_T _ _) as [H0|_]; [contradiction|reflexivity]. }
  destruct (recentered_box lo hi Hpos) as [Hcenter Hsize].
  eexists. eexists. eexists.
  split; [apply normalize_mesh_bounds; exact Hb|].
  split; [reflexivity|].
  rewrite Hscale.
  split; [apply bounds_recenter; [lra | exact Hb]|].
  split; [exact Hcenter | exact Hsize].
Qed.

(** X6.  In exact arithmetic, on a mesh whose box has a nonzero extent, every
    vertex that a face names ends in the cube from (-1, -1, -1) to
    (1, 1, 1). *)
Theorem normalize_mesh_fits_cube (mesh : Mesh RealA) (lo hi : vec RealA) :
  bounds mesh = Ok (Some (lo, hi)) ->
  vmax_component (vsub hi lo) <> 0%R ->
  exists m,
    normalize_mesh mesh = Ok m /\
    forall i v,
      referenced (faces mesh) i = true ->
      vertices m !! i = Some v ->
      inside (-1, -1, -1)%R (1, 1, 1)%R v.
Proof.
  intros Hb Hne.
  destruct (normalize_mesh_box mesh lo hi Hb Hne)
    as (m & lo' & hi' & Hm & Hf & Hb' & Hc & He).
  exists m. split; [exact Hm|]. intros i v Hr Hv.
  rewrite <- Hf in Hr.
  pose proof (bounds_hold_referenced m lo' hi' i v Hb' Hr Hv) as [Hlo Hhi].
  destruct lo' as [[lx ly] lz], hi' as [[hx hy] hz], v as [[x y] z].
  unfold mean_axis0, vdiv, vadd in Hc.
  cbn [fold_left length fadd fdiv of_Z RealA] in Hc.
  change (Z.of_nat 2) with 2%Z in Hc.
  injection Hc as Hx Hy Hz.
  cbn [vmax_component vsub fmaximum fsub RealA] in He.
  pose proof (Rmax_l (Rmax (hx - lx) (hy - ly)) (hz - lz)).
  pose proof (Rmax_r (Rmax (hx - lx) (hy - ly)) (hz - lz)).
  pose proof (Rmax_l (hx - lx) (hy - ly)).
  pose proof (Rmax_r (hx - lx) (hy - ly)).
  unfold inside. simpl in *. lra.
Qed.

Lemma normalize_mesh_fits_cube_witness :
  bounds flat_triangle = Ok (Some (flat_lo, flat_hi)) /\
  vmax_component (vsub flat_hi flat_lo) <> 0%R /\
  exists m,
    normalize_mesh flat_triangle = Ok m /\
    forall i v,
      referenced (faces flat_triangle) i = true ->
      vertices m !! i = Some v ->
      inside (-1, -1, -1)%R (1, 1, 1)%R v.
Proof.
  assert (Hne : vmax_component (vsub flat_hi flat_lo) <> 0%R).
  { cbn. unfold Rmax. repeat destruct (Rle_dec _ _); lra. }
  split; [exact flat_triangle_bounds|]. split; [exact Hne|].
  exact (normalize_mesh_fits_cube flat_triangle flat_lo flat_hi
           flat_triangle_bounds Hne).
Defined.

(** X7.  In exact arithmetic, normalizing a normalized mesh changes nothing. *)
Theorem normalize_mesh_idempotent (mesh : Mesh RealA) (lo hi : vec RealA) :
  bounds mesh = Ok (Some (lo, hi)) ->
  vmax_component (vsub hi lo) <> 0%R ->
  exists m, normalize_mesh mesh = Ok m /\ normalize_mesh m = Ok m.
Proof.
  intros Hb Hne.
  destruct (normalize_mesh_box mesh lo hi Hb Hne)
    as (m & lo' & hi' & Hm & Hf & Hb' & Hc & He).
  exists m. split; [exact Hm|].
  rewrite (normalize_mesh_bounds m lo' hi' Hb'), Hc.
  assert (Hscale : normalize_scale lo' hi' = 2%R).
  { unfold normalize_scale. rewrite He. cbn [feqb of_Z RealA].
    destruct (Req_dec_T _ _) as [H0|_]; [lra|reflexivity]. }
  rewrite Hscale.
  assert (Hid : forall v : vec RealA,
             recenter (0, 0, 0)%R (2 * (5 / 10))%R v = v).
  { intros [[x y] z]. unfold recenter. simpl. f_equal; [f_equal|]; field. }
  rewrite (map_ext _ (fun v => v) Hid), map_id.
  destruct m. reflexivity.
Qed.

Lemma normalize_mesh_idempotent_witness :
  bounds flat_triangle = Ok (Some (flat_lo, flat_hi)) /\
  vmax_component (vsub flat_hi flat_lo) <> 0%R /\
  exists m, normalize_mesh flat_triangle = Ok m /\ normalize_mesh m = Ok m.
Proof.
  assert (Hne : vmax_component (vsub flat_hi flat_lo) <> 0%R).
  { cbn. unfold Rmax. repeat destruct (Rle_dec _ _); lra. }
  split; [exact flat_triangle_bounds|]. split; [exact Hne|].
  exact (normalize_mesh_idempotent flat_triangle flat_lo flat_hi
           flat_triangle_bounds Hne).
Defined.

Lemma extent_recenter (lo hi c : vec RealA) (k : R) :
  (0 < k)%R ->
  vmax_component (vsub (recenter c k hi) (recenter c k lo))
  = (vmax_component (vsub hi lo) / k)%R.
Proof.
  intros Hk. destruct lo as [[lx ly] lz], hi as [[hx hy] hz],
                      c as [[cx cy] cz].
  unfold recenter, vdiv, vsub, vmax_component.
  cbn [fsub fdiv fmaximum RealA].
  assert (E : forall l h c0 : R,
             ((h - c0) / k - (l - c0) / k = (h - l) / k)%R)
    by (intros; field; lra).
  rewrite !E, !Rmax_div by exact Hk. reflexivity.
Qed.

(** X8.  In exact arithmetic the normalized mesh does not depend on where the
    input is placed nor on how large it is: moving every vertex by the
    same vector and dividing it by the same positive factor before
    normalizing changes nothing in the result. *)
Theorem normalize_mesh_placement_invariant
    (mesh : Mesh RealA) (lo hi c : vec RealA) (k : R) :
  bounds mesh = Ok (Some (lo, hi)) ->
  vmax_component (vsub hi lo) <> 0%R ->
  (0 < k)%R ->
  normalize_mesh (Trimesh (map (recenter c k) (vertices mesh)) (faces mesh)
                          (vertex_colors mesh))
  = normalize_mesh mesh.
Proof.
  intros Hb Hne Hk.
  rewrite (normalize_mesh_bounds mesh lo hi Hb).
  rewrite (normalize_mesh_bounds _ _ _ (bounds_recenter mesh lo hi c k Hk Hb)).
  cbn [vertices faces vertex_colors]. rewrite map_map.
  f_equal. f_equal. apply map_ext. intros v.
  assert (Hs : normalize_scale lo hi = vmax_component (vsub hi lo)).
  { unfold normalize_scale. cbn [feqb of_Z RealA].
    destruct (Req_dec_T _ _) as [H0|_]; [contradiction|reflexivity]. }
  assert (Hs' : normalize_scale (recenter c k lo) (recenter c k hi)
                = (vmax_component (vsub hi lo) / k)%R).
  { unfold normalize_scale. rewrite extent_recenter by exact Hk.
    cbn [feqb of_Z RealA].
    destruct (Req_dec_T _ _) as [H0|_]; [|reflexivity].
    exfalso. apply Hne.
    apply Rmult_eq_reg_r with (/ k)%R;
      [|apply Rinv_neq_0_compat; lra].
    unfold Rdiv in H0. rewrite H0. ring. }
  rewrite Hs, Hs'. set (e := vmax_component (vsub hi lo)) in *.
  destruct lo as [[lx ly] lz], hi as [[hx hy] hz], c as [[cx cy] cz],
           v as [[x y] z].
  unfold recenter, mean_axis0, vdiv, vsub, vadd.
  cbn [fold_left length fadd fsub fdiv of_Z RealA].
  change (Z.of_nat 2) with 2%Z.
  change (num RealA) with R in *.
  f_equal; [f_equal|]; field; lra.
Qed.

Lemma normalize_mesh_placement_invariant_witness :
  bounds flat_triangle = Ok (Some (flat_lo, flat_hi)) /\
  vmax_component (vsub flat_hi flat_lo) <> 0%R /\
  (0 < 2)%R /\
  normalize_mesh (Trimesh (map (recenter (1, 1, 1)%R 2%R)
                               (vertices flat_triangle))
                          (faces flat_triangle)
                          (vertex_colors flat_triangle))
  = normalize_mesh flat_triangle.
Proof.
  assert (Hne : vmax_component (vsub flat_hi flat_lo) <> 0%R).
  { cbn. unfold Rmax. repeat destruct (Rle_dec _ _); lra. }
  assert (Hk : (0 < 2)%R) by lra.
  split; [exact flat_triangle_bounds|]. split; [exact Hne|].
  split; [exact Hk|].
  exact (normalize_mesh_placement_invariant flat_triangle flat_lo flat_hi
           (1, 1, 1)%R 2%R flat_triangle_bounds Hne Hk).
Defined.

(** ** ColorEnhancer and the pipeline *)

Section ColorEdgeFacts.

Context {A : Scalar}.
Variable RNG : Type.
Variable np_random_choice : nat -> nat -> RNG -> result (list nat) * RNG.

(** X9.  Whatever the palette, the empty one included, and whatever
    [np.random.choice] does, [enhance_colors] draws nothing: the generator
    is left as it is, vertices and faces are kept, and the colors stored
    in the result are the colors that the mesh shows, its own when it
    stores some and one default grey for each vertex when it stores
    none. *)
Theorem enhance_colors_ignores_palette
    (color_palette : list rgb) (mesh : Mesh A) (g : RNG) :
  exists colors,
    enhance_colors RNG np_random_choice color_palette mesh g
    = (Ok (Trimesh (vertices mesh) (faces mesh) (Some colors)), g) /\
    (forall original, vertex_colors mesh = Some original ->
                      colors = original) /\
    (vertex_colors mesh = None ->
     colors = repeat DEFAULT_COLOR (length (vertices mesh))).
Proof.
  rewrite enhance_colors_stores_shown. unfold visual_vertex_colors.
  destruct (vertex_colors mesh) as [original|].
  - exists original. split; [reflexivity|].
    split; [intros o Ho; congruence | discriminate].
  - eexists. split; [reflexivity|]. split; [discriminate | reflexivity].
Qed.

End ColorEdgeFacts.

Section PipelineShape.

Context {A : Scalar}.
Variable arccos : num A -> num A.
Variable trimesh_Trimesh :
  list (vec A) -> list face -> option (list rgba) -> result (Mesh A).
Variable RNG : Type.
Variable np_random_choice : nat -> nat -> RNG -> result (list nat) * RNG.
Variable remove_degenerate_faces : Mesh A -> result (Mesh A).
Variable remove_unreferenced_vertices : Mesh A -> result (Mesh A).
Variable split : Mesh A -> result (list (Mesh A)).
Variable fix_normals : Mesh A -> result (Mesh A).
Variable merge_vertices : Mesh A -> result (Mesh A).

Abbreviation process_mesh' :=
  (process_mesh arccos trimesh_Trimesh RNG np_random_choice
                remove_degenerate_faces remove_unreferenced_vertices split
                fix_normals merge_vertices).
Abbreviation clean' :=
  (clean remove_degenerate_faces remove_unreferenced_vertices split
         fix_normals merge_vertices).

(** The stages after cleaning, put together. *)
Lemma later_stages_outcome (color_palette : list rgb) (cleaned : Mesh A)
    (g : RNG) :
  exists normalized sharpened,
    normalize_mesh cleaned = Ok normalized /\
    enhance_sharpness arccos trimesh_Trimesh normalized = Ok sharpened /\
    later_stages arccos trimesh_Trimesh RNG np_random_choice color_palette
                 cleaned g
    = (Ok (Trimesh (vertices sharpened) (faces sharpened)
                   (visual_vertex_colors sharpened)), g).
Proof.
  destruct (normalize_mesh_total cleaned) as (n & Hn).
  destruct (enhance_sharpness_total arccos trimesh_Trimesh n) as (s & Hs).
  exists n, s. unfold later_stages. rewrite Hn, Hs.
  split; [reflexivity|]. split; [reflexivity|].
  apply enhance_colors_stores_shown.
Qed.

(** X10.  [process_mesh] uses neither its palette nor the random
    generator: with any two palettes and any two states of the generator
    it returns the same mesh (or the same "no mesh"), and the state of
    the generator comes back as it was.  (The operations of [trimesh] are
    functions of their arguments here; the code of the repository makes
    no draw.) *)
Theorem process_mesh_ignores_palette
    (palette1 palette2 : list rgb) (mesh : Mesh A) (g1 g2 : RNG) :
  process_mesh' palette1 mesh g1
  = (fst (process_mesh' palette2 mesh g2), g1).
Proof.
  unfold process_mesh.
  destruct (clean _ _ _ _ _ mesh) as [[cleaned|]|e]; try reflexivity.
  destruct (later_stages_outcome palette1 cleaned g1)
    as (n1 & s1 & Hn1 & Hs1 & ->).
  destruct (later_stages_outcome palette2 cleaned g2)
    as (n2 & s2 & Hn2 & Hs2 & ->).
  assert (n2 = n1) by congruence. subst n2.
  assert (s2 = s1) by congruence. subst s2.
  reflexivity.
Qed.

(** X11.  Every mesh that [process_mesh] returns stores vertex colors, and
    none of them comes from the palette: they are the colors that the
    sharpened mesh shows, its own when it stores some and one default
    grey for each vertex when it stores none. *)
Theorem process_mesh_result_is_colored
    (color_palette : list rgb) (mesh cleaned : Mesh A) (g : RNG) :
  clean' mesh = Ok (Some cleaned) ->
  exists normalized sharpened colors,
    normalize_mesh cleaned = Ok normalized /\
    enhance_sharpness arccos trimesh_Trimesh normalized = Ok sharpened /\
    fst (process_mesh' color_palette mesh g)
    = Ok (Some (Trimesh (vertices sharpened) (faces sharpened)
                        (Some colors))) /\
    (forall original, vertex_colors sharpened = Some original ->
                      colors = original) /\
    (vertex_colors sharpened = None ->
     colors = repeat DEFAULT_COLOR (length (vertices sharpened))).
Proof.
  intros Hc.
  destruct (later_stages_outcome color_palette cleaned g)
    as (n & s & Hn & Hs & Hl).
  assert (Hcolors : exists colors,
            visual_vertex_colors s = Some colors /\
            (forall original, vertex_colors s = Some original ->
                              colors = original) /\
            (vertex_colors s = None ->
             colors = repeat DEFAULT_COLOR (length (vertices s)))).
  { unfold visual_vertex_colors.
    destruct (vertex_colors s) as [original|].
    - exists original. split; [reflexivity|].
      split; [intros o Ho; congruence | discriminate].
    - eexists. split; [reflexivity|].
      split; [discriminate | reflexivity]. }
  destruct Hcolors as (colors & Hshown & Hsome & Hnone).
  exists n, s, colors.
  split; [exact Hn|]. split; [exact Hs|]. split; [|split; assumption].
  unfold process_mesh. rewrite Hc, Hl, Hshown. reflexivity.
Qed.

End PipelineShape.

Lemma process_mesh_result_is_colored_witness :
  clean (A := RealA) no_repair no_repair one_component no_repair no_repair
        (bare_triangle RealA) = Ok (Some (bare_triangle RealA)) /\
  exists normalized sharpened colors,
    normalize_mesh (bare_triangle RealA) = Ok normalized /\
    enhance_sharpness (A := RealA) acos stored_Trimesh normalized
    = Ok sharpened /\
    fst (process_mesh (A := RealA) acos stored_Trimesh unit first_choice
                      no_repair no_repair one_component no_repair no_repair
                      two_colors (bare_triangle RealA) tt)
    = Ok (Some (Trimesh (vertices sharpened) (faces sharpened)
                        (Some colors))) /\
    (forall original, vertex_colors sharpened = Some original ->
                      colors = original) /\
    (vertex_colors sharpened = None ->
     colors = repeat DEFAULT_COLOR (length (vertices sharpened))).
Proof.
  split; [reflexivity|].
  exact (process_mesh_result_is_colored (A := RealA) acos stored_Trimesh unit
           first_choice no_repair no_repair one_component no_repair no_repair
           two_colors (bare_triangle RealA) (bare_triangle RealA) tt eq_refl).
Defined.

(** ** PaletteGenerator: how many colors are enumerated *)

Section ShortfallFacts.

Context {A : Scalar}.
Variable colorsys_hsv_to_rgb : num A -> num A -> num A -> vec A.
Variable RNG : Type.
Variable np_random_random : RNG -> num A * RNG.
Variable np_random_uniform : num A -> num A -> RNG -> num A * RNG.

Abbreviation random_fill :=
  (random_colors colorsys_hsv_to_rgb RNG np_random_random np_random_uniform).
Abbreviation generate_palette :=
  (generate_full_spectrum_palette colorsys_hsv_to_rgb RNG np_random_random
                                  np_random_uniform).

Lemma length_rgb_cube (size : nat) :
  length (rgb_cube (A := A) size) = Nat.min size (nearest_cube_root size ^ 3).
Proof.
  rewrite rgb_cube_grid, length_firstn, length_grid.
  unfold cube_values, channel_values.
  rewrite length_map, length_np_linspace. simpl. lia.
Qed.

(** X12.  For [size <= 216] the cube gives [min(size, steps^3)] colors, [steps]
    being the rounded cube root.  When [size <= steps^3] the palette is
    the enumeration and the random generator is not used; otherwise the
    last [size - steps^3] colors are random draws. *)
Theorem cube_palette_shortfall (size : nat) (g : RNG) :
  size <= 216 ->
  let steps := nearest_cube_root size in
  length (enumerated colorsys_hsv_to_rgb size) = Nat.min size (steps ^ 3) /\
  (size <= steps ^ 3 ->
   generate_palette size g = (map as_uint8 (rgb_cube (A := A) size), g)) /\
  (steps ^ 3 < size ->
   generate_palette size g
   = (map as_uint8 (rgb_cube (A := A) size
                    ++ fst (random_fill (size - steps ^ 3) g)),
      snd (random_fill (size - steps ^ 3) g)) /\
   length (rgb_cube (A := A) size) = steps ^ 3 /\
   length (fst (random_fill (size - steps ^ 3) g)) = size - steps ^ 3).
Proof.
  intros Hsize steps.
  assert (Henum : enumerated colorsys_hsv_to_rgb size = rgb_cube (A := A) size).
  { unfold enumerated.
    replace (size <=? 216) with true by (symmetry; apply Nat.leb_le; lia).
    reflexivity. }
  pose proof (length_rgb_cube size) as Hlen. fold steps in Hlen.
  destruct (generate_palette_spec colorsys_hsv_to_rgb RNG np_random_random
              np_random_uniform size g) as (Hgen & _ & _).
  rewrite Henum in Hgen |- *. rewrite Hlen in Hgen.
  split; [exact Hlen|]. split.
  - intros Hfull. rewrite Hgen.
    replace (size - Nat.min size (steps ^ 3)) with 0 by lia.
    simpl. rewrite app_nil_r. reflexivity.
  - intros Hshort.
    replace (Nat.min size (steps ^ 3)) with (steps ^ 3) in Hgen, Hlen by lia.
    split; [exact Hgen|]. split; [exact Hlen|].
    apply length_random_colors.
Qed.

(** For [size > 216], when [hue_steps] is the integer square root of
    [2 * size], the grid has at most [size] colors: the loops never stop
    early, every grid color is in the palette, and the colors that are
    missing are random draws. *)
Lemma hsv_grid_whole (size : nat) (g : RNG) :
  216 < size ->
  hue_steps (A := A) size = Z.sqrt (2 * Z.of_nat size) ->
  let count := (hue_steps (A := A) size * sat_steps (A := A) size
                * val_steps (A := A) size)%Z in
  let hsv_colors :=
    grid (fun h s v => hsv_color colorsys_hsv_to_rgb (h / of_Z A 360)%num s v)
         (hues size) (saturations size) (brightnesses size) in
  (count <= Z.of_nat size)%Z /\
  length hsv_colors = Z.to_nat count /\
  enumerated colorsys_hsv_to_rgb size = hsv_colors /\
  generate_palette size g
  = (map as_uint8 (hsv_colors
                   ++ fst (random_fill (size - Z.to_nat count) g)),
     snd (random_fill (size - Z.to_nat count) g)).
Proof.
  intros Hsize Hhue count hsv_colors.
  set (n := Z.of_nat size) in *.
  set (h := hue_steps (A := A) size) in *.
  assert (Hn : (216 < n)%Z) by (unfold n; lia).
  pose proof (Z.sqrt_spec (2 * n) ltac:(lia)) as [Hlo Hhi].
  rewrite <- Hhue in Hlo, Hhi.
  assert (Hh : (20 <= h)%Z) by nia.
  assert (Hq : (10 <= n / h)%Z).
  { apply Z.div_le_lower_bound; [lia|]. nia. }
  set (q := (n / h)%Z) in *.
  assert (Hs : sat_steps (A := A) size = (q / 2)%Z).
  { unfold sat_steps. fold n h q.
    pose proof (Z.div_le_lower_bound q 2 5 ltac:(lia) ltac:(lia)). lia. }
  assert (Hs5 : (5 <= q / 2)%Z)
    by (apply Z.div_le_lower_bound; lia).
  assert (Hs2 : (2 * (q / 2) <= q)%Z) by (apply Z.mul_div_le; lia).
  assert (Hv : val_steps (A := A) size = (q / (q / 2))%Z).
  { unfold val_steps. rewrite Hs. fold n h q.
    pose proof (Z.div_le_lower_bound q (q / 2) 2 ltac:(lia) ltac:(lia)).
    lia. }
  assert (Hsv : (q / 2 * (q / (q / 2)) <= q)%Z)
    by (apply Z.mul_div_le; lia).
  assert (Hhq : (h * q <= n)%Z) by (apply Z.mul_div_le; lia).
  assert (Hv2 : (2 <= q / (q / 2))%Z)
    by (apply Z.div_le_lower_bound; lia).
  assert (Hcount : (count <= n)%Z).
  { unfold count. rewrite Hs, Hv. nia. }
  assert (Hlen : length hsv_colors = Z.to_nat count).
  { unfold hsv_colors, hues, saturations, brightnesses.
    rewrite length_grid, !length_np_linspace. unfold count. fold h.
    rewrite Hs, Hv. rewrite <- !Z2Nat.inj_mul by lia. f_equal. lia. }
  assert (Henum : enumerated colorsys_hsv_to_rgb size = hsv_colors).
  { rewrite enumerated_hsv by exact Hsize. fold hsv_colors.
    apply firstn_all2. rewrite Hlen. unfold n in Hcount. lia. }
  split; [exact Hcount|]. split; [exact Hlen|]. split; [exact Henum|].
  destruct (generate_palette_spec colorsys_hsv_to_rgb RNG np_random_random
              np_random_uniform size g) as (Hgen & _ & _).
  rewrite Henum, Hlen in Hgen. exact Hgen.
Qed.

End ShortfallFacts.

Lemma cube_palette_shortfall_witness :
  10 <= 216 /\
  length (enumerated (A := Float64) (grey_hsv Float64) 10) = 8.
Proof.
  split; [lia|].
  exact (proj1 (cube_palette_shortfall (A := Float64) (grey_hsv Float64) unit
                  (constant_random Float64) (constant_uniform Float64)
                  10 tt ltac:(lia))).
Defined.

(** X13.  For [size > 216] (in exact arithmetic for every size, in binary64 up
    to 100000) the HSV grid has at most [size] colors: the loops never
    stop early, every grid color is in the palette in grid order, and the
    [size - hue_steps * sat_steps * val_steps] colors that are missing
    are random draws. *)
Theorem hsv_palette_is_whole_grid (size : nat) :
  216 < size ->
  (forall (hsv : R -> R -> R -> vec RealA) (RNG : Type)
          (random : RNG -> R * RNG) (uniform : R -> R -> RNG -> R * RNG)
          (g : RNG),
     let count := (hue_steps (A := RealA) size * sat_steps (A := RealA) size
                   * val_steps (A := RealA) size)%Z in
     let hsv_colors :=
       grid (fun h s v => hsv_color (A := RealA) hsv (h / of_Z RealA 360)%num s v)
            (hues (A := RealA) size) (saturations size) (brightnesses size) in
     (count <= Z.of_nat size)%Z /\
     length hsv_colors = Z.to_nat count /\
     enumerated (A := RealA) hsv size = hsv_colors /\
     generate_full_spectrum_palette (A := RealA) hsv RNG random uniform size g
     = (map as_uint8
            (hsv_colors
             ++ fst (random_colors (A := RealA) hsv RNG random uniform
                                   (size - Z.to_nat count) g)),
        snd (random_colors (A := RealA) hsv RNG random uniform
                           (size - Z.to_nat count) g))) /\
  ((Z.of_nat size <= 100000)%Z ->
   forall (hsv : float -> float -> float -> vec Float64) (RNG : Type)
          (random : RNG -> float * RNG)
          (uniform : float -> float -> RNG -> float * RNG) (g : RNG),
     let count := (hue_steps (A := Float64) size
                   * sat_steps (A := Float64) size
                   * val_steps (A := Float64) size)%Z in
     let hsv_colors :=
       grid (fun h s v =>
               hsv_color (A := Float64) hsv (h / of_Z Float64 360)%num s v)
            (hues (A := Float64) size) (saturations size)
            (brightnesses size) in
     (count <= Z.of_nat size)%Z /\
     length hsv_colors = Z.to_nat count /\
     enumerated (A := Float64) hsv size = hsv_colors /\
     generate_full_spectrum_palette (A := Float64) hsv RNG random uniform
                                    size g
     = (map as_uint8
            (hsv_colors
             ++ fst (random_colors (A := Float64) hsv RNG random uniform
                                   (size - Z.to_nat count) g)),
        snd (random_colors (A := Float64) hsv RNG random uniform
                           (size - Z.to_nat count) g))).
Proof.
  intros Hsize. split.
  - intros hsv RNG random uniform g.
    exact (hsv_grid_whole (A := RealA) hsv RNG random uniform size g Hsize
             (hue_steps_real size)).
  - intros Hmax hsv RNG random uniform g.
    exact (hsv_grid_whole (A := Float64) hsv RNG random uniform size g Hsize
             (hue_steps_float size ltac:(lia))).
Qed.

(** At the default palette size 256 the grid has 22 * 5 * 2 colors, so
    36 colors of the palette are random draws. *)
Lemma hsv_palette_is_whole_grid_witness :
  216 < 256 /\
  (hue_steps (A := Float64) 256 * sat_steps (A := Float64) 256
   * val_steps (A := Float64) 256 = 220)%Z /\
  length (enumerated (A := Float64) (grey_hsv Float64) 256) = 220.
Proof.
  split; [lia|]. split; [reflexivity|].
  pose proof (proj2 (hsv_palette_is_whole_grid 256 ltac:(lia)) ltac:(lia)
                (grey_hsv Float64) unit (constant_random Float64)
                (constant_uniform Float64) tt) as (_ & Hlen & Henum & _).
  rewrite Henum. exact Hlen.
Defined.

(** ** [quantize_to_palette] *)

Lemma argmin_scan_real (ip : list R) :
  forall (prefix : list R) (mp : R) (min_ind : nat),
    prefix !! min_ind = Some mp ->
    Forall (fun x => (mp <= x)%R) prefix ->
    (forall k x, k < min_ind -> prefix !! k = Some x -> (mp < x)%R) ->
    let j := argmin_scan (A := RealA) mp min_ind (length prefix) ip in
    exists d,
      (prefix ++ ip) !! j = Some d /\
      Forall (fun x => (d <= x)%R) (prefix ++ ip) /\
      (forall k x, k < j -> (prefix ++ ip) !! k = Some x -> (d < x)%R).
Proof.
  induction ip as [|x ip IH]; intros prefix mp min_ind Hmp Hall Hfirst.
  - simpl. rewrite app_nil_r. exists mp. auto.
  - cbn [argmin_scan].
    assert (Hnan : np_isnan (A := RealA) x = false).
    { unfold np_isnan. cbn [feqb RealA].
      destruct (Req_dec_T x x); [reflexivity|congruence]. }
    rewrite Hnan.
    assert (Hmin : min_ind < length prefix)
      by (apply lookup_lt_is_Some; eauto).
    assert (Hstep : forall mp' min_ind',
              (prefix ++ [x]) !! min_ind' = Some mp' ->
              Forall (fun y => (mp' <= y)%R) (prefix ++ [x]) ->
              (forall k y, k < min_ind' -> (prefix ++ [x]) !! k = Some y ->
                           (mp' < y)%R) ->
              exists d,
                (prefix ++ x :: ip)
                  !! argmin_scan (A := RealA) mp' min_ind'
                                 (S (length prefix)) ip = Some d /\
                Forall (fun y => (d <= y)%R) (prefix ++ x :: ip) /\
                (forall k y,
                   k < argmin_scan (A := RealA) mp' min_ind'
                                   (S (length prefix)) ip ->
                   (prefix ++ x :: ip) !! k = Some y -> (d < y)%R)).
    { intros mp' min_ind' H1 H2 H3.
      pose proof (IH (prefix ++ [x]) mp' min_ind' H1 H2 H3) as IH'.
      cbv zeta in IH'. rewrite length_app, <- app_assoc in IH'.
      cbn [length app] in IH'.
      replace (length prefix + 1) with (S (length prefix)) in IH' by lia.
      exact IH'. }
    unfold fgeb. cbn [fltb feqb RealA].
    destruct (Rlt_dec mp x) as [Hlt|Hnlt]; cbn [orb negb].
    { apply Hstep.
      - rewrite lookup_app_l by exact Hmin. exact Hmp.
      - apply Forall_app. split; [exact Hall|]. constructor; [lra|constructor].
      - intros k y Hk Hy. rewrite lookup_app_l in Hy by lia. eauto. }
    destruct (Req_dec_T mp x) as [Heq|Hne]; cbn [negb].
    { apply Hstep.
      - rewrite lookup_app_l by exact Hmin. exact Hmp.
      - apply Forall_app. split; [exact Hall|]. constructor; [lra|constructor].
      - intros k y Hk Hy. rewrite lookup_app_l in Hy by lia. eauto. }
    assert (Hx : (x < mp)%R) by lra.
    apply Hstep.
    + rewrite lookup_app_r by lia. rewrite Nat.sub_diag. reflexivity.
    + apply Forall_app. split; [|constructor; [lra|constructor]].
      eapply Forall_impl; [exact Hall|]. intros y Hy. simpl in Hy. lra.
    + intros k y Hk Hy. rewrite lookup_app_l in Hy by lia.
      rewrite List.Forall_forall in Hall.
      assert (mp <= y)%R; [|lra].
      apply Hall. apply list_elem_of_In. eapply list_elem_of_lookup_2.
      exact Hy.
Qed.

(** In exact arithmetic [np.argmin] is the first index of the least
    value. *)
Lemma np_argmin_real (a : list R) :
  a <> [] ->
  exists j d,
    np_argmin (A := RealA) a = Ok j /\
    a !! j = Some d /\
    Forall (fun x => (d <= x)%R) a /\
    (forall k x, k < j -> a !! k = Some x -> (d < x)%R).
Proof.
  destruct a as [|x a]; [congruence|]. intros _. unfold np_argmin.
  assert (Hnan : np_isnan (A := RealA) x = false).
  { unfold np_isnan. cbn [feqb RealA].
    destruct (Req_dec_T x x); [reflexivity|congruence]. }
  rewrite Hnan.
  destruct (argmin_scan_real a [x] x 0 eq_refl) as (d & Hd & Hall & Hfirst).
  - constructor; [lra|constructor].
  - intros k y Hk. lia.
  - exists (argmin_scan (A := RealA) x 0 1 a), d. auto.
Qed.

Lemma quantize_one (color_palette : list rgb) (c : vec RealA) :
  color_palette <> [] ->
  exists q,
    (let* closest_idx :=
       np_argmin (A := RealA) (palette_distances color_palette c) in
     getitem color_palette closest_idx) = Ok q /\
    first_nearest color_palette c q.
Proof.
  intros Hp.
  assert (Hd : palette_distances (A := RealA) color_palette c <> []).
  { destruct color_palette; [congruence|discriminate]. }
  destruct (np_argmin_real _ Hd) as (j & d & Hj & Hjd & Hall & Hfirst).
  rewrite Hj. cbn [bind]. unfold palette_distances in Hjd, Hall, Hfirst.
  rewrite list_lookup_fmap in Hjd.
  destruct (color_palette !! j) as [q|] eqn:Hq; [|discriminate].
  injection Hjd as Hqd. exists q. unfold getitem. rewrite Hq.
  split; [reflexivity|]. exists j. split; [exact Hq|].
  fold (color_distance q c) in Hqd. subst d. split.
  - intros p Hin. rewrite List.Forall_forall in Hall.
    apply (Hall (color_distance p c)).
    apply in_map_iff. exists p. auto.
  - intros k p Hk Hkp. apply (Hfirst k); [exact Hk|].
    rewrite list_lookup_fmap, Hkp. reflexivity.
Qed.

Lemma quantize_loop (color_palette : list rgb) (colors : list (vec RealA)) :
  color_palette <> [] ->
  exists quantized,
    for_each (fun color =>
                let distances :=
                  palette_distances (A := RealA) color_palette color in
                let* closest_idx := np_argmin (A := RealA) distances in
                getitem color_palette closest_idx) colors
    = Ok quantized /\
    Forall2 (first_nearest color_palette) colors quantized.
Proof.
  intros Hp. induction colors as [|c colors (qs & Hqs & Hall)].
  - exists []. split; [reflexivity|constructor].
  - destruct (quantize_one color_palette c Hp) as (q & Hq & Hnear).
    exists (q :: qs). split; [|constructor; assumption].
    cbn [for_each]. cbv zeta in Hq |- *. rewrite Hq. cbn [bind].
    cbv zeta in Hqs. rewrite Hqs. reflexivity.
Qed.

Lemma quantize_to_palette_nearest_aux
    (color_palette : list rgb) (colors : list (vec RealA)) :
  color_palette <> [] ->
  exists quantized,
    quantize_to_palette (A := RealA) color_palette colors = inl quantized /\
    Forall2 (first_nearest color_palette) colors quantized.
Proof.
  intros Hp. destruct (quantize_loop color_palette colors Hp)
    as (qs & Hqs & Hall).
  exists qs. unfold quantize_to_palette. cbv zeta in Hqs |- *. rewrite Hqs.
  split; [reflexivity|exact Hall].
Qed.

(** X14.  In exact arithmetic, with a palette that is not empty, every color is
    replaced by the first palette row at the least Euclidean distance
    from it, and the result has one row for each color.  With an empty
    palette [np.argmin] raises on the empty array of distances and the
    handler returns the input, in any arithmetic. *)
Theorem quantize_to_palette_nearest :
  (forall (color_palette : list rgb) (colors : list (vec RealA)),
     color_palette <> [] ->
     exists quantized,
       quantize_to_palette (A := RealA) color_palette colors
       = inl quantized /\
       length quantized = length colors /\
       Forall2 (first_nearest color_palette) colors quantized) /\
  (forall (A : Scalar) (colors : list (vec A)),
     colors <> [] ->
     quantize_to_palette (A := A) [] colors = inr colors).
Proof.
  split.
  - intros color_palette colors Hp.
    destruct (quantize_to_palette_nearest_aux color_palette colors Hp)
      as (qs & Hqs & Hall).
    exists qs. split; [exact Hqs|]. split; [|exact Hall].
    symmetry. eapply Forall2_length. exact Hall.
  - intros A colors Hc. destruct colors as [|c colors]; [congruence|].
    reflexivity.
Qed.

Lemma quantize_to_palette_nearest_witness :
  two_colors <> [] /\
  exists quantized,
    quantize_to_palette (A := RealA) two_colors [(200, 200, 200)%R]
    = inl quantized /\
    length quantized = 1 /\
    Forall2 (first_nearest two_colors) [(200, 200, 200)%R] quantized.
Proof.
  assert (Hp : two_colors <> []) by discriminate.
  split; [exact Hp|].
  exact (proj1 quantize_to_palette_nearest two_colors
               [(200, 200, 200)%R] Hp).
Defined.

Lemma color_distance_zero (p q : rgb) :
  (color_distance q (to_float (A := RealA) p)
   <= color_distance p (to_float (A := RealA) p))%R ->
  q = p.
Proof.
  destruct p as [[pr pg] pb], q as [[qr qg] qb].
  unfold color_distance, norm, dot, vsub, to_float.
  cbn [fsqrt fadd fsub fmul of_Z RealA].
  replace ((IZR pr - IZR pr) * (IZR pr - IZR pr)
           + (IZR pg - IZR pg) * (IZR pg - IZR pg)
           + (IZR pb - IZR pb) * (IZR pb - IZR pb))%R with 0%R by ring.
  rewrite sqrt_0. intros H.
  set (s := ((IZR qr - IZR pr) * (IZR qr - IZR pr)
             + (IZR qg - IZR pg) * (IZR qg - IZR pg)
             + (IZR qb - IZR pb) * (IZR qb - IZR pb))%R) in *.
  pose proof (Rle_0_sqr (IZR qr - IZR pr)) as Sr.
  pose proof (Rle_0_sqr (IZR qg - IZR pg)) as Sg.
  pose proof (Rle_0_sqr (IZR qb - IZR pb)) as Sb.
  unfold Rsqr in Sr, Sg, Sb.
  assert (Hs : (0 <= s)%R) by (unfold s; lra).
  assert (H0 : R_sqrt.sqrt s = 0%R)
    by (pose proof (sqrt_pos s); lra).
  apply sqrt_eq_0 in H0; [|exact Hs]. unfold s in H0.
  assert (Er : (IZR qr - IZR pr = 0)%R).
  { assert (E : ((IZR qr - IZR pr) * (IZR qr - IZR pr) = 0)%R) by lra.
    destruct (Rmult_integral _ _ E); assumption. }
  assert (Eg : (IZR qg - IZR pg = 0)%R).
  { assert (E : ((IZR qg - IZR pg) * (IZR qg - IZR pg) = 0)%R) by lra.
    destruct (Rmult_integral _ _ E); assumption. }
  assert (Eb : (IZR qb - IZR pb = 0)%R).
  { assert (E : ((IZR qb - IZR pb) * (IZR qb - IZR pb) = 0)%R) by lra.
    destruct (Rmult_integral _ _ E); assumption. }
  assert (qr = pr) by (apply eq_IZR; lra).
  assert (qg = pg) by (apply eq_IZR; lra).
  assert (qb = pb) by (apply eq_IZR; lra).
  congruence.
Qed.

(** X15.  In exact arithmetic the colors of the palette are fixed points:
    quantizing rows of the palette gives these rows back. *)
Theorem quantize_to_palette_fixes_palette
    (color_palette : list rgb) (rows : list rgb) :
  Forall (fun p => In p color_palette) rows ->
  quantize_to_palette (A := RealA) color_palette
                      (map (to_float (A := RealA)) rows)
  = inl rows.
Proof.
  intros Hrows. destruct rows as [|r rows]; [reflexivity|].
  assert (Hp : color_palette <> []).
  { inversion Hrows as [|? ? Hin _]; subst. intros E. rewrite E in Hin.
    destruct Hin. }
  destruct (quantize_to_palette_nearest_aux color_palette
              (map (to_float (A := RealA)) (r :: rows)) Hp)
    as (qs & Hqs & Hall).
  rewrite Hqs. f_equal.
  clear Hqs Hp. revert qs Hall. generalize (r :: rows) Hrows. clear.
  induction 1 as [|p ps Hin _ IH]; intros qs Hall.
  - inversion Hall. reflexivity.
  - inversion Hall as [|? q ? qs' Hq Hqs']; subst.
    f_equal; [|apply IH; exact Hqs'].
    destruct Hq as (j & _ & Hmin & _).
    apply color_distance_zero. apply Hmin. exact Hin.
Qed.

Lemma quantize_to_palette_fixes_palette_witness :
  Forall (fun p => In p two_colors) [(255, 255, 255)%Z] /\
  quantize_to_palette (A := RealA) two_colors
                      (map (to_float (A := RealA)) [(255, 255, 255)%Z])
  = inl [(255, 255, 255)%Z].
Proof.
  assert (H : Forall (fun p => In p two_colors) [(255, 255, 255)%Z]).
  { constructor; [|constructor]. right. left. reflexivity. }
  split; [exact H|].
  exact (quantize_to_palette_fixes_palette two_colors _ H).
Defined.

(** ** [generate_positional_colors] *)

Section PositionalFacts.

Context {A : Scalar}.
Variable hash_rounded : nat -> vec A -> Z.

Lemma positional_color_member (color_palette : list rgb) (i : nat)
    (vertex : vec A) :
  color_palette <> [] ->
  exists c,
    positional_color hash_rounded color_palette i vertex = Some c /\
    color_palette
      !! Z.to_nat (hash_rounded i vertex
                   mod Z.of_nat (length color_palette))%Z
    = Some c.
Proof.
  intros Hp. unfold positional_color, py_mod.
  assert (Hlen : 0 < length color_palette).
  { destruct color_palette; [congruence|simpl; lia]. }
  destruct (Z.eqb_spec (Z.of_nat (length color_palette)) 0) as [E|_]; [lia|].
  unfold getitem_int.
  pose proof (Z.mod_pos_bound (hash_rounded i vertex)
                (Z.of_nat (length color_palette)) ltac:(lia)) as [Hlo Hhi].
  destruct (Z.leb_spec 0 (hash_rounded i vertex
                          mod Z.of_nat (length color_palette))%Z)
    as [_|Hneg]; [|lia].
  destruct (lookup_lt_is_Some_2 color_palette
              (Z.to_nat (hash_rounded i vertex
                         mod Z.of_nat (length color_palette))%Z)
              ltac:(lia)) as [c Hc].
  exists c. split; exact Hc.
Qed.

Lemma positional_loop_rows (color_palette : list rgb) :
  color_palette <> [] ->
  forall (vertices : list (vec A)) (i : nat),
  exists colors,
    positional_loop hash_rounded color_palette i vertices = Some colors /\
    length colors = length vertices /\
    forall k v,
      vertices !! k = Some v ->
      colors !! k
      = color_palette
          !! Z.to_nat (hash_rounded (i + k) v
                       mod Z.of_nat (length color_palette))%Z.
Proof.
  intros Hp vertices. induction vertices as [|v vs IH]; intros i.
  - exists []. repeat split; auto. intros k w Hk. discriminate.
  - destruct (positional_color_member color_palette i v Hp)
      as (c & Hc & Hlook).
    destruct (IH (S i)) as (cs & Hcs & Hlen & Hrows).
    exists (c :: cs). cbn [positional_loop]. rewrite Hc, Hcs.
    split; [reflexivity|]. split; [simpl; congruence|].
    intros [|k] w Hk; simpl in Hk.
    + injection Hk as <-. rewrite Nat.add_0_r. simpl. congruence.
    + simpl. rewrite (Hrows k w Hk).
      replace (i + S k) with (S i + k) by lia. reflexivity.
Qed.

(** X16.  With a palette that is not empty the index is always in range: the
    vertex of index [k] gets the palette row at [hash mod len(palette)],
    so the result has one palette row for each vertex.  With an empty
    palette and at least one vertex the modulo raises and every row of
    the result is (0.5, 0.5, 0.5). *)
Theorem generate_positional_colors_rows
    (color_palette : list rgb) (vertices : list (vec A)) :
  (color_palette <> [] ->
   exists colors,
     generate_positional_colors hash_rounded color_palette vertices
     = inl colors /\
     length colors = length vertices /\
     Forall (fun c => In c color_palette) colors /\
     forall k v,
       vertices !! k = Some v ->
       colors !! k
       = color_palette
           !! Z.to_nat (hash_rounded k v
                        mod Z.of_nat (length color_palette))%Z) /\
  (color_palette = [] -> vertices <> [] ->
   generate_positional_colors hash_rounded color_palette vertices
   = inr (repeat (dec A 5 1, dec A 5 1, dec A 5 1) (length vertices))).
Proof.
  split.
  - intros Hp. unfold generate_positional_colors.
    destruct (positional_loop_rows color_palette Hp vertices 0)
      as (cs & Hcs & Hlen & Hrows).
    exists cs. rewrite Hcs. split; [reflexivity|]. split; [exact Hlen|].
    split; [|exact Hrows].
    apply List.Forall_forall. intros c Hc.
    apply list_elem_of_In, list_elem_of_lookup_1 in Hc.
    destruct Hc as [k Hk].
    assert (Hkv : k < length vertices).
    { rewrite <- Hlen. apply lookup_lt_is_Some. eauto. }
    destruct (lookup_lt_is_Some_2 vertices k Hkv) as [v Hv].
    rewrite (Hrows k v Hv) in Hk.
    apply list_elem_of_In. eapply list_elem_of_lookup_2. exact Hk.
  - intros -> Hv. destruct vertices as [|v vs]; [congruence|]. reflexivity.
Qed.

End PositionalFacts.

Lemma generate_positional_colors_rows_witness :
  two_colors <> [] /\
  exists colors,
    generate_positional_colors (A := RealA) (fun _ _ => (-3)%Z) two_colors
                               [(0, 0, 0)%R]
    = inl colors /\
    length colors = 1 /\
    Forall (fun c => In c two_colors) colors /\
    forall k v,
      [(0, 0, 0)%R] !! k = Some v ->
      colors !! k = two_colors !! Z.to_nat ((-3) mod 2)%Z.
Proof.
  assert (Hp : two_colors <> []) by discriminate.
  split; [exact Hp|].
  exact (proj1 (generate_positional_colors_rows (A := RealA)
                  (fun _ _ => (-3)%Z) two_colors [(0, 0, 0)%R]) Hp).
Defined.

(** ** [apply_lighting_enhancement] *)

Lemma lighting_of_range (normal : vec RealA) :
  (3 / 10 <= lighting_of (A := RealA) normal <= 1)%R.
Proof.
  unfold lighting_of, clip. rewrite dec_real.
  change (10 ^ Z.of_nat 1)%Z with 10%Z.
  cbn [fminimum fmaximum of_Z RealA].
  set (d := dot _ _).
  unfold Rmin, Rmax.
  repeat destruct (Rle_dec _ _); lra.
Qed.

Lemma lit_channel_real (c : Z) (l : R) :
  byte c -> (3 / 10 <= l <= 1)%R ->
  (3 * c / 10 <= lit_channel (A := RealA) c l <= c)%Z.
Proof.
  unfold byte. intros Hc Hl. unfold lit_channel, clip.
  cbn [fminimum fmaximum fmul fdiv of_Z to_int RealA].
  assert (Hc0 : (0 <= IZR c)%R) by (apply IZR_le; lia).
  assert (Hc1 : (IZR c <= 255)%R) by (apply IZR_le; lia).
  set (x := (IZR c / 255 * l)%R).
  assert (Hx : (0 <= x <= 1)%R).
  { unfold x. split.
    - apply Rmult_le_pos; [|lra]. apply Rmult_le_pos; [lra|].
      apply Rlt_le, Rinv_0_lt_compat. lra.
    - assert (IZR c / 255 <= 1)%R.
      { apply Rmult_le_reg_r with 255%R; [lra|].
        unfold Rdiv. rewrite Rmult_assoc, Rinv_l by lra. lra. }
      assert (0 <= IZR c / 255)%R.
      { apply Rmult_le_pos; [lra|]. apply Rlt_le, Rinv_0_lt_compat. lra. }
      nra. }
  assert (Hclip : Rmin (Rmax x 0) 1 = x).
  { unfold Rmin, Rmax. repeat destruct (Rle_dec _ _); lra. }
  rewrite Hclip.
  assert (Hy : (x * 255 = IZR c * l)%R) by (unfold x; field).
  rewrite Hy. set (y := (IZR c * l)%R).
  assert (Hy0 : (3 / 10 * IZR c <= y)%R) by (unfold y; nra).
  assert (Hy1 : (y <= IZR c)%R) by (unfold y; nra).
  unfold Rtrunc. destruct (Rle_dec 0 y) as [_|Hneg]; [|lra].
  pose proof (base_Int_part y) as [Hfloor Hfrac].
  assert (Hupper : (Int_part y <= c)%Z) by (apply le_IZR; lra).
  assert (Hk : (IZR (3 * c / 10) <= 3 / 10 * IZR c)%R).
  { pose proof (Z.mul_div_le (3 * c) 10 ltac:(lia)) as Hdiv.
    apply IZR_le in Hdiv. rewrite !mult_IZR in Hdiv. lra. }
  assert (Hlower : (3 * c / 10 <= Int_part y)%Z).
  { assert (IZR (3 * c / 10) - 1 < IZR (Int_part y))%R by lra.
    assert (3 * c / 10 - 1 < Int_part y)%Z; [|lia].
    apply lt_IZR. rewrite minus_IZR. lra. }
  assert (H0 : (0 <= 3 * c / 10)%Z) by (apply Z.div_pos; lia).
  unfold uint8. rewrite Z.mod_small by lia. lia.
Qed.

Lemma lit_row_dimmed (color : rgba) (normal : vec RealA) :
  byte_color color ->
  dimmed color (lit_row (A := RealA) color (lighting_of normal)).
Proof.
  destruct color as [[[r g] b] a]. intros (Hr & Hg & Hb & _).
  pose proof (lighting_of_range normal) as Hl.
  unfold dimmed, lit_row.
  repeat split; apply lit_channel_real; assumption.
Qed.

Lemma all_full_light_checked : Forall full_light_checked (zrange 256 0).
Proof. apply (bool_decide_unpack _). vm_compute. exact I. Qed.

Section LightingFacts.

Variable vertex_normals : Mesh RealA -> result (list (vec RealA)).
Variable set_vertex_colors : Mesh RealA -> list rgb -> result (Mesh RealA).

(** X17.  In exact arithmetic, on a mesh with one normal for each of the
    byte colors it shows, the colors handed to the mesh are dimmed and never
    brightened: each channel is at most the old one and at least three
    tenths of it, rounded down; the old alpha is not passed on.  In
    binary64 a vertex at full light (normal (0, 0, 1)) keeps every
    channel value from 0 to 255 exactly. *)
Theorem apply_lighting_dims_colors :
  (forall (mesh : Mesh RealA) (colors : list rgba) (normals : list (vec RealA)),
     visual_vertex_colors mesh = Some colors ->
     vertex_normals mesh = Ok normals ->
     length normals = length colors ->
     Forall byte_color colors ->
     exists lit,
       lit_vertex_colors normals colors = Ok lit /\
       Forall2 dimmed colors lit /\
       apply_lighting_enhancement vertex_normals set_vertex_colors mesh
       = try_except (set_vertex_colors mesh lit) (fun _ => Ok mesh)) /\
  (lighting_of (A := Float64) (0, 0, 1)%float = 1%float /\
   forall c, (0 <= c <= 255)%Z ->
             lit_channel (A := Float64) c 1%float = c).
Proof.
  split.
  - intros mesh colors normals Hc Hn Hlen Hbytes.
    exists (zip_with (lit_row (A := RealA)) colors
                     (map (lighting_of (A := RealA)) normals)).
    assert (Hlit : lit_vertex_colors normals colors
                   = Ok (zip_with (lit_row (A := RealA)) colors
                                  (map (lighting_of (A := RealA)) normals))).
    { unfold lit_vertex_colors, broadcast_rows.
      rewrite length_map, Hlen, Nat.eqb_refl. reflexivity. }
    split; [exact Hlit|]. split.
    + clear Hlit Hc Hn. revert normals Hlen.
      induction Hbytes as [|c cs Hb _ IH]; intros normals Hlen.
      * constructor.
      * destruct normals as [|n ns]; [discriminate|]. cbn.
        constructor; [apply lit_row_dimmed; exact Hb|].
        apply IH. simpl in Hlen. lia.
    + unfold apply_lighting_enhancement. rewrite Hc, Hn. cbn [bind].
      rewrite Hlit. reflexivity.
  - split; [vm_compute; reflexivity|].
    intros c Hc. pose proof all_full_light_checked as Hall.
    rewrite List.Forall_forall in Hall.
    apply (Hall c). apply in_zrange. lia.
Qed.

End LightingFacts.

Lemma apply_lighting_dims_colors_witness :
  visual_vertex_colors shaded_triangle
  = Some [(255, 255, 255, 255); (128, 128, 128, 255); (10, 20, 30, 7)]%Z /\
  exists lit,
    lit_vertex_colors (A := RealA) [(0, 0, 1); (0, 0, 1); (1, 0, 0)]%R
      [(255, 255, 255, 255); (128, 128, 128, 255); (10, 20, 30, 7)]%Z
    = Ok lit /\
    Forall2 dimmed
      [(255, 255, 255, 255); (128, 128, 128, 255); (10, 20, 30, 7)]%Z lit.
Proof.
  split; [reflexivity|].
  assert (Hb : Forall byte_color
                 [(255, 255, 255, 255); (128, 128, 128, 255);
                  (10, 20, 30, 7)]%Z).
  { repeat constructor; unfold byte; lia. }
  destruct (proj1 (apply_lighting_dims_colors
                     (fun _ => Ok [(0, 0, 1); (0, 0, 1); (1, 0, 0)]%R)
                     (fun m _ => Ok m))
                  shaded_triangle _ _ eq_refl eq_refl eq_refl Hb)
    as (lit & Hlit & Hdim & _).
  exists lit. split; assumption.
Defined.

(** ** [make_safe_filename] *)

Lemma collect_safe_words_spec (words : list str) :
  forall safe_words,
    Forall (fun w => w <> [] /\ Forall (fun c => is_safe_char c = true) w)
           safe_words ->
    Forall (fun w => w <> [] /\ Forall (fun c => is_safe_char c = true) w)
           (collect_safe_words words safe_words).
Proof.
  induction words as [|word words IH]; intros safe_words Hs; simpl.
  - exact Hs.
  - destruct (re_sub_unsafe word) as [|c cs] eqn:Hw; [apply IH; exact Hs|].
    apply IH. apply Forall_app. split; [exact Hs|].
    constructor; [|constructor]. split; [discriminate|].
    rewrite <- Hw. unfold re_sub_unsafe.
    apply List.Forall_forall. intros x Hx. apply filter_In in Hx. tauto.
Qed.

Lemma str_join_safe (words : list str) :
  words <> [] ->
  Forall (fun w => w <> [] /\ Forall (fun c => is_safe_char c = true) w)
         words ->
  Forall (fun c => is_name_char c = true) (str_join (lit "_") words) /\
  exists c rest,
    str_join (lit "_") words = c :: rest /\ is_safe_char c = true.
Proof.
  intros Hne Hall. revert Hne.
  induction Hall as [|w ws [Hw Hsafe] Hws IH]; intros Hne;
    [exfalso; apply Hne; reflexivity|].
  assert (Hname : Forall (fun c => is_name_char c = true) w).
  { eapply Forall_impl; [exact Hsafe|]. intros c Hc. simpl in Hc.
    unfold is_name_char. rewrite Hc. reflexivity. }
  assert (Hhead : exists c rest, w = c :: rest /\ is_safe_char c = true).
  { destruct w as [|c rest]; [congruence|]. exists c, rest.
    split; [reflexivity|]. inversion Hsafe; assumption. }
  destruct ws as [|w' ws'].
  - simpl. split; [exact Hname|exact Hhead].
  - destruct IH as [IHname _]; [discriminate|].
    change (str_join (lit "_") (w :: w' :: ws'))
      with (w ++ lit "_" ++ str_join (lit "_") (w' :: ws')).
    split.
    + apply Forall_app. split; [exact Hname|].
      apply Forall_app. split; [|exact IHname].
      constructor; [reflexivity|constructor].
    + destruct Hhead as (c & rest & -> & Hc).
      exists c. eexists. split; [reflexivity|exact Hc].
Qed.

Lemma safe_words_result (safe_words : list str) :
  Forall (fun w => w <> [] /\ Forall (fun c => is_safe_char c = true) w)
         safe_words ->
  let result :=
    match safe_words with
    | [] => lit "model"
    | _ => str_join (lit "_") safe_words
    end in
  Forall (fun c => is_name_char c = true) result /\
  exists c rest, result = c :: rest /\ is_safe_char c = true.
Proof.
  intros Hsafe. destruct safe_words as [|w ws].
  - split; [repeat constructor|]. eexists. eexists. split; reflexivity.
  - apply str_join_safe; [discriminate|exact Hsafe].
Qed.

Lemma truncated_name (result : str) :
  Forall (fun c => is_name_char c = true) result ->
  (exists c rest, result = c :: rest /\ is_safe_char c = true) ->
  1 <= length (firstn 20 result) <= 20 /\
  Forall (fun c => is_name_char c = true) (firstn 20 result) /\
  exists c rest, firstn 20 result = c :: rest /\ is_safe_char c = true.
Proof.
  intros Hname (c & rest & -> & Hc). simpl.
  split; [rewrite length_firstn; lia|]. split.
  - inversion Hname; subst. constructor; [assumption|].
    apply Forall_take. assumption.
  - exists c. eexists. split; [reflexivity|exact Hc].
Qed.

Lemma collect_nothing (words : list str) :
  Forall (Forall (fun c => is_safe_char c = false)) words ->
  collect_safe_words words [] = [].
Proof.
  induction 1 as [|w ws Hw _ IH]; simpl; [reflexivity|].
  assert (E : re_sub_unsafe w = []).
  { unfold re_sub_unsafe. induction Hw as [|c cs Hc _ IHc]; simpl;
      [reflexivity|]. rewrite Hc. exact IHc. }
  rewrite E. exact IH.
Qed.

Section FilenameFacts.

Variable str_lower : str -> str.
Variable is_whitespace : N -> bool.

Abbreviation safe_filename := (make_safe_filename str_lower is_whitespace).

Lemma make_safe_filename_chars (prompt : str) :
  Forall (fun c => is_name_char c = true) (safe_filename prompt).
Proof.
  unfold make_safe_filename. cbv zeta.
  apply truncated_name;
    apply safe_words_result, collect_safe_words_spec; constructor.
Qed.

(** X18.  Whatever the prompt, in any script, and whatever the case
    mapping and the white space of Unicode are, the file name has between
    1 and 20 characters, each a letter of a-z, a digit or an underscore,
    and it begins with a letter or a digit. *)
Theorem make_safe_filename_is_safe (prompt : str) :
  1 <= length (safe_filename prompt) <= 20 /\
  Forall (fun c => is_name_char c = true) (safe_filename prompt) /\
  exists c rest,
    safe_filename prompt = c :: rest /\ is_safe_char c = true.
Proof.
  unfold make_safe_filename. cbv zeta.
  apply truncated_name;
    apply safe_words_result, collect_safe_words_spec; constructor.
Qed.

Lemma split_from_chars (P : N -> Prop) (s : str) :
  forall word,
    Forall P word -> Forall P s ->
    Forall (Forall P) (split_from is_whitespace word s).
Proof.
  induction s as [|c s IH]; intros word Hw Hs; simpl.
  - destruct word; [constructor|]. constructor; [exact Hw|constructor].
  - inversion Hs as [|? ? Hc Hs']; subst.
    destruct (is_whitespace c).
    + destruct word; [apply IH; [constructor|exact Hs']|].
      constructor; [exact Hw|]. apply IH; [constructor|exact Hs'].
    + apply IH; [|exact Hs']. apply Forall_app. split; [exact Hw|].
      constructor; [exact Hc|constructor].
Qed.

(** X19.  A prompt whose lower-case form holds no letter of a-z and no
    digit (the empty prompt, blanks, punctuation, a script without these
    letters) gets the name "model".  The lower-case form is the one of
    [str.lower]: it decides, not the letters of the prompt as typed. *)
Theorem make_safe_filename_default (prompt : str) :
  Forall (fun c => is_safe_char c = false) (str_lower prompt) ->
  safe_filename prompt = lit "model".
Proof.
  intros Hl. unfold make_safe_filename.
  assert (Hw : Forall (Forall (fun c => is_safe_char c = false))
                 (firstn 3 (str_split is_whitespace (str_lower prompt)))).
  { apply Forall_take. apply split_from_chars; [constructor|exact Hl]. }
  cbv zeta. rewrite (collect_nothing _ Hw). reflexivity.
Qed.

End FilenameFacts.

Lemma make_safe_filename_default_witness :
  Forall (fun c => is_safe_char c = false) (ascii_lower (lit " ?! ")) /\
  make_safe_filename ascii_lower ascii_whitespace (lit " ?! ") = lit "model".
Proof.
  assert (H : Forall (fun c => is_safe_char c = false)
                     (ascii_lower (lit " ?! "))).
  { repeat constructor. }
  split; [exact H|].
  exact (make_safe_filename_default ascii_lower ascii_whitespace
           (lit " ?! ") H).
Defined.

(** ** ThumbnailCameraPlanner: where the camera is and how it is turned *)

Lemma mean_of_two (lo hi : vec RealA) :
  mean_axis0 [lo; hi]
  = ((fst (fst lo) + fst (fst hi)) / 2,
     (snd (fst lo) + snd (fst hi)) / 2,
     (snd lo + snd hi) / 2)%R.
Proof.
  destruct lo as [[lx ly] lz], hi as [[hx hy] hz]. reflexivity.
Qed.

Lemma camera_size_covers (lo hi : vec RealA) :
  vle lo hi ->
  let s := camera_size lo hi in
  (0 < s /\ fst (fst hi) - fst (fst lo) <= s /\
   snd (fst hi) - snd (fst lo) <= s /\ snd hi - snd lo <= s)%R.
Proof.
  intros Hle s. pose proof (camera_size_pos lo hi Hle) as Hs. fold s in Hs.
  split; [exact Hs|].
  destruct lo as [[lx ly] lz], hi as [[hx hy] hz]. simpl in Hle.
  unfold s, camera_size in *. cbn [feqb of_Z RealA fst snd] in *.
  cbn [vmax_component vsub fmaximum fsub RealA] in *.
  pose proof (Rmax_l (Rmax (hx - lx) (hy - ly)) (hz - lz)).
  pose proof (Rmax_r (Rmax (hx - lx) (hy - ly)) (hz - lz)).
  pose proof (Rmax_l (hx - lx) (hy - ly)).
  pose proof (Rmax_r (hx - lx) (hy - ly)).
  destruct (Req_dec_T _ _); lra.
Qed.

(** X21.  In exact arithmetic the camera is outside the bounding box of the
    mesh: each of its coordinates is greater than that of the upper
    corner of the box. *)
Theorem camera_outside_box (mesh : Mesh RealA) (lo hi : vec RealA) :
  bounds mesh = Ok (Some (lo, hi)) ->
  get_camera_transform mesh = Ok (camera_matrix lo hi) /\
  vlt hi (column (camera_matrix lo hi) 3).
Proof.
  intros Hb. split; [apply get_camera_transform_bounds; exact Hb|].
  destruct (camera_matrix_columns lo hi) as (_ & _ & _ & -> & _).
  pose proof (bounds_ordered mesh lo hi Hb) as Hle.
  pose proof (camera_size_covers lo hi Hle) as (Hs & Hx & Hy & Hz).
  unfold camera_position. rewrite mean_of_two, !dec_real.
  change (10 ^ Z.of_nat 1)%Z with 10%Z.
  set (s := camera_size lo hi) in *.
  destruct lo as [[lx ly] lz], hi as [[hx hy] hz].
  cbn [vadd fadd fmul RealA fst snd vlt] in *. lra.
Qed.

Lemma camera_outside_box_witness :
  bounds cube_corner_triangle = Ok (Some (cube_lo, cube_hi)) /\
  vlt cube_hi (column (camera_matrix cube_lo cube_hi) 3).
Proof.
  split; [exact cube_corner_triangle_bounds|].
  exact (proj2 (camera_outside_box cube_corner_triangle cube_lo cube_hi
                  cube_corner_triangle_bounds)).
Defined.

Lemma sqrt_scaled (k m : R) :
  (0 < k)%R -> (0 <= m)%R ->
  R_sqrt.sqrt (k * k * m) = (k * R_sqrt.sqrt m)%R.
Proof.
  intros Hk Hm. rewrite sqrt_mult by nra.
  rewrite sqrt_square by lra. reflexivity.
Qed.

Lemma camera_forward_value (lo hi : vec RealA) :
  vle lo hi ->
  camera_forward lo hi
  = (- 4 / R_sqrt.sqrt 41, - 4 / R_sqrt.sqrt 41, - 3 / R_sqrt.sqrt 41)%R.
Proof.
  intros Hle. pose proof (camera_size_pos lo hi Hle) as Hs.
  unfold camera_forward. rewrite camera_offset.
  set (s := camera_size lo hi) in *.
  set (k := (s / 2)%R).
  assert (Hk : (0 < k)%R) by (unfold k; lra).
  replace (- (s * (25 / 10) * (8 / 10)))%R with (k * - 4)%R
    by (unfold k; field).
  replace (- (s * (25 / 10) * (6 / 10)))%R with (k * - 3)%R
    by (unfold k; field).
  assert (Hn : norm (A := RealA) ((k * - 4)%R, (k * - 4)%R, (k * - 3)%R)
               = (k * R_sqrt.sqrt 41)%R).
  { unfold norm, dot. cbn [fsqrt fadd fmul RealA].
    replace (k * - 4 * (k * - 4) + k * - 4 * (k * - 4)
             + k * - 3 * (k * - 3))%R with (k * k * 41)%R by ring.
    apply sqrt_scaled; lra. }
  rewrite Hn.
  assert (H41 : (0 < R_sqrt.sqrt 41)%R) by (apply sqrt_lt_R0; lra).
  unfold vdiv. cbn [fdiv RealA].
  change (num RealA) with R in *. f_equal; [f_equal|]; field; lra.
Qed.

Lemma camera_right_value (lo hi : vec RealA) :
  vle lo hi ->
  camera_right lo hi
  = (- 1 / R_sqrt.sqrt 2, 1 / R_sqrt.sqrt 2, 0)%R.
Proof.
  intros Hle. unfold camera_right. cbv zeta.
  rewrite (camera_forward_value lo hi Hle).
  assert (H41 : (0 < R_sqrt.sqrt 41)%R) by (apply sqrt_lt_R0; lra).
  assert (H2 : (0 < R_sqrt.sqrt 2)%R) by (apply sqrt_lt_R0; lra).
  set (k := (4 / R_sqrt.sqrt 41)%R).
  assert (Hk : (0 < k)%R).
  { unfold k. apply Rdiv_lt_0_compat; lra. }
  set (c := cross _ _).
  assert (Hc : c = ((k * - 1)%R, (k * 1)%R, 0%R)).
  { unfold c, cross. cbn [fsub fmul of_Z RealA]. unfold k.
    change (num RealA) with R in *. f_equal; [f_equal|]; field; lra. }
  clearbody c. subst c.
  assert (Hn : norm (A := RealA) ((k * - 1)%R, (k * 1)%R, 0%R)
               = (k * R_sqrt.sqrt 2)%R).
  { unfold norm, dot. cbn [fsqrt fadd fmul RealA].
    replace (k * - 1 * (k * - 1) + k * 1 * (k * 1) + 0 * 0)%R
      with (k * k * 2)%R by ring.
    apply sqrt_scaled; lra. }
  rewrite Hn. unfold vdiv. cbn [fdiv RealA].
  change (num RealA) with R in *. f_equal; [f_equal|]; field; lra.
Qed.

Lemma cross_cross (r f : vec RealA) :
  cross r (cross r f)
  = vsub (vscale (A := RealA) (dot r f) r) (vscale (A := RealA) (dot r r) f).
Proof.
  destruct r as [[rx ry] rz], f as [[fx fy] fz].
  cbn [cross dot vsub vscale fadd fsub fmul RealA].
  change (num RealA) with R in *. f_equal; [f_equal|]; ring.
Qed.

(** X22.  In exact arithmetic the rotation of the transform is the same for
    every mesh that has bounds: the camera looks along
    (-4, -4, -3) / sqrt 41, toward the center; its right vector is
    (-1, 1, 0) / sqrt 2, so the camera is level; its up vector has a
    positive third coordinate; and right, up and -forward, the first
    three columns, make a right-handed frame. *)
Theorem camera_orientation_fixed (mesh : Mesh RealA) (lo hi : vec RealA) :
  bounds mesh = Ok (Some (lo, hi)) ->
  let m := camera_matrix lo hi in
  get_camera_transform mesh = Ok m /\
  column m 2 = (4 / R_sqrt.sqrt 41, 4 / R_sqrt.sqrt 41,
                3 / R_sqrt.sqrt 41)%R /\
  column m 0 = (- 1 / R_sqrt.sqrt 2, 1 / R_sqrt.sqrt 2, 0)%R /\
  (0 < snd (column m 1))%R /\
  cross (column m 0) (column m 1) = column m 2.
Proof.
  intros Hb m. split; [apply get_camera_transform_bounds; exact Hb|].
  pose proof (bounds_ordered mesh lo hi Hb) as Hle.
  destruct (camera_matrix_columns lo hi) as (C0 & C1 & C2 & _ & _).
  fold m in C0, C1, C2. rewrite C0, C1, C2.
  pose proof (camera_forward_value lo hi Hle) as Hf.
  pose proof (camera_right_value lo hi Hle) as Hr.
  pose proof (camera_frame_orthonormal lo hi Hle)
    as (Hrr & _ & _ & _ & Hrf & _).
  assert (H41 : (0 < R_sqrt.sqrt 41)%R) by (apply sqrt_lt_R0; lra).
  assert (H2 : (0 < R_sqrt.sqrt 2)%R) by (apply sqrt_lt_R0; lra).
  split; [|split; [exact Hr|split]].
  - rewrite Hf. unfold vneg. cbn [fopp RealA].
    change (num RealA) with R in *. f_equal; [f_equal|]; field; lra.
  - unfold camera_up. rewrite Hr, Hf. cbn [cross snd fsub fmul RealA].
    assert (0 < / R_sqrt.sqrt 2)%R by (apply Rinv_0_lt_compat; lra).
    assert (0 < / R_sqrt.sqrt 41)%R by (apply Rinv_0_lt_compat; lra).
    unfold Rdiv. nra.
  - unfold camera_up. rewrite cross_cross, Hrr, Hrf.
    destruct (camera_right lo hi) as [[rx ry] rz].
    destruct (camera_forward lo hi) as [[fx fy] fz].
    cbn [vsub vscale vneg fsub fmul fopp RealA].
    change (num RealA) with R in *. f_equal; [f_equal|]; ring.
Qed.

Lemma camera_orientation_fixed_witness :
  bounds cube_corner_triangle = Ok (Some (cube_lo, cube_hi)) /\
  column (camera_matrix cube_lo cube_hi) 0
  = (- 1 / R_sqrt.sqrt 2, 1 / R_sqrt.sqrt 2, 0)%R.
Proof.
  split; [exact cube_corner_triangle_bounds|].
  exact (proj1 (proj2 (proj2 (camera_orientation_fixed cube_corner_triangle
                                cube_lo cube_hi
                                cube_corner_triangle_bounds)))).
Defined.

(** ** [ModelExporter] *)

Lemma str_eqb_eq (a b : str) : str_eqb a b = true <-> a = b.
Proof.
  revert b. induction a as [|x a IH]; intros [|y b]; simpl;
    try (split; [discriminate|congruence]); [tauto|].
  rewrite andb_true_iff, N.eqb_eq, IH.
  split; [intros [-> ->]; reflexivity|intros H; injection H; auto].
Qed.

Lemma dict_get_set_other (d : dict) (k key : str) (v : value) :
  str_eqb k key = false ->
  dict_get (dict_set d k v) key = dict_get d key.
Proof.
  intros Hne. induction d as [|[k0 v0] d IH]; simpl.
  - rewrite Hne. reflexivity.
  - destruct (str_eqb k0 k) eqn:E; simpl.
    + apply str_eqb_eq in E. subst k0. rewrite Hne. reflexivity.
    + destruct (str_eqb k0 key); [reflexivity|exact IH].
Qed.

Lemma dict_get_set_same (d : dict) (k : str) (v : value) :
  dict_get (dict_set d k v) k = Some v.
Proof.
  assert (Hk : str_eqb k k = true) by (apply str_eqb_eq; reflexivity).
  induction d as [|[k0 v0] d IH]; simpl.
  - rewrite Hk. reflexivity.
  - destruct (str_eqb k0 k) eqn:E; simpl; rewrite E; [reflexivity|exact IH].
Qed.

Lemma dict_get_add_other (d : dict) (k key : str) (p : option str) :
  str_eqb k key = false ->
  dict_get (add_export d k p) key = dict_get d key.
Proof.
  intros Hne. destruct p; [apply dict_get_set_other; exact Hne|reflexivity].
Qed.

Lemma uint_digits (d : Decimal.uint) :
  Forall (fun c => is_base_char c = true)
         (lit (DecimalString.NilEmpty.string_of_uint d)).
Proof.
  unfold lit. induction d; simpl; constructor; try reflexivity; assumption.
Qed.

Lemma str_of_int_chars (z : Z) :
  Forall (fun c => is_base_char c = true) (str_of_int z).
Proof.
  unfold str_of_int, DecimalString.NilZero.string_of_int.
  assert (H : forall d,
             Forall (fun c => is_base_char c = true)
                    (lit (DecimalString.NilZero.string_of_uint d))).
  { intros d. unfold DecimalString.NilZero.string_of_uint.
    destruct d; try apply uint_digits. repeat constructor. }
  destruct (Z.to_int z) as [d|d]; [apply H|].
  unfold lit. simpl. constructor; [reflexivity|apply H].
Qed.

Lemma export_base_chars (str_lower : str -> str) (is_whitespace : N -> bool)
    (prompt : str) (resolution timestamp : Z) :
  Forall (fun c => is_base_char c = true)
         (export_base str_lower is_whitespace prompt resolution timestamp).
Proof.
  unfold export_base.
  pose proof (make_safe_filename_chars str_lower is_whitespace prompt)
    as Hname.
  repeat (apply Forall_app; split); try apply str_of_int_chars;
    try (repeat constructor).
  eapply Forall_impl; [exact Hname|]. intros c Hc. simpl in Hc.
  unfold is_base_char. rewrite Hc. reflexivity.
Qed.

Section ExporterFacts.

Context {A : Scalar}.
Variable str_lower : str -> str.
Variable is_whitespace : N -> bool.
Variable path_join : str -> str -> str.
Variable str_upper : str -> str.
Variable mesh_export : Mesh A -> str -> result str.
Variable save_image : Mesh A -> mat4 A -> result str.
Variable writable : str -> bool.

Abbreviation export_model' :=
  (export_model str_lower is_whitespace path_join str_upper mesh_export
                save_image writable).
Abbreviation export_base' := (export_base str_lower is_whitespace).
Abbreviation exports_before_info' :=
  (exports_before_info str_lower is_whitespace).

Abbreviation export_file := (exported_file path_join).

(** What one step of the export adds to the files. *)
Abbreviation one_file base fs fs' :=
  (exists written,
     fs' = fs ++ written /\ length written <= 1 /\
     Forall (export_file base) written).

Lemma write_file_one (base path data : str) (fs : FS) :
  export_file base (path, data) ->
  one_file base fs (snd (write_file writable path data fs)).
Proof.
  intros Hf. unfold write_file. destruct (writable path); simpl.
  - exists [(path, data)]. repeat split; auto.
  - exists []. rewrite app_nil_r. repeat split; auto.
Qed.

Lemma one_file_refl (base : str) (fs : FS) : one_file base fs fs.
Proof. exists []. rewrite app_nil_r. repeat split; auto. Qed.

Lemma export_format_one (file_type : str) mesh (base : str) (fs : FS) :
  In (lit "." ++ file_type) export_suffixes ->
  one_file base fs
    (snd (export_format path_join mesh_export writable file_type mesh base fs)).
Proof.
  intros Hs. unfold export_format.
  destruct (mesh_export mesh file_type) as [data|e];
    [|apply one_file_refl].
  pose proof (write_file_one base
                (path_join output_dir (base ++ lit "." ++ file_type))
                data fs) as H.
  destruct (write_file writable _ data fs) as [written fs']. simpl in *.
  apply H. exists output_dir, (lit "." ++ file_type). auto.
Qed.

Lemma generate_thumbnail_one mesh (base : str) (fs : FS) :
  one_file base fs
    (snd (generate_thumbnail path_join save_image writable mesh base fs)).
Proof.
  unfold generate_thumbnail.
  destruct (let* transform := get_camera_transform mesh
            in save_image mesh transform) as [png|e];
    [|apply one_file_refl].
  pose proof (write_file_one base
                (path_join (thumbnail_dir path_join)
                           (base ++ lit "_thumb.png")) png fs) as H.
  destruct (write_file writable _ png fs) as [written fs']. simpl in *.
  apply H. exists (thumbnail_dir path_join), (lit "_thumb.png").
  split; [reflexivity|]. split; [auto|]. simpl. auto 10.
Qed.

Lemma export_info_one (export_data : dict) (base : str) (fs : FS) :
  dict_get export_data (lit "filename_base") = Some (VStr base) ->
  one_file base fs
    (snd (export_info path_join str_upper writable export_data fs)).
Proof.
  intros Hb. unfold export_info, get_text. rewrite Hb. cbn [format_value].
  pose proof (write_file_one base
                (path_join output_dir (base ++ lit "_info.txt"))
                (info_text str_upper export_data) fs) as H.
  destruct (write_file writable _ _ fs) as [written fs']. simpl in *.
  apply H. exists output_dir, (lit "_info.txt").
  split; [reflexivity|]. split; [auto|]. simpl. auto 10.
Qed.

Lemma one_file_chain (base : str) (n : nat) (fs0 fs1 fs2 : FS) :
  (exists written,
     fs1 = fs0 ++ written /\ length written <= n /\
     Forall (export_file base) written) ->
  one_file base fs1 fs2 ->
  exists written,
    fs2 = fs0 ++ written /\ length written <= S n /\
    Forall (export_file base) written.
Proof.
  intros (w1 & -> & L1 & F1) (w2 & -> & L2 & F2).
  exists (w1 ++ w2). rewrite app_assoc. split; [reflexivity|].
  split; [rewrite length_app; lia|]. apply Forall_app. auto.
Qed.

Lemma format_lines_set (d : dict) (key : str) (v : value) :
  is_format_key key = false ->
  format_lines str_upper (dict_set d key v) = format_lines str_upper d.
Proof.
  intros Hk. induction d as [|[k0 v0] d IH]; simpl.
  - rewrite Hk. reflexivity.
  - destruct (str_eqb k0 key) eqn:E; simpl.
    + apply str_eqb_eq in E. subst k0. rewrite Hk. reflexivity.
    + rewrite IH. reflexivity.
Qed.

Lemma format_lines_add (d : dict) (key : str) (p : option str) :
  is_format_key key = false ->
  format_lines str_upper (add_export d key p) = format_lines str_upper d.
Proof.
  intros Hk. destruct p; [apply format_lines_set; exact Hk|reflexivity].
Qed.

Lemma info_text_before_info (prompt : str) (resolution timestamp : Z)
    (glb obj ply stl thumbnail : option str) :
  info_text str_upper
    (exports_before_info' prompt resolution timestamp glb obj ply stl
                         thumbnail)
  = plain_info prompt resolution timestamp
               (export_base' prompt resolution timestamp) thumbnail.
Proof.
  unfold info_text, info_header, get_text, thumbnail_line,
    exports_before_info.
  rewrite !format_lines_add by reflexivity.
  rewrite !(dict_get_add_other _ _ (lit "filename_base")) by reflexivity.
  rewrite !(dict_get_add_other _ _ (lit "prompt")) by reflexivity.
  rewrite !(dict_get_add_other _ _ (lit "resolution")) by reflexivity.
  rewrite !(dict_get_add_other _ _ (lit "timestamp")) by reflexivity.
  assert (Ht : dict_get
                 (add_export
                    (add_export
                       (add_export
                          (add_export
                             (add_export
                                [(lit "filename_base",
                                  VStr (export_base' prompt resolution
                                                    timestamp));
                                 (lit "prompt", VStr prompt);
                                 (lit "resolution", VInt resolution);
                                 (lit "timestamp", VInt timestamp)]
                                (lit "glb") glb)
                             (lit "obj") obj)
                          (lit "ply") ply)
                       (lit "stl") stl)
                    (lit "thumbnail") thumbnail) (lit "thumbnail")
               = option_map VStr thumbnail).
  { destruct thumbnail as [t|]; cbn [add_export option_map].
    - apply dict_get_set_same.
    - rewrite !(dict_get_add_other _ _ (lit "thumbnail")) by reflexivity.
      reflexivity. }
  rewrite Ht. unfold plain_info.
  cbn [dict_get str_eqb lit String.list_ascii_of_string format_value
       format_lines flat_map is_format_key].
  destruct thumbnail; cbn [option_map format_value];
    rewrite <- ?app_assoc; reflexivity.
Qed.

(** The run of [export_model], from the results of its six steps. *)
Lemma export_model_steps (mesh : Mesh A) (prompt : str)
    (resolution timestamp : Z) (fs : FS) :
  exists glb obj ply stl thumbnail (fs5 : FS),
    export_model' mesh prompt resolution timestamp fs
    = (add_export
         (exports_before_info' prompt resolution timestamp glb obj ply stl
                              thumbnail)
         (lit "info")
         (fst (export_info path_join str_upper writable
                 (exports_before_info' prompt resolution timestamp glb obj
                                      ply stl thumbnail) fs5)),
       snd (export_info path_join str_upper writable
              (exports_before_info' prompt resolution timestamp glb obj ply
                                   stl thumbnail) fs5)) /\
    (exists written,
       fs5 = fs ++ written /\ length written <= 5 /\
       Forall (export_file (export_base' prompt resolution timestamp))
              written).
Proof.
  unfold export_model. cbv zeta.
  fold (export_base' prompt resolution timestamp).
  set (base := export_base' prompt resolution timestamp).
  unfold export_glb, export_obj, export_ply, export_stl.
  pose proof (export_format_one (lit "glb") mesh base fs
                ltac:(simpl; auto 10)) as H1.
  destruct (export_format _ _ _ (lit "glb") mesh base fs) as [glb fs1].
  pose proof (export_format_one (lit "obj") mesh base fs1
                ltac:(simpl; auto 10)) as H2.
  destruct (export_format _ _ _ (lit "obj") mesh base fs1) as [obj fs2].
  pose proof (export_format_one (lit "ply") mesh base fs2
                ltac:(simpl; auto 10)) as H3.
  destruct (export_format _ _ _ (lit "ply") mesh base fs2) as [ply fs3].
  pose proof (export_format_one (lit "stl") mesh base fs3
                ltac:(simpl; auto 10)) as H4.
  destruct (export_format _ _ _ (lit "stl") mesh base fs3) as [stl fs4].
  pose proof (generate_thumbnail_one mesh base fs4) as H5.
  destruct (generate_thumbnail _ _ _ mesh base fs4) as [thumbnail fs5].
  cbn [snd] in H1, H2, H3, H4, H5.
  exists glb, obj, ply, stl, thumbnail, fs5.
  unfold exports_before_info. fold base.
  split.
  - destruct (export_info _ _ _ _ fs5) as [info fs6]. reflexivity.
  - assert (H0 : exists written,
               fs = fs ++ written /\ length written <= 0 /\
               Forall (export_file base) written).
    { exists []. rewrite app_nil_r. repeat split; auto. }
    pose proof (one_file_chain base 0 fs fs fs1 H0 H1) as C1.
    pose proof (one_file_chain base 1 fs fs1 fs2 C1 H2) as C2.
    pose proof (one_file_chain base 2 fs fs2 fs3 C2 H3) as C3.
    pose proof (one_file_chain base 3 fs fs3 fs4 C3 H4) as C4.
    exact (one_file_chain base 4 fs fs4 fs5 C4 H5).
Qed.

Lemma before_info_base (prompt : str) (resolution timestamp : Z)
    (glb obj ply stl thumbnail : option str) :
  dict_get (exports_before_info' prompt resolution timestamp glb obj ply stl
                                thumbnail) (lit "filename_base")
  = Some (VStr (export_base' prompt resolution timestamp)).
Proof.
  unfold exports_before_info.
  rewrite !(dict_get_add_other _ _ (lit "filename_base")) by reflexivity.
  reflexivity.
Qed.

Lemma export_model_no_error (mesh : Mesh A) (prompt : str)
    (resolution timestamp : Z) (fs : FS) :
  dict_has (fst (export_model' mesh prompt resolution timestamp fs))
           (lit "error") = false.
Proof.
  destruct (export_model_steps mesh prompt resolution timestamp fs)
    as (glb & obj & ply & stl & thumbnail & fs5 & Hrun & _).
  rewrite Hrun. cbn [fst]. unfold dict_has, exports_before_info.
  rewrite !(dict_get_add_other _ _ (lit "error")) by reflexivity.
  reflexivity.
Qed.

(** X23.  Whatever the prompt, in any script, the base name of the
    exported files has only letters of a-z, digits, underscores and minus
    signs, so no separator and no dot; one export makes at most six
    writes, each to a path made of the output directory or its thumbnail
    directory, the base name and one of the six suffixes; and the result
    holds the base name and never the key "error", whichever step
    fails. *)
Theorem export_model_files (mesh : Mesh A) (prompt : str)
    (resolution timestamp : Z) (fs : FS) :
  let base := export_base' prompt resolution timestamp in
  let run := export_model' mesh prompt resolution timestamp fs in
  Forall (fun c => is_base_char c = true) base /\
  dict_get (fst run) (lit "filename_base") = Some (VStr base) /\
  dict_has (fst run) (lit "error") = false /\
  exists written,
    snd run = fs ++ written /\ length written <= 6 /\
    Forall (export_file base) written.
Proof.
  intros base run.
  destruct (export_model_steps mesh prompt resolution timestamp fs)
    as (glb & obj & ply & stl & thumbnail & fs5 & Hrun & C5).
  fold base in C5. subst run. rewrite Hrun. cbn [fst snd].
  split; [apply export_base_chars|].
  pose proof (before_info_base prompt resolution timestamp glb obj ply stl
                               thumbnail) as Hb.
  split.
  { rewrite dict_get_add_other by reflexivity. exact Hb. }
  split.
  { pose proof (export_model_no_error mesh prompt resolution timestamp fs)
      as He. rewrite Hrun in He. exact He. }
  apply (one_file_chain base 5 fs fs5); [exact C5|].
  apply export_info_one. exact Hb.
Qed.

(** X24.  The info file never lists a format: no key of the dict ends with
    ".glb", ".obj", ".ply" or ".stl" (the keys are "glb", "obj", ...), so
    when the info file is written its text is the header, ending with
    "Available formats:", followed only by the thumbnail line when there
    is a thumbnail, even if all four formats were exported. *)
Theorem export_info_lists_no_format (mesh : Mesh A) (prompt : str)
    (resolution timestamp : Z) (fs : FS) (info_path : str) :
  let run := export_model' mesh prompt resolution timestamp fs in
  dict_get (fst run) (lit "info") = Some (VStr info_path) ->
  exists earlier thumbnail,
    dict_get (fst run) (lit "thumbnail") = option_map VStr thumbnail /\
    snd run
    = earlier
      ++ [(info_path,
           plain_info prompt resolution timestamp
                      (export_base' prompt resolution timestamp)
                      thumbnail)].
Proof.
  intros run Hinfo.
  destruct (export_model_steps mesh prompt resolution timestamp fs)
    as (glb & obj & ply & stl & thumbnail & fs5 & Hrun & _).
  subst run. rewrite Hrun in Hinfo |- *. cbn [fst snd] in *.
  remember (fst (export_info path_join str_upper writable
                   (exports_before_info' prompt resolution timestamp glb obj
                                        ply stl thumbnail) fs5))
    as info eqn:Hi.
  exists fs5, thumbnail. split.
  - rewrite dict_get_add_other by reflexivity.
    unfold exports_before_info.
    destruct thumbnail as [t|]; cbn [add_export option_map].
    + apply dict_get_set_same.
    + rewrite !(dict_get_add_other _ _ (lit "thumbnail")) by reflexivity.
      reflexivity.
  - destruct info as [p|].
    + cbn [add_export] in Hinfo. rewrite dict_get_set_same in Hinfo.
      injection Hinfo as ->.
      unfold export_info in Hi |- *. unfold write_file in Hi |- *.
      destruct (writable _) eqn:Hw; cbn [fst snd] in Hi |- *;
        [|discriminate].
      injection Hi as Hp. rewrite Hp.
      rewrite info_text_before_info. reflexivity.
    + exfalso. cbn [add_export] in Hinfo. unfold exports_before_info in Hinfo.
      rewrite !(dict_get_add_other _ _ (lit "info")) in Hinfo by reflexivity.
      discriminate.
Qed.

End ExporterFacts.

Lemma export_info_lists_no_format_witness :
  dict_get (fst sample_export) (lit "info")
  = Some (VStr (lit "outputs/red_car_32_1700000000_info.txt")) /\
  exists earlier thumbnail,
    dict_get (fst sample_export) (lit "thumbnail")
    = option_map VStr thumbnail /\
    snd sample_export
    = earlier
      ++ [(lit "outputs/red_car_32_1700000000_info.txt",
           plain_info (lit "Red Car") 32 1700000000
                      (export_base ascii_lower ascii_whitespace
                                   (lit "Red Car") 32 1700000000)
                      thumbnail)].
Proof.
  assert (H : dict_get (fst sample_export) (lit "info")
              = Some (VStr (lit "outputs/red_car_32_1700000000_info.txt")))
    by (vm_compute; reflexivity).
  split; [exact H|].
  exact (export_info_lists_no_format (A := RealA) ascii_lower
           ascii_whitespace slash_join (fun s => s)
           echo_export no_image (fun _ => true) (bare_triangle RealA)
           (lit "Red Car") 32 1700000000 []
           (lit "outputs/red_car_32_1700000000_info.txt") H).
Defined.

Section ExportTrace.

Context {A : Scalar}.
Variable str_lower : str -> str.
Variable is_whitespace : N -> bool.
Variable path_join : str -> str -> str.
Variable str_upper : str -> str.
Variable mesh_export : Mesh A -> str -> result str.
Variable save_image : Mesh A -> mat4 A -> result str.
Variable writable : str -> bool.

Abbreviation export_base' := (export_base str_lower is_whitespace).
Abbreviation exports_before_info' :=
  (exports_before_info str_lower is_whitespace).

Lemma write_file_step (path data : str) (fs : FS) :
  export_step fs
    (if fst (write_file writable path data fs) then Some path else None,
     snd (write_file writable path data fs)).
Proof.
  unfold write_file, export_step. destruct (writable path); cbn [fst snd].
  - right. exists path, data. auto.
  - left. auto.
Qed.

Lemma export_format_step (file_type : str) mesh (base : str) (fs : FS) :
  export_step fs
    (export_format path_join mesh_export writable file_type mesh base fs).
Proof.
  unfold export_format.
  destruct (mesh_export mesh file_type) as [data|e]; [|left; auto].
  pose proof (write_file_step
                (path_join output_dir (base ++ lit "." ++ file_type))
                data fs) as H.
  destruct (write_file writable _ data fs) as [written fs']. exact H.
Qed.

Lemma generate_thumbnail_step mesh (base : str) (fs : FS) :
  export_step fs
    (generate_thumbnail path_join save_image writable mesh base fs).
Proof.
  unfold generate_thumbnail.
  destruct (let* transform := get_camera_transform mesh
            in save_image mesh transform) as [png|e]; [|left; auto].
  pose proof (write_file_step
                (path_join (thumbnail_dir path_join)
                           (base ++ lit "_thumb.png")) png fs) as H.
  destruct (write_file writable _ png fs) as [written fs']. exact H.
Qed.

Lemma export_info_step (export_data : dict) (fs : FS) :
  export_step fs (export_info path_join str_upper writable export_data fs).
Proof.
  unfold export_info.
  pose proof (write_file_step
                (path_join output_dir
                   (get_text export_data (lit "filename_base") (lit "model")
                    ++ lit "_info.txt"))
                (info_text str_upper export_data) fs) as H.
  destruct (write_file writable _ _ fs) as [written fs']. exact H.
Qed.

(** What a step leaves in the files, seen from the start [fs0]. *)
Lemma export_step_extends (fs0 fs : FS) (outcome : option str * FS)
    (earlier : list (str * str)) :
  fs = fs0 ++ earlier ->
  export_step fs outcome ->
  exists written,
    snd outcome = fs0 ++ written /\
    (forall file, In file earlier -> In file written) /\
    (forall path, fst outcome = Some path ->
                  exists data, In (path, data) written).
Proof.
  intros -> [[Hn ->] | (path & data & Hp & ->)].
  - exists earlier. repeat split; auto. intros path Hp. congruence.
  - exists (earlier ++ [(path, data)]). rewrite app_assoc.
    split; [reflexivity|]. split.
    + intros file Hf. apply in_or_app. auto.
    + intros p Hp'. rewrite Hp in Hp'. injection Hp' as <-.
      exists data. apply in_or_app. right. left. reflexivity.
Qed.

(** X25.  Every path in the result of [export_model] names a file that this
    export has written: the keys "glb", "obj", "ply", "stl", "thumbnail"
    and "info" are set only after the file was written. *)
Theorem export_model_paths_written (mesh : Mesh A) (prompt : str)
    (resolution timestamp : Z) (fs : FS) (key path : str) :
  let run :=
    export_model str_lower is_whitespace path_join str_upper mesh_export
                 save_image writable mesh prompt resolution timestamp fs in
  In key path_keys ->
  dict_get (fst run) key = Some (VStr path) ->
  exists written data,
    snd run = fs ++ written /\ In (path, data) written.
Proof.
  intros run Hkey Hget. subst run. revert Hget.
  unfold export_model. cbv zeta.
  fold (export_base' prompt resolution timestamp).
  set (base := export_base' prompt resolution timestamp).
  unfold export_glb, export_obj, export_ply, export_stl.
  pose proof (export_format_step (lit "glb") mesh base fs) as S1.
  destruct (export_format _ _ _ (lit "glb") mesh base fs) as [glb fs1].
  destruct (export_step_extends fs fs (glb, fs1) [] (eq_sym (app_nil_r fs)) S1)
    as (w1 & E1 & K1 & P1). cbn [fst snd] in E1, P1.
  pose proof (export_format_step (lit "obj") mesh base fs1) as S2.
  destruct (export_format _ _ _ (lit "obj") mesh base fs1) as [obj fs2].
  destruct (export_step_extends fs fs1 (obj, fs2) w1 E1 S2)
    as (w2 & E2 & K2 & P2). cbn [fst snd] in E2, P2.
  pose proof (export_format_step (lit "ply") mesh base fs2) as S3.
  destruct (export_format _ _ _ (lit "ply") mesh base fs2) as [ply fs3].
  destruct (export_step_extends fs fs2 (ply, fs3) w2 E2 S3)
    as (w3 & E3 & K3 & P3). cbn [fst snd] in E3, P3.
  pose proof (export_format_step (lit "stl") mesh base fs3) as S4.
  destruct (export_format _ _ _ (lit "stl") mesh base fs3) as [stl fs4].
  destruct (export_step_extends fs fs3 (stl, fs4) w3 E3 S4)
    as (w4 & E4 & K4 & P4). cbn [fst snd] in E4, P4.
  pose proof (generate_thumbnail_step mesh base fs4) as S5.
  destruct (generate_thumbnail _ _ _ mesh base fs4) as [thumbnail fs5].
  destruct (export_step_extends fs fs4 (thumbnail, fs5) w4 E4 S5)
    as (w5 & E5 & K5 & P5). cbn [fst snd] in E5, P5.
  fold (exports_before_info' prompt resolution timestamp glb obj ply stl
                            thumbnail).
  pose proof (export_info_step
                (exports_before_info' prompt resolution timestamp glb obj ply
                                     stl thumbnail) fs5) as S6.
  destruct (export_info _ _ _ _ fs5) as [info fs6].
  destruct (export_step_extends fs fs5 (info, fs6) w5 E5 S6)
    as (w6 & E6 & K6 & P6). cbn [fst snd] in E6, P6 |- *.
  intros Hget. exists w6.
  assert (Hfound : exists data, In (path, data) w6);
    [|destruct Hfound as [data Hd]; exists data; auto].
  unfold exports_before_info in Hget.
  destruct Hkey as [<-|[<-|[<-|[<-|[<-|[<-|[]]]]]]].
  - rewrite !(dict_get_add_other _ _ (lit "glb")) in Hget by reflexivity.
    destruct glb as [q|]; cbn [add_export] in Hget;
      [rewrite dict_get_set_same in Hget
      |change (@None value = Some (VStr path)) in Hget; discriminate].
    injection Hget as ->. destruct (P1 path eq_refl) as [data Hd].
    exists data. apply K6, K5, K4, K3, K2. exact Hd.
  - rewrite !(dict_get_add_other _ _ (lit "obj")) in Hget by reflexivity.
    destruct obj as [q|]; cbn [add_export] in Hget;
      [rewrite dict_get_set_same in Hget
      |rewrite !(dict_get_add_other _ _ (lit "obj")) in Hget
         by reflexivity;
       change (@None value = Some (VStr path)) in Hget; discriminate].
    injection Hget as ->. destruct (P2 path eq_refl) as [data Hd].
    exists data. apply K6, K5, K4, K3. exact Hd.
  - rewrite !(dict_get_add_other _ _ (lit "ply")) in Hget by reflexivity.
    destruct ply as [q|]; cbn [add_export] in Hget;
      [rewrite dict_get_set_same in Hget
      |rewrite !(dict_get_add_other _ _ (lit "ply")) in Hget
         by reflexivity;
       change (@None value = Some (VStr path)) in Hget; discriminate].
    injection Hget as ->. destruct (P3 path eq_refl) as [data Hd].
    exists data. apply K6, K5, K4. exact Hd.
  - rewrite !(dict_get_add_other _ _ (lit "stl")) in Hget by reflexivity.
    destruct stl as [q|]; cbn [add_export] in Hget;
      [rewrite dict_get_set_same in Hget
      |rewrite !(dict_get_add_other _ _ (lit "stl")) in Hget
         by reflexivity;
       change (@None value = Some (VStr path)) in Hget; discriminate].
    injection Hget as ->. destruct (P4 path eq_refl) as [data Hd].
    exists data. apply K6, K5. exact Hd.
  - rewrite !(dict_get_add_other _ _ (lit "thumbnail")) in Hget
      by reflexivity.
    destruct thumbnail as [q|]; cbn [add_export] in Hget;
      [rewrite dict_get_set_same in Hget
      |rewrite !(dict_get_add_other _ _ (lit "thumbnail")) in Hget
         by reflexivity;
       change (@None value = Some (VStr path)) in Hget; discriminate].
    injection Hget as ->. destruct (P5 path eq_refl) as [data Hd].
    exists data. apply K6. exact Hd.
  - destruct info as [q|]; cbn [add_export] in Hget;
      [rewrite dict_get_set_same in Hget
      |rewrite !(dict_get_add_other _ _ (lit "info")) in Hget
         by reflexivity;
       change (@None value = Some (VStr path)) in Hget; discriminate].
    injection Hget as ->. exact (P6 path eq_refl).
Qed.

End ExportTrace.

Lemma export_model_paths_written_witness :
  In (lit "glb") path_keys /\
  dict_get (fst sample_export) (lit "glb")
  = Some (VStr (lit "outputs/red_car_32_1700000000.glb")) /\
  exists written data,
    snd sample_export = [] ++ written /\
    In (lit "outputs/red_car_32_1700000000.glb", data) written.
Proof.
  assert (Hk : In (lit "glb") path_keys) by (left; reflexivity).
  assert (H : dict_get (fst sample_export) (lit "glb")
              = Some (VStr (lit "outputs/red_car_32_1700000000.glb")))
    by (vm_compute; reflexivity).
  split; [exact Hk|]. split; [exact H|].
  exact (export_model_paths_written (A := RealA) ascii_lower
           ascii_whitespace slash_join (fun s => s)
           echo_export no_image (fun _ => true) (bare_triangle RealA)
           (lit "Red Car") 32 1700000000 [] (lit "glb")
           (lit "outputs/red_car_32_1700000000.glb") Hk H).
Defined.

(** ** [generate_model] *)

Section VoxelForgeFacts.

Context {A : Scalar}.
Variable arccos : num A -> num A.
Variable trimesh_Trimesh :
  list (vec A) -> list face -> option (list rgba) -> result (Mesh A).
Variable RNG : Type.
Variable np_random_choice : nat -> nat -> RNG -> result (list nat) * RNG.
Variable remove_degenerate_faces : Mesh A -> result (Mesh A).
Variable remove_unreferenced_vertices : Mesh A -> result (Mesh A).
Variable split : Mesh A -> result (list (Mesh A)).
Variable fix_normals : Mesh A -> result (Mesh A).
Variable merge_vertices : Mesh A -> result (Mesh A).
Variable str_lower : str -> str.
Variable is_whitespace : N -> bool.
Variable path_join : str -> str -> str.
Variable str_upper : str -> str.
Variable mesh_export : Mesh A -> str -> result str.
Variable save_image : Mesh A -> mat4 A -> result str.
Variable writable : str -> bool.
Variable generate_from_text :
  str -> Z -> num A -> RNG -> option (Mesh A) * RNG.

Abbreviation generate_model' :=
  (generate_model arccos trimesh_Trimesh RNG np_random_choice
                  remove_degenerate_faces remove_unreferenced_vertices split
                  fix_normals merge_vertices str_lower is_whitespace
                  path_join str_upper mesh_export save_image writable
                  generate_from_text).
Abbreviation cleaning_fails' :=
  (cleaning_fails remove_degenerate_faces remove_unreferenced_vertices split
                  fix_normals merge_vertices).

Lemma process_mesh_outcome (color_palette : list rgb) (mesh : Mesh A)
    (g : RNG) :
  let run :=
    process_mesh arccos trimesh_Trimesh RNG np_random_choice
                 remove_degenerate_faces remove_unreferenced_vertices split
                 fix_normals merge_vertices color_palette mesh g in
  (fst run = Ok None /\ cleaning_fails' mesh) \/
  (exists final, fst run = Ok (Some final) /\ ~ cleaning_fails' mesh).
Proof.
  intros run. subst run. unfold process_mesh.
  pose proof (clean_none_iff remove_degenerate_faces
                remove_unreferenced_vertices split fix_normals
                merge_vertices mesh) as Hiff.
  destruct (clean _ _ _ _ _ mesh) as [[cleaned|]|e] eqn:Hc.
  - right.
    destruct (later_stages_outcome arccos trimesh_Trimesh RNG
                np_random_choice color_palette cleaned g)
      as (n & s & _ & _ & ->).
    eexists. split; [reflexivity|].
    intros Hf. apply Hiff in Hf. discriminate.
  - left. split; [reflexivity|]. apply Hiff. reflexivity.
  - exfalso. unfold clean, clean_mesh in Hc.
    destruct (clean_steps _ _ _ _ _ mesh) as [[?|]|?]; discriminate.
Qed.


End VoxelForgeFacts.
